(** * A shallow embedding of the bcl cryptocurrency node

    The development follows the JavaScript sources: [Transaction]
    (transaction.js), [Wallet] (wallet.js) and [Miner] (miner.js).  Methods
    that read or write [this] are computations in a state-and-exception
    monad whose state survives a [throw], as a JavaScript object does. *)

From Stdlib Require Import ZArith String Ascii List Bool Lia.
From stdpp Require Import base option list gmap strings.

Local Open Scope Z_scope.

(** ** Exceptions and completions

    The sources raise plain [Error] objects told apart by their message
    only; the constructors carry the names the design document gives them.
    [TypeError] is what the JavaScript runtime raises when a property of
    [undefined] is read. *)

Inductive Error : Type :=
  | WrongTxID            (* "Transaction id of input was ..., but this transaction's id is ..." *)
  | AddressMismatch      (* "Public key does not match its hash for tx ..." *)
  | BadSignature         (* "Invalid signature for ..." *)
  | InsufficientFunds    (* "Insufficient funds.  Requested ..." *)
  | UnknownAddress       (* "Wallet does not have key for ..." *)
  | StringLengthMismatch (* "Mismatching string length in mint elegibility process" *)
  | TypeError.           (* reading a property of undefined *)

Inductive Completion (A : Type) : Type :=
  | Return (a : A)
  | Throw (e : Error).
Arguments Return {A} a.
Arguments Throw {A} e.

(** A method body: from the object's state to a completion and the state
    the object is left in. *)
Definition M (S A : Type) : Type := S -> Completion A * S.

Definition ret {S A} (a : A) : M S A := fun s => (Return a, s).
Definition throw {S A} (e : Error) : M S A := fun s => (Throw e, s).
Definition bind {S A B} (m : M S A) (k : A -> M S B) : M S B :=
  fun s => match m s with
           | (Return a, s') => k a s'
           | (Throw e, s') => (Throw e, s')
           end.
Definition get {S} : M S S := fun s => (Return s, s).
Definition put {S} (s : S) : M S unit := fun _ => (Return tt, s).
Definition modify {S} (f : S -> S) : M S unit := fun s => (Return tt, f s).

(** Reading a property of a value that may be [undefined]. *)
Definition defined {S A} (o : option A) : M S A :=
  match o with Some a => ret a | None => throw TypeError end.

(** Running a method of a sub-object held in a field of [this]. *)
Definition zoom {S T A} (proj : S -> T) (upd : T -> S -> S) (m : M T A) : M S A :=
  fun s => let '(c, t) := m (proj s) in (c, upd t s).

Declare Scope js_scope.
Delimit Scope js_scope with js.
Notation "x <- m ;; k" := (bind m (fun x => k))
  (at level 20, m at level 99, k at level 200, only parsing) : js_scope.
Notation "m ;; k" := (bind m (fun _ => k))
  (at level 100, k at level 200, only parsing, right associativity) : js_scope.
Local Open Scope js_scope.

(** A [for] loop over the elements of an array with an accumulator. *)
Fixpoint forM {S A B} (body : B -> A -> M S B) (l : list A) (acc : B) : M S B :=
  match l with
  | [] => ret acc
  | x :: l' => acc' <- body acc x ;; forM body l' acc'
  end.

(** ** Numbers

    The amounts of the program are JavaScript numbers, IEEE 754 doubles.
    The model has those that are integers, the two infinities and NaN;
    [+], [-], unary [-], [<] and [>] are the operations of the language on
    them: a sum is the nearest double, a tie going to the even
    significand, and it is infinite from 2^1024 on.  The two zeros are one
    number, which no operation of the sources tells apart. *)

Module Number.

Inductive t : Type :=
  | Int (z : Z)
  | PosInf
  | NegInf
  | NaN.

(** The double nearest to the integer [z], for an exponent without
    bound.  Every integer up to 2^53 in magnitude is a double; above, a
    double is a multiple of the power of two [2^e] that leaves 53 bits. *)
Definition round (z : Z) : Z :=
  let m := Z.abs z in
  if m <=? 2 ^ 53 then z
  else
    let e := Z.log2 m - 52 in
    let q := m / 2 ^ e in
    let r := m mod 2 ^ e in
    let half := 2 ^ (e - 1) in
    let q' := if (half <? r) || ((r =? half) && Z.odd q) then q + 1 else q in
    Z.sgn z * (q' * 2 ^ e).

(** The result of an operation whose rounded value is [z]. *)
Definition finite (z : Z) : t :=
  if 2 ^ 1024 <=? z then PosInf
  else if z <=? - 2 ^ 1024 then NegInf
  else Int z.

(** [a + b] *)
Definition add (a b : t) : t :=
  match a, b with
  | NaN, _ | _, NaN => NaN
  | PosInf, NegInf | NegInf, PosInf => NaN
  | PosInf, _ | _, PosInf => PosInf
  | NegInf, _ | _, NegInf => NegInf
  | Int x, Int y => finite (round (x + y))
  end.

(** [-a] *)
Definition opp (a : t) : t :=
  match a with
  | Int x => Int (- x)
  | PosInf => NegInf
  | NegInf => PosInf
  | NaN => NaN
  end.

(** [a - b] *)
Definition sub (a b : t) : t := add a (opp b).

(** [a < b] *)
Definition ltb (a b : t) : bool :=
  match a, b with
  | NaN, _ | _, NaN => false
  | Int x, Int y => x <? y
  | NegInf, NegInf => false
  | NegInf, _ => true
  | _, NegInf => false
  | PosInf, _ => false
  | _, PosInf => true
  end.

(** [a > b] *)
Definition gtb (a b : t) : bool := ltb b a.

(** [array.reduce((acc, x) => acc + x, 0)]: the sum from 0, left to
    right. *)
Definition sum (ns : list t) : t := fold_left add ns (Int 0).

(** The integer a number is; the others count for nothing in the sums
    of the design document. *)
Definition value (a : t) : Z :=
  match a with Int x => x | _ => 0 end.

(** The sum of the integers of a list. *)
Fixpoint total (ns : list t) : Z :=
  match ns with
  | [] => 0
  | a :: ns' => value a + total ns'
  end.

(** A non-negative integer, as the design document has the amounts. *)
Definition natural (a : t) : Prop :=
  match a with Int x => 0 <= x | _ => False end.

(** A non-negative integer or Infinity. *)
Definition nonnegative (a : t) : Prop :=
  match a with Int x => 0 <= x | PosInf => True | _ => False end.

End Number.

Coercion Number.Int : Z >-> Number.t.

(** ** The cryptographic module (utils.js)

    utils.js is an external collaborator: the sources only call it.  Its
    functions are the fields of a class; every result below holds for every
    instance. *)

Record KeyPair : Type := { public : string; private : string }.

Record Output : Type := { amount : Number.t; address : string }.

Record Input : Type :=
  { txID : string; outputIndex : Z; pubKey : string; sig : string }.

Class Utils : Type :=
  { hash : string -> string;
    calcAddress : string -> string;
    sign : string -> Output -> string;
    verifySignature : string -> Output -> string -> bool;
    (* JSON.stringify({inputs, outputs}) *)
    stringify : list Input -> list Output -> string }.

(** [a[i]] for an array [a] and a number [i]: [undefined] outside the
    array. *)
Definition index {A} (a : list A) (i : Z) : option A :=
  if i <? 0 then None else a !! Z.to_nat i.

Definition sumAmounts (os : list Output) : Number.t :=
  fold_left (fun acc o => Number.add acc (amount o)) os (Number.Int 0).

(** ** Transaction (transaction.js) *)

Module Transaction.

(** [this.outputs] is an array of output objects, and [addFee] writes to
    the object in slot 0: the array holds references, [slots], into a
    heap of output objects, [objects], so that two slots may hold the
    same object.  A reference is a number.  The heap is that of the
    transaction: what a wallet or a view that holds one of these objects
    reads after [addFee] is not part of the state of these methods. *)
Record t : Type :=
  { inputs : list Input;
    slots : list nat;
    objects : nat -> Output;
    id : string }.

(** [this.outputs], read through the references. *)
Definition outputs (this : t) : list Output := objects this <$> slots this.
Arguments outputs : simpl never.

(** A UTXO view: transaction id to the array of its outputs, a spent
    slot being empty. *)
Definition UTXOs : Type := gmap string (list (option Output)).

Section Transaction.
Context `{Utils}.

(** [constructor({outputs, inputs=[]})] on an array [outputs] that holds
    the objects [slots] of the heap. *)
Definition constructorOn (objects : nat -> Output) (slots : list nat)
    (ins : list Input) : t :=
  {| inputs := ins; slots := slots; objects := objects;
     id := hash (stringify ins (objects <$> slots)) |}.

(** [constructor({outputs, inputs=[]})] on an array of distinct objects
    with the contents [outs], as every construction of the sources has
    it: object [r] is in slot [r]. *)
Definition constructor (outs : list Output) (ins : list Input) : t :=
  {| inputs := ins;
     slots := seq 0 (length outs);
     objects := fun r => default {| amount := 0; address := ""%string |} (outs !! r);
     id := hash (stringify ins outs) |}.

(** [spendOutput(input)] *)
Definition spendOutput (input : Input) : M t Number.t :=
  this <- get ;;
  if negb (String.eqb (txID input) (id this)) then throw WrongTxID
  else
    (* let {amount, address} = output; *)
    output <- defined (index (outputs this) (outputIndex input)) ;;
    if negb (String.eqb (calcAddress (pubKey input)) (address output)) then
      throw AddressMismatch
    else if negb (verifySignature (pubKey input) output (sig input)) then
      throw BadSignature
    else ret (amount output).

(** The body of the [forEach] over the inputs in [isValid]; the
    accumulator is the pair of the locals [inSum] and [valid]. *)
Definition checkInput (utxos : UTXOs) (acc : Number.t * bool) (txIn : Input)
  : M t (Number.t * bool) :=
  let '(inSum, valid) := acc in
  match utxos !! txID txIn with
  | None => ret (inSum, false)
  | Some utxo =>
      match mjoin (index utxo (outputIndex txIn)) with
      | None => ret (inSum, false)
      | Some prevOut =>
          if String.eqb (address prevOut) (calcAddress (pubKey txIn))
             && verifySignature (pubKey txIn) prevOut (sig txIn)
          then ret (Number.add inSum (amount prevOut), valid)
          else ret (inSum, false)
      end
  end.

(** [isValid(utxos)] *)
Definition isValid (utxos : UTXOs) : M t bool :=
  this <- get ;;
  r <- forM (checkInput utxos) (inputs this) (Number.Int 0, true) ;;
  let '(inSum, valid) := r in
  if negb valid then ret false
  else
    let outSum := fold_left (fun outSum txOut => Number.add outSum (amount txOut))
                            (outputs this) (Number.Int 0) in
    if Number.ltb inSum outSum then ret false else ret true.

(** [addFee(amount)]: [this.outputs[0].amount += amount], a write to the
    object in slot 0, which every slot holding that object shows. *)
Definition addFee (fee : Number.t) : M t unit :=
  this <- get ;;
  r <- defined (slots this !! 0%nat) ;;
  let o := objects this r in
  put {| inputs := inputs this;
         slots := slots this;
         objects := fun r' =>
           if Nat.eqb r' r
           then {| amount := Number.add (amount o) fee; address := address o |}
           else objects this r';
         id := id this |}.

(** [totalOutput()] *)
Definition totalOutput : M t Number.t :=
  this <- get ;;
  ret (fold_left (fun acc o => Number.add acc (amount o)) (outputs this)
                 (Number.Int 0)).

End Transaction.
End Transaction.

(** ** Wallet (wallet.js)

  [this.coins] is an array of coin objects.  [spendUTXOs] writes to
  those objects and finds them again in the array by identity
  ([indexOf]), so the array holds references into a store of coin
  objects. *)

Module Wallet.

Definition ref : Type := nat.

(** A coin object.  [addUTXO] creates it as [{output, txID, outputIndex}];
    [spendUTXOs] sets [pubKey] and [sig] on it and deletes [output]. *)
Record Coin : Type :=
  { coin_output : option Output;
    coin_txID : string;
    coin_outputIndex : Z;
    coin_pubKey : option string;
    coin_sig : option string }.

(** [addresses] is a JavaScript object used as a map; its keys are kept
    in insertion order, which [saveElibilityProof] depends on.  The keys
    are addresses (hashes of public keys), never names of members of
    [Object.prototype]. *)
Record t : Type :=
  { coins : list ref;
    addresses : list (string * KeyPair);
    eligibility_address : option string;
    (* the coin objects allocated so far, and the next fresh reference *)
    store : gmap ref Coin;
    fresh : ref }.

Definition set_coins (cs : list ref) (w : t) : t :=
  {| coins := cs; addresses := addresses w;
     eligibility_address := eligibility_address w;
     store := store w; fresh := fresh w |}.

Definition set_addresses (a : list (string * KeyPair)) (w : t) : t :=
  {| coins := coins w; addresses := a;
     eligibility_address := eligibility_address w;
     store := store w; fresh := fresh w |}.

Definition set_eligibility_address (e : option string) (w : t) : t :=
  {| coins := coins w; addresses := addresses w;
     eligibility_address := e;
     store := store w; fresh := fresh w |}.

Definition write (l : ref) (c : Coin) (w : t) : t :=
  {| coins := coins w; addresses := addresses w;
     eligibility_address := eligibility_address w;
     store := <[l := c]> (store w); fresh := fresh w |}.

(** [this.addresses[a]] *)
Fixpoint lookupKey (a : string) (m : list (string * KeyPair)) : option KeyPair :=
  match m with
  | [] => None
  | (a', kp) :: m' => if String.eqb a a' then Some kp else lookupKey a m'
  end.

(** [this.addresses[a] = kp]: an existing key keeps its place. *)
Fixpoint setKey (a : string) (kp : KeyPair) (m : list (string * KeyPair))
  : list (string * KeyPair) :=
  match m with
  | [] => [(a, kp)]
  | (a', kp') :: m' =>
      if String.eqb a a' then (a, kp) :: m' else (a', kp') :: setKey a kp m'
  end.

(** [array.indexOf(e)]: the first position holding the same object, or -1. *)
Fixpoint indexOf (e : ref) (a : list ref) : Z :=
  match a with
  | [] => -1
  | x :: a' =>
      if Nat.eqb x e then 0
      else let i := indexOf e a' in if i <? 0 then -1 else i + 1
  end.

(** [array.splice(start, 1)]: a negative [start] counts from the end. *)
Definition splice1 (start : Z) (a : list ref) : list ref :=
  let len := Z.of_nat (length a) in
  let s := if start <? 0 then Z.max (len + start) 0 else Z.min start len in
  delete (Z.to_nat s) a.

(** What [spendUTXOs] returns: [{inputs: needed, changeAmt: -amount}],
    the inputs being the coin objects themselves. *)
Record Spent : Type := { inputs : list ref; changeAmt : Number.t }.

Section Wallet.
Context `{Utils}.

(** [constructor()] *)
Definition constructor : t :=
  {| coins := []; addresses := []; eligibility_address := None;
     store := ∅; fresh := 0%nat |}.

(** [get balance()] *)
Definition balance : M t Number.t :=
  this <- get ;;
  forM (fun acc l =>
          c <- defined (store this !! l) ;;
          output <- defined (coin_output c) ;;
          ret (Number.add acc (amount output)))
       (coins this) (Number.Int 0).

(** [addUTXO(utxo, txID, outputIndex)] *)
Definition addUTXO (utxo : Output) (txID : string) (outputIndex : Z) : M t unit :=
  this <- get ;;
  match lookupKey (address utxo) (addresses this) with
  | None => throw UnknownAddress
  | Some _ =>
      (* this.coins.unshift({output: utxo, txID: txID, outputIndex: outputIndex}) *)
      let l := fresh this in
      put {| coins := l :: coins this;
             addresses := addresses this;
             eligibility_address := eligibility_address this;
             store := <[l := {| coin_output := Some utxo; coin_txID := txID;
                                coin_outputIndex := outputIndex;
                                coin_pubKey := None; coin_sig := None |}]>
                        (store this);
             fresh := S l |}
  end.

(** One round of the [for] loop of [spendUTXOs] on the coin [this.coins[i]]. *)
Definition spendCoin (l : ref) : M t Number.t :=
  this <- get ;;
  c <- defined (store this !! l) ;;
  output <- defined (coin_output c) ;;
  kp <- defined (lookupKey (address output) (addresses this)) ;;
  (* c.pubKey = ...; c.sig = ...; delete c.output *)
  modify (write l {| coin_output := None;
                     coin_txID := coin_txID c;
                     coin_outputIndex := coin_outputIndex c;
                     coin_pubKey := Some (public kp);
                     coin_sig := Some (sign (private kp) output) |}) ;;
  ret (amount output).

(** The [for] loop of [spendUTXOs], from index [i] on: [cs] is
    [this.coins] from [i], which the loop does not change. *)
Fixpoint spendLoop (cs : list ref) (amount : Number.t) (needed : list ref)
  : M t (Number.t * list ref) :=
  match cs with
  | [] => ret (amount, needed)
  | l :: cs' =>
      if Number.gtb amount 0 then
        a <- spendCoin l ;;
        spendLoop cs' (Number.sub amount a) (needed ++ [l])
      else ret (amount, needed)   (* break *)
  end.

(** [needed.forEach(element => this.coins.splice(this.coins.indexOf(element), 1))] *)
Definition removeNeeded (needed : list ref) : M t unit :=
  forM (fun (_ : unit) element =>
          modify (fun w => set_coins (splice1 (indexOf element (coins w)) (coins w)) w))
       needed tt.

(** [spendUTXOs(amount)] *)
Definition spendUTXOs (amount : Number.t) : M t Spent :=
  bal <- balance ;;
  if Number.gtb amount bal then throw InsufficientFunds
  else
    this <- get ;;
    r <- spendLoop (coins this) amount [] ;;
    let '(amount', needed) := r in
    removeNeeded needed ;;
    ret {| inputs := needed; changeAmt := Number.opp amount' |}.

(** [spendUTXOsFully(amount)]: the result is [{inputs: needed}]. *)
Definition spendUTXOsFully (amount : Number.t) : M t (list ref) :=
  bal <- balance ;;
  if Number.gtb amount bal then throw InsufficientFunds
  else
    this <- get ;;
    r <- spendLoop (coins this) amount [] ;;
    let '(_, needed) := r in
    removeNeeded needed ;;
    ret needed.

(** [makeAddress()]: [kp] is what the call of [keypair()] yields. *)
Definition makeAddress (kp : KeyPair) : M t string :=
  let addr := calcAddress (public kp) in
  modify (fun w => set_addresses (setKey addr kp (addresses w)) w) ;;
  ret addr.

(** [getEligibilityAddress()] *)
Definition getEligibilityAddress (w : t) : option string :=
  eligibility_address w.

(** [saveElibilityProof()]: the public key of the last address. *)
Definition saveElibilityProof : M t unit :=
  this <- get ;;
  let total_add :=
    fold_left (fun _ k => public (snd k)) (addresses this) ""%string in
  put (set_eligibility_address (Some total_add) this).

(** [hasKey(address)] *)
Definition hasKey (a : string) (w : t) : bool :=
  bool_decide (is_Some (lookupKey a (addresses w))).

End Wallet.
End Wallet.

(** ** Block (block.js) and Client (client.js)

  Neither file is among the sources; miner.js only calls them. *)

Module Block.

Record t : Type :=
  { prevBlockHash : string;
    chainLength : Z;
    timestamp : Z;
    rewardAddress : string;
    coinbaseTX : Transaction.t;
    transactions : list Transaction.t;
    utxos : Transaction.UTXOs;
    proof : Z }.

(** The methods of a block that miner.js calls and whose bodies are not
    available, with the base reward of a coinbase transaction. *)
Class Ops : Type :=
  { hashVal : t -> string;
    verifyProof : t -> bool;
    deserialize : string -> t;
    baseReward : Z }.

Definition set_proof (p : Z) (b : t) : t :=
  {| prevBlockHash := prevBlockHash b; chainLength := chainLength b;
     timestamp := timestamp b; rewardAddress := rewardAddress b;
     coinbaseTX := coinbaseTX b; transactions := transactions b;
     utxos := utxos b; proof := p |}.

Section Block.
Context `{Utils} `{Ops}.

(** Modelled from the spec: the constructor of block.js, [new
    Block(rewardAddress, parent)] for a present [parent]: "chainLength =
    parent.chainLength + 1, prevBlockHash = hash(parent), UTXO view cloned
    from parent, timestamp = now().  Always creates coinbaseTX with one
    output { amount: baseReward, address: rewardAddress } and adds it to
    the UTXO view under its own id."  [now] is the reading of the clock. *)
Definition constructor (rewardAddr : string) (parent : t) (now : Z) : t :=
  let cb := Transaction.constructor
              [{| amount := baseReward; address := rewardAddr |}] [] in
  {| prevBlockHash := hashVal parent;
     chainLength := chainLength parent + 1;
     timestamp := now;
     rewardAddress := rewardAddr;
     coinbaseTX := cb;
     transactions := [];
     utxos := <[Transaction.id cb := Some <$> Transaction.outputs cb]> (utxos parent);
     proof := 0 |}.

End Block.
End Block.

(** ** Miner (miner.js)

    [this.log], which only writes to the console, is left out.  A handler
    of a miner runs to completion before another one of the same miner
    starts, so a broadcast is recorded as an effect and not delivered
    within the handler that emits it. *)

Module Miner.

Definition NUM_ROUNDS_MINING : Z := 2000.
Definition TIME_UNTIL_ELIGIBILITY_DECREASE : Z := 2000.
Definition MINT_ELEGIBILITY_DIFFICULTY : Z := 2.

(** The state of a miner after [initialize], which is when
    [receiveBlock] is registered as the handler of PROOF_FOUND. *)
Record t : Type :=
  { name : string;
    mint_elegibility_diff_dyn : Z;
    previousBlocks : gmap string Block.t;
    currentBlock : Block.t;
    shouldStartNewBlock : bool;
    shouldMine : bool;
    rewardAddress : string;
    wallet : Wallet.t }.

(** The [miner] a PROOF_FOUND message carries is a reference to a miner
    object: the receiving miner itself or another one. *)
Inductive Sender : Type :=
  | Self
  | Peer (m : t).

(** [this === miner] *)
Definition isThis (miner : option Sender) : bool :=
  match miner with Some Self => true | _ => false end.

(** What a miner hands to the outside: messages given to [broadcast] and
    calls of [setTimeout]. *)
Inductive Effect : Type :=
  | Broadcast_POST_TRANSACTION (tx : Transaction.t)
  | SetTimeout_startNewSearch (reuseRewardAddress : bool) (delay : Z).

(** The outside of a miner: the successive readings of [Date.now()] and
    the successive results of [keypair()]. *)
Class Env : Type :=
  { Date_now : nat -> Z;
    keypair : nat -> KeyPair }.

(** A miner in its environment: how many clock readings and key pairs it
    has drawn, and the effects it has emitted, latest first. *)
Record Sys : Type :=
  { this : t;
    clockReads : nat;
    keysDrawn : nat;
    effects : list Effect }.

Definition set_this (m : t) (s : Sys) : Sys :=
  {| this := m; clockReads := clockReads s; keysDrawn := keysDrawn s;
     effects := effects s |}.

Definition set_wallet (w : Wallet.t) (m : t) : t :=
  {| name := name m; mint_elegibility_diff_dyn := mint_elegibility_diff_dyn m;
     previousBlocks := previousBlocks m; currentBlock := currentBlock m;
     shouldStartNewBlock := shouldStartNewBlock m; shouldMine := shouldMine m;
     rewardAddress := rewardAddress m; wallet := w |}.

Definition set_mint_elegibility_diff_dyn (d : Z) (m : t) : t :=
  {| name := name m; mint_elegibility_diff_dyn := d;
     previousBlocks := previousBlocks m; currentBlock := currentBlock m;
     shouldStartNewBlock := shouldStartNewBlock m; shouldMine := shouldMine m;
     rewardAddress := rewardAddress m; wallet := wallet m |}.

Definition set_previousBlocks (p : gmap string Block.t) (m : t) : t :=
  {| name := name m; mint_elegibility_diff_dyn := mint_elegibility_diff_dyn m;
     previousBlocks := p; currentBlock := currentBlock m;
     shouldStartNewBlock := shouldStartNewBlock m; shouldMine := shouldMine m;
     rewardAddress := rewardAddress m; wallet := wallet m |}.

Definition set_currentBlock (b : Block.t) (m : t) : t :=
  {| name := name m; mint_elegibility_diff_dyn := mint_elegibility_diff_dyn m;
     previousBlocks := previousBlocks m; currentBlock := b;
     shouldStartNewBlock := shouldStartNewBlock m; shouldMine := shouldMine m;
     rewardAddress := rewardAddress m; wallet := wallet m |}.

Definition set_shouldStartNewBlock (f : bool) (m : t) : t :=
  {| name := name m; mint_elegibility_diff_dyn := mint_elegibility_diff_dyn m;
     previousBlocks := previousBlocks m; currentBlock := currentBlock m;
     shouldStartNewBlock := f; shouldMine := shouldMine m;
     rewardAddress := rewardAddress m; wallet := wallet m |}.

Definition set_shouldMine (f : bool) (m : t) : t :=
  {| name := name m; mint_elegibility_diff_dyn := mint_elegibility_diff_dyn m;
     previousBlocks := previousBlocks m; currentBlock := currentBlock m;
     shouldStartNewBlock := shouldStartNewBlock m; shouldMine := f;
     rewardAddress := rewardAddress m; wallet := wallet m |}.

Definition set_rewardAddress (a : string) (m : t) : t :=
  {| name := name m; mint_elegibility_diff_dyn := mint_elegibility_diff_dyn m;
     previousBlocks := previousBlocks m; currentBlock := currentBlock m;
     shouldStartNewBlock := shouldStartNewBlock m; shouldMine := shouldMine m;
     rewardAddress := a; wallet := wallet m |}.

(** [n.toString(2)] for a code unit [n]. *)
Fixpoint binaryDigits (p : positive) (acc : string) : string :=
  match p with
  | xH => String "1" acc
  | xO p' => binaryDigits p' (String "0" acc)
  | xI p' => binaryDigits p' (String "1" acc)
  end.

Definition toString2 (n : N) : string :=
  match n with
  | N0 => "0"
  | Npos p => binaryDigits p ""
  end.

(** [text2Binary(string)] *)
Definition text2Binary (s : string) : string :=
  substring 0 16
    (String.concat "" (map (fun char => toString2 (N_of_ascii char))
                           (list_ascii_of_string s))).

(** The [for] loop of [countMatchingBits] from index [i] on, with [n]
    rounds left. *)
Fixpoint countLoop (n i : nat) (string1 string2 : string) (total : Z) : Z :=
  match n with
  | O => total
  | S n' =>
      if bool_decide (String.get i string1 = String.get i string2)
      then countLoop n' (S i) string1 string2 (total + 1)
      else total
  end.

(** [countMatchingBits(string1, string2)] *)
Definition countMatchingBits {S} (string1 string2 : string) : M S Z :=
  if negb (Nat.eqb (String.length string1) (String.length string2))
  then throw StringLengthMismatch
  else ret (countLoop (String.length string1) 0 string1 string2 0).

(** [isEligibileToMint(miner, b, target)] *)
Definition isEligibileToMint {S} (miner : t) (b : Block.t) (target : Z) : M S bool :=
  let cbh := text2Binary (Block.prevBlockHash b) in
  (* text2Binary(undefined) raises a TypeError *)
  key <- defined (Wallet.getEligibilityAddress (wallet miner)) ;;
  let pkh := text2Binary key in
  n <- countMatchingBits cbh pkh ;;
  ret (target <=? n).

Section Miner.
Context `{Utils} `{Block.Ops} `{Env}.

Definition onWallet {A} (m : M Wallet.t A) : M Sys A :=
  zoom (fun s => wallet (this s))
       (fun w s => set_this (set_wallet w (this s)) s) m.

Definition update (f : t -> t) : M Sys unit :=
  modify (fun s => set_this (f (this s)) s).

(** [Date.now()] *)
Definition now : M Sys Z :=
  fun s => (Return (Date_now (clockReads s)),
            {| this := this s; clockReads := S (clockReads s);
               keysDrawn := keysDrawn s; effects := effects s |}).

(** [this.wallet.makeAddress()], drawing the next key pair. *)
Definition wallet_makeAddress : M Sys string :=
  fun s => onWallet (Wallet.makeAddress (keypair (keysDrawn s)))
             {| this := this s; clockReads := clockReads s;
                keysDrawn := S (keysDrawn s); effects := effects s |}.

Definition emit (e : Effect) : M Sys unit :=
  modify (fun s => {| this := this s; clockReads := clockReads s;
                      keysDrawn := keysDrawn s; effects := e :: effects s |}).

(** The input [{txID, outputIndex, pubKey, sig}] a spent coin object is
    read as. *)
Definition asInput (c : Wallet.Coin) : Input :=
  {| txID := Wallet.coin_txID c;
     outputIndex := Wallet.coin_outputIndex c;
     pubKey := default ""%string (Wallet.coin_pubKey c);
     sig := default ""%string (Wallet.coin_sig c) |}.

(** Modelled from the spec: [postTransaction(outputs)] of client.js:
    "computes total = Σ outputs.amount; calls wallet.spendUTXOs(total); if
    changeAmount > 0, appends a change output to wallet.makeAddress();
    builds the Transaction; broadcasts it on POST_TRANSACTION". *)
Definition postTransaction (outputs : list Output) : M Sys unit :=
  let total := sumAmounts outputs in
  r <- onWallet (Wallet.spendUTXOs total) ;;
  outputs' <- (if Number.gtb (Wallet.changeAmt r) 0 then
                 a <- wallet_makeAddress ;;
                 ret (outputs ++ [{| amount := Wallet.changeAmt r; address := a |}])
               else ret outputs) ;;
  s <- get ;;
  ins <- forM (fun acc l =>
                 c <- defined (Wallet.store (wallet (this s)) !! l) ;;
                 ret (acc ++ [asInput c]))
              (Wallet.inputs r) [] ;;
  emit (Broadcast_POST_TRANSACTION (Transaction.constructor outputs' ins)).

(** [startNewSearch(reuseRewardAddress=false)] *)
Definition startNewSearch (reuseRewardAddress : bool) : M Sys unit :=
  onWallet Wallet.saveElibilityProof ;;
  s <- get ;;
  (if shouldStartNewBlock (this s) then
     update (set_mint_elegibility_diff_dyn MINT_ELEGIBILITY_DIFFICULTY) ;;
     (if negb reuseRewardAddress then
        a <- wallet_makeAddress ;;
        update (set_rewardAddress a)
      else ret tt) ;;
     (* let b = new Block(this.rewardAddress, this.currentBlock); *)
     s <- get ;;
     time <- now ;;
     let b := Block.constructor (rewardAddress (this s)) (currentBlock (this s)) time in
     update (fun m => set_previousBlocks
                        (<[Block.prevBlockHash b := currentBlock m]> (previousBlocks m)) m) ;;
     update (set_currentBlock b) ;;
     update (fun m => set_currentBlock (Block.set_proof 0 (currentBlock m)) m) ;;
     update (set_shouldStartNewBlock false) ;;
     selfAddr <- wallet_makeAddress ;;
     postTransaction [{| amount := 40; address := selfAddr |}]
   else ret tt) ;;
  s <- get ;;
  eligible <- isEligibileToMint (this s) (currentBlock (this s))
                                (mint_elegibility_diff_dyn (this s)) ;;
  if eligible then update (set_shouldMine true)
  else
    update (set_shouldMine false) ;;
    update (fun m => set_mint_elegibility_diff_dyn (mint_elegibility_diff_dyn m - 1) m) ;;
    emit (SetTimeout_startNewSearch reuseRewardAddress TIME_UNTIL_ELIGIBILITY_DECREASE).

(** The miner object a [Sender] denotes. *)
Definition deref (miner : Sender) (s : Sys) : t :=
  match miner with Self => this s | Peer m => m end.

(** [isValidBlock(b, miner = null)] *)
Definition isValidBlock (b : Block.t) (miner : option Sender) : M Sys bool :=
  eligible <- match miner with
              | Some miner =>
                  currentTime <- now ;;
                  let blockTimestamp := Block.timestamp b in
                  let diff := currentTime - blockTimestamp + 1000 in
                  let minMintingDifficulty :=
                    MINT_ELEGIBILITY_DIFFICULTY
                    - diff / TIME_UNTIL_ELIGIBILITY_DECREASE in
                  s <- get ;;
                  isEligibileToMint (deref miner s) b minMintingDifficulty
              | None => ret true
              end ;;
  if negb eligible then ret false
  else if negb (Block.verifyProof b) then ret false
  else ret true.

(** [receiveBlock({block: s, miner})]; the result is [false] or
    [undefined]. *)
Definition receiveBlock (s : string) (miner : option Sender) : M Sys (option bool) :=
  let b := Block.deserialize s in
  valid <- isValidBlock b miner ;;
  if negb valid then ret (Some false)
  else
    st <- get ;;
    (match previousBlocks (this st) !! Block.hashVal b with
     | None => update (fun m => set_previousBlocks
                                  (<[Block.hashVal b := b]> (previousBlocks m)) m)
     | Some _ => ret tt
     end) ;;
    st <- get ;;
    if (Block.chainLength (currentBlock (this st)) <=? Block.chainLength b)
       && negb (isThis miner)
    then
      update (set_currentBlock b) ;;
      update (set_shouldStartNewBlock true) ;;
      startNewSearch true ;;
      ret None
    else ret None.

End Miner.
End Miner.

(** ** The proof search of a miner (miner.js, [findProof] and
    [announceProof]) *)

Module Mining.

(** [block.serialize(includeProof)], of block.js. *)
Class Wire : Type :=
  { serialize : bool -> Block.t -> string }.

(** A miner with what the proof search hands to the outside: the
    serialized blocks given to [broadcast(PROOF_FOUND, {block, miner:
    this})], latest first, and the number of pending
    [setTimeout(() => this.emit(START_MINING), 0)]. *)
Record t : Type :=
  { sys : Miner.Sys;
    announced : list string;
    startMining : nat }.

Definition lift {A} (m : M Miner.Sys A) : M t A :=
  zoom sys (fun s x => {| sys := s; announced := announced x;
                          startMining := startMining x |}) m.

Section Mining.
Context `{Utils} `{Block.Ops} `{Miner.Env} `{Wire}.

(** Modelled from the spec: [receiveOutput(tx)] of client.js: "for each
    output whose address is in this wallet, calls wallet.addUTXO(output,
    tx.id, i)". *)
Definition receiveOutput (tx : Transaction.t) : M Miner.Sys unit :=
  forM (fun (_ : unit) (io : nat * Output) =>
          s <- get ;;
          if Wallet.hasKey (address (snd io)) (Miner.wallet (Miner.this s))
          then Miner.onWallet
                 (Wallet.addUTXO (snd io) (Transaction.id tx) (Z.of_nat (fst io)))
          else ret tt)
       (imap (fun i o => (i, o)) (Transaction.outputs tx)) tt.

(** [announceProof()] *)
Definition announceProof : M t unit :=
  x <- get ;;
  let serialized := serialize true (Miner.currentBlock (Miner.this (sys x))) in
  put {| sys := sys x; announced := serialized :: announced x;
         startMining := startMining x |}.

(** The branch of the loop of [findProof] taken on a valid proof, up to
    its [break]. *)
Definition proofFound : M t unit :=
  x <- get ;;
  lift (receiveOutput (Block.coinbaseTX (Miner.currentBlock (Miner.this (sys x))))) ;;
  announceProof ;;
  lift (Miner.update (Miner.set_shouldMine false)) ;;
  lift (Miner.update (Miner.set_shouldStartNewBlock true)) ;;
  lift (Miner.startNewSearch false).

(** The [while] loop of [findProof], with [fuel] rounds at most. *)
Fixpoint findProofLoop (fuel : nat) (pausePoint : Z) : M t unit :=
  match fuel with
  | O => ret tt
  | S fuel' =>
      x <- get ;;
      let this := Miner.this (sys x) in
      if Miner.shouldMine this
         && (Block.proof (Miner.currentBlock this) <? pausePoint)
      then
        valid <- lift (Miner.isValidBlock (Miner.currentBlock this) None) ;;
        if valid then
          proofFound   (* break *)
        else
          (* this.currentBlock.proof++ *)
          lift (Miner.update
                  (fun m => Miner.set_currentBlock
                              (Block.set_proof (Block.proof (Miner.currentBlock m) + 1)
                                               (Miner.currentBlock m)) m)) ;;
          findProofLoop fuel' pausePoint
      else ret tt
  end.

(** [findProof(oneAndDone=false)].  The loop leaves when the proof has
    reached [pausePoint], that is after [NUM_ROUNDS_MINING] rounds at
    most. *)
Definition findProof (oneAndDone : bool) : M t unit :=
  x <- get ;;
  let pausePoint :=
    Block.proof (Miner.currentBlock (Miner.this (sys x))) + Miner.NUM_ROUNDS_MINING in
  findProofLoop (Z.to_nat Miner.NUM_ROUNDS_MINING) pausePoint ;;
  if negb oneAndDone then
    modify (fun x => {| sys := sys x; announced := announced x;
                        startMining := S (startMining x) |})
  else ret tt.

End Mining.
End Mining.

(** ** The properties, as the design document words them *)

Module Spec.

(** *** Transactions *)

Section Transactions.
Context `{Utils}.

(** The output [view[input.txID][input.outputIndex]], when the view has
    that transaction and the slot is not cleared. *)
Definition referenced (view : Transaction.UTXOs) (input : Input) : option Output :=
  match view !! txID input with
  | Some slots => mjoin (index slots (outputIndex input))
  | None => None
  end.

(** An input is authorized by a view: the referenced output exists, its
    address is the hash of the input's public key, and the signature
    verifies against it. *)
Definition authorized (view : Transaction.UTXOs) (input : Input) : Prop :=
  exists prevOut,
    referenced view input = Some prevOut
    /\ address prevOut = calcAddress (pubKey input)
    /\ verifySignature (pubKey input) prevOut (sig input) = true.

(** The same as a boolean. *)
Definition authorizedb (view : Transaction.UTXOs) (input : Input) : bool :=
  match referenced view input with
  | Some prevOut =>
      String.eqb (address prevOut) (calcAddress (pubKey input))
      && verifySignature (pubKey input) prevOut (sig input)
  | None => false
  end.

(** The sum of the referenced input amounts. *)
Fixpoint inputSum (view : Transaction.UTXOs) (ins : list Input) : Z :=
  match ins with
  | [] => 0
  | input :: ins' =>
      match referenced view input with
      | Some prevOut => Number.value (amount prevOut)
      | None => 0
      end + inputSum view ins'
  end.

(** The sum of the output amounts. *)
Fixpoint outputSum (outs : list Output) : Z :=
  match outs with
  | [] => 0
  | o :: outs' => Number.value (amount o) + outputSum outs'
  end.

(** The referenced amounts, in the order of the inputs. *)
Definition referencedAmounts (view : Transaction.UTXOs) (ins : list Input)
  : list Number.t :=
  omap (fun input => amount <$> referenced view input) ins.

(** The amounts of the outputs, in order. *)
Definition amounts (outs : list Output) : list Number.t := amount <$> outs.

(** Amounts as the design document has them: non-negative integers. *)
Definition naturals (ns : list Number.t) : Prop := Forall Number.natural ns.

(** The largest sum that double-precision arithmetic is exact up to. *)
Definition exactUpTo : Z := 2 ^ 53.

(** The public methods of a transaction, and what a call leaves of the
    transaction. *)
Inductive Call : Type :=
  | call_spendOutput (input : Input)
  | call_isValid (view : Transaction.UTXOs)
  | call_addFee (fee : Number.t)
  | call_totalOutput.

Definition perform (c : Call) (t : Transaction.t) : Transaction.t :=
  match c with
  | call_spendOutput input => snd (Transaction.spendOutput input t)
  | call_isValid view => snd (Transaction.isValid view t)
  | call_addFee fee => snd (Transaction.addFee fee t)
  | call_totalOutput => snd (Transaction.totalOutput t)
  end.

(** The view that holds the outputs of [t], all unspent, and nothing
    else. *)
Definition ownView (t : Transaction.t) : Transaction.UTXOs :=
  ({[ Transaction.id t := Some <$> Transaction.outputs t ]}
   : gmap string (list (option Output))).

End Transactions.

(** *** Wallets *)

Section Wallets.
Context `{Utils}.

(** The amount of the output a coin object holds, as a number of the
    program. *)
Definition held (w : Wallet.t) (l : Wallet.ref) : Number.t :=
  match Wallet.store w !! l with
  | Some c => match Wallet.coin_output c with Some o => amount o | None => 0 end
  | None => 0
  end.

(** The amount of the output a coin object holds. *)
Definition amountOf (w : Wallet.t) (l : Wallet.ref) : Z :=
  Number.value (held w l).

(** The accumulated amount of a list of coins. *)
Fixpoint accumulated (w : Wallet.t) (ls : list Wallet.ref) : Z :=
  match ls with
  | [] => 0
  | l :: ls' => amountOf w l + accumulated w ls'
  end.

(** What is still requested of [amount] after the coins [ls], as the loop
    of [spendUTXOs] computes it. *)
Fixpoint remaining (w : Wallet.t) (amount : Number.t) (ls : list Wallet.ref)
  : Number.t :=
  match ls with
  | [] => amount
  | l :: ls' => remaining w (Number.sub amount (held w l)) ls'
  end.

(** The coins of the queue hold non-negative integers that sum to no more
    than double-precision arithmetic is exact up to. *)
Definition safe (w : Wallet.t) : Prop :=
  naturals (held w <$> Wallet.coins w)
  /\ accumulated w (Wallet.coins w) <= exactUpTo.

(** The wallet can spend the coin [l]: the coin object still has its
    output, and the wallet has the key pair of the output's address. *)
Definition owned (w : Wallet.t) (l : Wallet.ref) : Prop :=
  exists c o kp,
    Wallet.store w !! l = Some c
    /\ Wallet.coin_output c = Some o
    /\ Wallet.lookupKey (address o) (Wallet.addresses w) = Some kp.

(** The invariant of a wallet: the queue holds distinct, allocated coin
    objects which the wallet can spend. *)
Definition consistent (w : Wallet.t) : Prop :=
  NoDup (Wallet.coins w)
  /\ Forall (fun l => (l < Wallet.fresh w)%nat /\ owned w l) (Wallet.coins w).

(** The wallets a program can build: from the constructor, by calls of
    the methods. *)
Inductive reachable : Wallet.t -> Prop :=
  | reachable_constructor : reachable Wallet.constructor
  | reachable_makeAddress w kp :
      reachable w -> reachable (snd (Wallet.makeAddress kp w))
  | reachable_addUTXO w utxo txID outputIndex :
      reachable w -> reachable (snd (Wallet.addUTXO utxo txID outputIndex w))
  | reachable_spendUTXOs w amount :
      reachable w -> reachable (snd (Wallet.spendUTXOs amount w))
  | reachable_saveElibilityProof w :
      reachable w -> reachable (snd (Wallet.saveElibilityProof w)).

(** The coin object [spendUTXOs] turns the coin [c] holding [o] into,
    signed with the key pair [kp]. *)
Definition signedCoin (c : Wallet.Coin) (o : Output) (kp : KeyPair) : Wallet.Coin :=
  {| Wallet.coin_output := None;
     Wallet.coin_txID := Wallet.coin_txID c;
     Wallet.coin_outputIndex := Wallet.coin_outputIndex c;
     Wallet.coin_pubKey := Some (public kp);
     Wallet.coin_sig := Some (sign (private kp) o) |}.

(** Every address of the wallet is the hash of the public key stored
    under it. *)
Definition keysMatch (w : Wallet.t) : Prop :=
  Forall (fun e : string * KeyPair => fst e = calcAddress (public (snd e)))
         (Wallet.addresses w).

(** The key pairs of the wallet sign what their public key verifies. *)
Definition keysSign (w : Wallet.t) : Prop :=
  forall a kp o,
    Wallet.lookupKey a (Wallet.addresses w) = Some kp ->
    verifySignature (public kp) o (sign (private kp) o) = true.

(** The view holds, at the place the coin object names, the output the
    coin object holds. *)
Definition backed (view : Transaction.UTXOs) (w : Wallet.t) (l : Wallet.ref) : Prop :=
  forall c o,
    Wallet.store w !! l = Some c -> Wallet.coin_output c = Some o ->
    referenced view {| txID := Wallet.coin_txID c;
                       outputIndex := Wallet.coin_outputIndex c;
                       pubKey := ""; sig := "" |} = Some o.

(** The inputs a transaction gets from the coin objects [ls]. *)
Definition inputsOf (w : Wallet.t) (ls : list Wallet.ref) : list Input :=
  omap (fun l => Miner.asInput <$> Wallet.store w !! l) ls.

End Wallets.

(** *** Mint eligibility *)

(** The 8-bit binary representation of a code unit, most significant
    bit first. *)
Definition bits8 (c : ascii) : string :=
  let 'Ascii b0 b1 b2 b3 b4 b5 b6 b7 := c in
  string_of_list_ascii
    (map (fun b : bool => if b then "1"%char else "0"%char)
         [b7; b6; b5; b4; b3; b2; b1; b0]).

(** "bin16(s) converts the string s to the concatenation of the 8-bit
    binary representations of its code units, truncated to the first 16
    bits". *)
Definition bin16 (s : string) : string :=
  substring 0 16 (String.concat "" (map bits8 (list_ascii_of_string s))).

(** "matchingPrefixBits counts the number of leading equal bits
    (stopping at the first mismatch)". *)
Fixpoint matchingPrefixBits (x y : string) : Z :=
  match x, y with
  | String a x', String b y' =>
      if Ascii.eqb a b then 1 + matchingPrefixBits x' y' else 0
  | _, _ => 0
  end.

(** The eligibility predicate of the design document. *)
Definition isEligibleToMint (minerEligibilityPubKey prevBlockHash : string)
    (target : Z) : bool :=
  target <=? matchingPrefixBits (bin16 prevBlockHash) (bin16 minerEligibilityPubKey).

Definition bitChar (b : bool) : ascii := if b then "1"%char else "0"%char.

(** The bits of [n] from the one of weight [2^(len-1)] down to the one
    of weight 1. *)
Definition bitsBelow (n : N) (len : nat) : list ascii :=
  map (fun i => bitChar (N.testbit n (N.of_nat i))) (rev (seq 0 len)).

(** The binary numeral of a code unit without leading zeros: the bits
    from the highest set one down. *)
Definition shortestBinary (n : N) : string :=
  string_of_list_ascii (bitsBelow n (S (N.to_nat (N.log2 n)))).

(** The concatenation of those numerals, cut after 16 characters. *)
Definition binarized (s : string) : string :=
  string_of_list_ascii
    (take 16 (concat (map (fun c => list_ascii_of_string (shortestBinary (N_of_ascii c)))
                          (list_ascii_of_string s)))).

(** "base target minus one per elapsed TIME_UNTIL_ELIGIBILITY_DECREASE
    interval", the elapsed time being [currentTime - timestamp]. *)
Definition targetAfter (currentTime blockTimestamp : Z) : Z :=
  Miner.MINT_ELEGIBILITY_DIFFICULTY
  - (currentTime - blockTimestamp) / Miner.TIME_UNTIL_ELIGIBILITY_DECREASE.

(** The target [isValidBlock] computes: one second is added to the
    elapsed time. *)
Definition targetAllowed (currentTime blockTimestamp : Z) : Z :=
  Miner.MINT_ELEGIBILITY_DIFFICULTY
  - (currentTime - blockTimestamp + 1000) / Miner.TIME_UNTIL_ELIGIBILITY_DECREASE.

(** *** Miners *)

Section Miners.
Context `{Utils} `{Block.Ops} `{Miner.Env}.

(** The miner after the delivery of PROOF_FOUND messages, one after the
    other, whatever each call of the handler completes with. *)
Fixpoint deliver (msgs : list (string * option Miner.Sender)) (st : Miner.Sys)
  : Miner.Sys :=
  match msgs with
  | [] => st
  | (s, miner) :: msgs' => deliver msgs' (snd (Miner.receiveBlock s miner st))
  end.

Definition currentChainLength (st : Miner.Sys) : Z :=
  Block.chainLength (Miner.currentBlock (Miner.this st)).

(** "Store in previousBlocks if unknown." *)
Definition storeIfUnknown (b : Block.t) : M Miner.Sys unit :=
  st <- get ;;
  if bool_decide (is_Some (Miner.previousBlocks (Miner.this st) !! Block.hashVal b))
  then ret tt
  else Miner.update (fun m => Miner.set_previousBlocks
                                (<[Block.hashVal b := b]> (Miner.previousBlocks m)) m).

(** "cut over: set currentBlock = b, shouldStartNewBlock = true, call
    startNewSearch(reuseRewardAddress=true)". *)
Definition cutOver (b : Block.t) : M Miner.Sys unit :=
  Miner.update (Miner.set_currentBlock b) ;;
  Miner.update (Miner.set_shouldStartNewBlock true) ;;
  Miner.startNewSearch true.

(** A computation leaves the block the miner works on in place. *)
Definition keepsBlock {A} (m : M Miner.Sys A) : Prop :=
  forall s, Miner.currentBlock (Miner.this (snd (m s)))
            = Miner.currentBlock (Miner.this s).

(** The condition of the cut-over in [receiveBlock]. *)
Definition betterChain (b : Block.t) (miner : option Miner.Sender) (st : Miner.Sys)
  : Prop :=
  currentChainLength st <= Block.chainLength b /\ miner <> Some Miner.Self.

(** What a miner knows of the chain: the block it works on, the blocks
    it has stored, and its reward address. *)
Definition chainOf (m : Miner.t)
  : Block.t * gmap string Block.t * string :=
  (Miner.currentBlock m, Miner.previousBlocks m, Miner.rewardAddress m).

(** From one state of a miner to a later one, the chain is in place and
    the wallet has kept its addresses. *)
Definition settled (s s' : Miner.Sys) : Prop :=
  chainOf (Miner.this s') = chainOf (Miner.this s)
  /\ forall a, Wallet.hasKey a (Miner.wallet (Miner.this s)) = true ->
               Wallet.hasKey a (Miner.wallet (Miner.this s')) = true.

(** A computation that only does that. *)
Definition keepsChain {A} (m : M Miner.Sys A) : Prop :=
  forall s, settled s (snd (m s)).

(** The miner after [n] runs of [startNewSearch(reuseRewardAddress)], the
    first call and the retries that [setTimeout] brings. *)
Fixpoint attempts (n : nat) (reuseRewardAddress : bool) (st : Miner.Sys)
  : Miner.Sys :=
  match n with
  | O => st
  | S n' => attempts n' reuseRewardAddress
              (snd (Miner.startNewSearch reuseRewardAddress st))
  end.

(** The key [saveElibilityProof] records for a wallet. *)
Definition eligibilityKey (w : Wallet.t) : string :=
  default ""%string (public <$> (snd <$> last (Wallet.addresses w))).

(** The block a miner works on, with [q] for its proof. *)
Definition candidate (q : Z) (x : Mining.t) : Block.t :=
  Block.set_proof q (Miner.currentBlock (Miner.this (Mining.sys x))).

(** The miner once its search has reached the proof [q]. *)
Definition atProof (q : Z) (x : Mining.t) : Mining.t :=
  {| Mining.sys := Miner.set_this
                     (Miner.set_currentBlock (candidate q x)
                        (Miner.this (Mining.sys x)))
                     (Mining.sys x);
     Mining.announced := Mining.announced x;
     Mining.startMining := Mining.startMining x |}.

(** The proof a search starts from. *)
Definition firstProof (x : Mining.t) : Z :=
  Block.proof (Miner.currentBlock (Miner.this (Mining.sys x))).

(** No proof from the first one up to [q], excluded, seals the block. *)
Definition noProofBefore (q : Z) (x : Mining.t) : Prop :=
  forall i, firstProof x <= i < q -> Block.verifyProof (candidate i x) = false.

End Miners.
End Spec.

(** ** A concrete instance, for the scenarios *)

Module Scenario.

Local Open Scope string_scope.

(** Key pairs are named: the keys of [n] are ["---pub:" ++ n] and
    ["priv:" ++ n]. *)
Definition keysOf (n : string) : KeyPair :=
  {| public := "---pub:" ++ n; private := "priv:" ++ n |}.

Definition ownerOf (key : string) : string :=
  match String.index 0 ":" key with
  | Some i => substring (S i) (String.length key) key
  | None => key
  end.

(** The 16 low bits of a number, least significant first. *)
Definition digits (z : Z) : string :=
  String.concat "" (map (fun b : bool => if b then "1" else "0")
                        (Z.testbit z <$> (Z.of_nat <$> seq 0 16))).

Definition showOutput (o : Output) : string :=
  "{" ++ digits (Number.value (amount o)) ++ "," ++ address o ++ "}".

Definition showInput (i : Input) : string :=
  "{" ++ txID i ++ "," ++ digits (outputIndex i) ++ "," ++ pubKey i ++ "," ++ sig i ++ "}".

#[export] Instance utils : Utils :=
  {| hash := fun s => "#" ++ s;
     calcAddress := fun pub => "#" ++ pub;
     sign := fun priv o => "signed:" ++ ownerOf priv ++ showOutput o;
     verifySignature := fun pub o s =>
       String.eqb s ("signed:" ++ ownerOf pub ++ showOutput o);
     stringify := fun ins outs =>
       String.concat ";" (map showInput ins) ++ "/" ++
       String.concat ";" (map showOutput outs) |}.

Definition K1 : KeyPair := keysOf "K1".
Definition K2 : KeyPair := keysOf "K2".
Definition A : string := calcAddress (public K1).

(** The transaction of the test suite: outputs of 42 and 25 to [A]. *)
Definition tx : Transaction.t :=
  Transaction.constructor
    [{| amount := 42; address := A |}; {| amount := 25; address := A |}] [].

(** An input spending output [i] of [tx], signed with [kp]. *)
Definition spending (i : Z) (kp : KeyPair) : Input :=
  {| txID := Transaction.id tx; outputIndex := i; pubKey := public kp;
     sig := match index (Transaction.outputs tx) i with
            | Some o => sign (private kp) o
            | None => ""
            end |}.

(** The wallet of the test suite: one address, then the two outputs of
    [tx] added in order. *)
Definition wallet0 : Wallet.t := snd (Wallet.makeAddress K1 Wallet.constructor).
Definition wallet1 : Wallet.t :=
  snd (Wallet.addUTXO {| amount := 42; address := A |} (Transaction.id tx) 0 wallet0).
Definition wallet2 : Wallet.t :=
  snd (Wallet.addUTXO {| amount := 25; address := A |} (Transaction.id tx) 1 wallet1).

(** *** Amounts beyond the exact range *)

(** A transaction with one output of 2^53 to [A], and an input spending
    it, signed with [K1]. *)
Definition bigTx : Transaction.t :=
  Transaction.constructor [{| amount := 2 ^ 53; address := A |}] [].

Definition spendingBig : Input :=
  {| txID := Transaction.id bigTx; outputIndex := 0; pubKey := public K1;
     sig := sign (private K1) {| amount := 2 ^ 53; address := A |} |}.

(** A transaction that spends the 2^53 of [bigTx] and pays 2^53 + 1. *)
Definition overspending : Transaction.t :=
  Transaction.constructor
    [{| amount := 2 ^ 53; address := A |}; {| amount := 1; address := A |}]
    [spendingBig].

(** A transaction whose array of outputs holds one object, of 42 to [A],
    in its two slots. *)
Definition twin : Transaction.t :=
  Transaction.constructorOn (fun _ => {| amount := 42; address := A |})
                            [0%nat; 0%nat] [].

(** A transaction without inputs whose one output has a negative
    amount. *)
Definition debt : Transaction.t :=
  Transaction.constructor [{| amount := -5; address := A |}] [].

(** The wallet of [A] after coins of 2^54 and then of 1 were added: the
    queue holds 1, 2^54. *)
Definition hoard : Wallet.t :=
  snd (Wallet.addUTXO {| amount := 1; address := A |} "tx" 1
         (snd (Wallet.addUTXO {| amount := 2 ^ 54; address := A |} "tx" 0 wallet0))).

(** The wallet of [A] after coins of 1 and then of 2^53 were added: the
    queue holds 2^53, 1. *)
Definition stash : Wallet.t :=
  snd (Wallet.addUTXO {| amount := 2 ^ 53; address := A |} "tx" 1
         (snd (Wallet.addUTXO {| amount := 1; address := A |} "tx" 0 wallet0))).

(** The wallet of [A] after coins of 1, of 1 and then of 2^53 were added:
    the queue holds 2^53, 1, 1. *)
Definition trove : Wallet.t :=
  snd (Wallet.addUTXO {| amount := 2 ^ 53; address := A |} "tx" 2
         (snd (Wallet.addUTXO {| amount := 1; address := A |} "tx" 1
                 (snd (Wallet.addUTXO {| amount := 1; address := A |} "tx" 0
                         wallet0))))).

(** Blocks travel as their previous-block hash; a block is sealed when
    its proof is even. *)
Definition blockOf (prev : string) (len time : Z) : Block.t :=
  {| Block.prevBlockHash := prev; Block.chainLength := len;
     Block.timestamp := time; Block.rewardAddress := A;
     Block.coinbaseTX := tx; Block.transactions := [];
     Block.utxos := ∅; Block.proof := 0 |}.

#[export] Instance blockOps : Block.Ops :=
  {| Block.hashVal := fun b => "#" ++ Block.prevBlockHash b ++ digits (Block.chainLength b);
     Block.verifyProof := fun b => Z.even (Block.proof b);
     Block.deserialize := fun s => blockOf s (Z.of_nat (String.length s)) 0;
     Block.baseReward := 25 |}.

(** The clock reads 1000, 1001, ...; the key pairs drawn are named by
    their rank. *)
#[export] Instance env : Miner.Env :=
  {| Miner.Date_now := fun n => 1000 + Z.of_nat n;
     Miner.keypair := fun n => keysOf (digits (Z.of_nat n)) |}.

(** A block goes on the wire as its previous-block hash, followed by its
    proof if the proof is to be included. *)
#[export] Instance wire : Mining.Wire :=
  {| Mining.serialize := fun includeProof b =>
       Block.prevBlockHash b
       ++ (if includeProof then ":" ++ digits (Block.proof b) else "") |}.

(** A miner working on a block of chain length 1, with [wallet2]. *)
Definition miner0 : Miner.t :=
  {| Miner.name := "Minnie";
     Miner.mint_elegibility_diff_dyn := 2;
     Miner.previousBlocks := ∅;
     Miner.currentBlock := blockOf "0" 1 0;
     Miner.shouldStartNewBlock := false;
     Miner.shouldMine := false;
     Miner.rewardAddress := A;
     Miner.wallet := snd (Wallet.saveElibilityProof wallet2) |}.

Definition sys0 : Miner.Sys :=
  {| Miner.this := miner0; Miner.clockReads := 0; Miner.keysDrawn := 0;
     Miner.effects := [] |}.

(** [miner0] about to start a new block. *)
Definition starting : Miner.Sys :=
  Miner.set_this (Miner.set_shouldStartNewBlock true miner0) sys0.

(** [miner0] on a block whose previous-block hash is 3f2a. *)
Definition waiting : Miner.Sys :=
  Miner.set_this (Miner.set_currentBlock (blockOf "3f2a" 1 0) miner0) sys0.

(** A miner whose only key pair is the first one drawn. *)
Definition donald : Miner.t :=
  Miner.set_wallet
    (snd (Wallet.saveElibilityProof
            (snd (Wallet.makeAddress (Miner.keypair 0) Wallet.constructor))))
    miner0.

(** A block that no proof seals. *)
Definition unsealable : Block.Ops :=
  {| Block.hashVal := Block.hashVal;
     Block.verifyProof := fun _ => false;
     Block.deserialize := Block.deserialize;
     Block.baseReward := Block.baseReward |}.

(** [miner0] eligible and searching, its proof at 1. *)
Definition digging : Mining.t :=
  {| Mining.sys :=
       Miner.set_this
         (Miner.set_shouldMine true
            (Miner.set_currentBlock
               (Block.set_proof 1 (Miner.currentBlock miner0)) miner0))
         sys0;
     Mining.announced := [];
     Mining.startMining := 0 |}.

(** Another miner, whose eligibility key is that of [K2]. *)
Definition mickey : Miner.t :=
  {| Miner.name := "Mickey";
     Miner.mint_elegibility_diff_dyn := 2;
     Miner.previousBlocks := ∅;
     Miner.currentBlock := blockOf "0" 1 0;
     Miner.shouldStartNewBlock := false;
     Miner.shouldMine := false;
     Miner.rewardAddress := A;
     Miner.wallet := snd (Wallet.saveElibilityProof
                            (snd (Wallet.makeAddress K2 Wallet.constructor))) |}.

End Scenario.

(** * Proofs *)

(** Unfolding the monad at a state. *)
Ltac run :=
  unfold bind, get, put, modify, ret, throw, defined, zoom in *; simpl in *.

Lemma elem_of_take_elem {A} (x : A) (n : nat) (l : list A) :
  x ∈ take n l -> x ∈ l.
Proof. intros Hx. rewrite <- (take_drop n l). apply elem_of_app. by left. Qed.

Lemma elem_of_drop_elem {A} (x : A) (n : nat) (l : list A) :
  x ∈ drop n l -> x ∈ l.
Proof. intros Hx. rewrite <- (take_drop n l). apply elem_of_app. by right. Qed.

Module NumberFacts.

Lemma pow53_lt : 2 ^ 53 < 2 ^ 1024.
Proof. apply Z.pow_lt_mono_r; lia. Qed.

Lemma round_small (z : Z) : Z.abs z <= 2 ^ 53 -> Number.round z = z.
Proof.
  intros Hz. unfold Number.round. cbn zeta.
  by destruct (Z.leb_spec (Z.abs z) (2 ^ 53)); [| lia].
Qed.

Lemma finite_small (z : Z) : Z.abs z <= 2 ^ 53 -> Number.finite z = Number.Int z.
Proof.
  intros Hz. pose proof pow53_lt as Hlt. unfold Number.finite.
  destruct (Z.leb_spec (2 ^ 1024) z); [lia |].
  by destruct (Z.leb_spec z (- 2 ^ 1024)); [lia |].
Qed.

Lemma add_exact (a b : Z) :
  Z.abs (a + b) <= Spec.exactUpTo ->
  Number.add (Number.Int a) (Number.Int b) = Number.Int (a + b).
Proof.
  unfold Spec.exactUpTo. intros Hz. cbn [Number.add].
  by rewrite round_small, finite_small.
Qed.

Lemma sub_exact (a b : Z) :
  Z.abs (a - b) <= Spec.exactUpTo ->
  Number.sub (Number.Int a) (Number.Int b) = Number.Int (a - b).
Proof.
  intros Hz. unfold Number.sub. cbn [Number.opp].
  rewrite add_exact; [f_equal; lia |].
  by replace (a + - b) with (a - b) by lia.
Qed.

Lemma total_nonneg (ns : list Number.t) : Spec.naturals ns -> 0 <= Number.total ns.
Proof.
  induction 1 as [|a ns Ha _ IH]; cbn [Number.total]; [lia |].
  destruct a; cbn in *; lia.
Qed.

Lemma total_app (ns ms : list Number.t) :
  Number.total (ns ++ ms) = Number.total ns + Number.total ms.
Proof. induction ns as [|a ns IH]; cbn [app Number.total]; lia. Qed.

(** A sum of non-negative integers that stays in the exact range is the
    sum of the integers. *)
Lemma fold_add_exact (ns : list Number.t) : forall a : Z,
  Spec.naturals ns -> 0 <= a -> a + Number.total ns <= Spec.exactUpTo ->
  fold_left Number.add ns (Number.Int a) = Number.Int (a + Number.total ns).
Proof.
  induction ns as [|n ns IH]; intros a Hns Ha Hsum; cbn [fold_left Number.total] in *.
  - f_equal. lia.
  - apply Forall_cons in Hns as [Hn Hns].
    pose proof (total_nonneg ns Hns) as Hpos.
    destruct n as [x| | |]; cbn in Hn; try done. cbn [Number.value] in *.
    rewrite add_exact by lia. rewrite IH; [f_equal; lia | done | lia | lia].
Qed.

Lemma sum_exact (ns : list Number.t) :
  Spec.naturals ns -> Number.total ns <= Spec.exactUpTo ->
  Number.sum ns = Number.Int (Number.total ns).
Proof. intros Hns Hsum. unfold Number.sum. by rewrite fold_add_exact. Qed.

Lemma round_pos (z : Z) : 0 < z -> 0 < Number.round z.
Proof.
  intros Hz. unfold Number.round. cbn zeta.
  destruct (Z.leb_spec (Z.abs z) (2 ^ 53)) as [|Hbig]; [done |].
  rewrite Z.abs_eq in * by lia. rewrite Z.sgn_pos by done.
  set (e := Z.log2 z - 52).
  assert (He : 0 < e).
  { assert (53 <= Z.log2 z); [| lia].
    apply Z.log2_le_pow2; lia. }
  assert (Hpow : 0 < 2 ^ e) by (apply Z.pow_pos_nonneg; lia).
  assert (Hq : 1 <= z / 2 ^ e).
  { apply Z.div_le_lower_bound; [done |].
    destruct (Z.log2_spec z Hz) as [Hlow _].
    etransitivity; [| exact Hlow]. rewrite Z.mul_1_r.
    apply Z.pow_le_mono_r; lia. }
  destruct (_ || _); nia.
Qed.

Lemma finite_pos (z : Z) :
  0 < z -> Number.nonnegative (Number.finite z)
           /\ Number.ltb (Number.Int 0) (Number.finite z) = true.
Proof.
  intros Hz. unfold Number.finite.
  destruct (Z.leb_spec (2 ^ 1024) z); [done |].
  destruct (Z.leb_spec z (- 2 ^ 1024)) as [Hneg|].
  { assert (0 < 2 ^ 1024) by (apply Z.pow_pos_nonneg; lia). lia. }
  cbn. split; [lia | by apply Z.ltb_lt].
Qed.

(** Adding a non-negative integer to a number that is not below 0 gives
    a number that is not below 0, and one above 0 exactly when one of
    the two is. *)
Lemma add_nonnegative (a b : Number.t) :
  Number.nonnegative a -> Number.natural b ->
  Number.nonnegative (Number.add a b)
  /\ Number.ltb (Number.Int 0) (Number.add a b)
     = Number.ltb (Number.Int 0) a || Number.ltb (Number.Int 0) b.
Proof.
  destruct a as [x| | |], b as [y| | |]; cbn [Number.nonnegative Number.natural];
    try done.
  intros Hx Hy. cbn [Number.add].
  change (Number.ltb (Number.Int 0) (Number.Int x)) with (0 <? x).
  change (Number.ltb (Number.Int 0) (Number.Int y)) with (0 <? y).
  destruct (Z.eq_dec (x + y) 0) as [Hzero|Hpos].
  - rewrite Hzero. cbn. split; [done |].
    assert (x = 0) as -> by lia. by assert (y = 0) as -> by lia.
  - destruct (finite_pos (Number.round (x + y))) as [Hnn ->].
    { apply round_pos. lia. }
    split; [done |]. symmetry. apply orb_true_iff.
    destruct (Z.ltb_spec 0 x); [by left |]. right. apply Z.ltb_lt. lia.
Qed.

Lemma fold_add_nonnegative (ns : list Number.t) : forall a,
  Number.nonnegative a -> Spec.naturals ns ->
  Number.nonnegative (fold_left Number.add ns a)
  /\ Number.ltb (Number.Int 0) (fold_left Number.add ns a)
     = Number.ltb (Number.Int 0) a || negb (Number.total ns =? 0).
Proof.
  induction ns as [|n ns IH]; intros a Ha Hns; cbn [fold_left Number.total].
  - by rewrite orb_false_r.
  - apply Forall_cons in Hns as [Hn Hns].
    destruct (add_nonnegative a n Ha Hn) as [Hnn Hpos].
    destruct (IH _ Hnn Hns) as [Hnn' ->]. split; [done |].
    rewrite Hpos, <- orb_assoc. f_equal.
    pose proof (total_nonneg ns Hns) as Htot.
    destruct n as [x| | |]; cbn in Hn; try done. cbn [Number.ltb Number.value].
    destruct (Z.ltb_spec 0 x), (Z.eqb_spec (Number.total ns) 0),
      (Z.eqb_spec (x + Number.total ns) 0); cbn; first [done | lia].
Qed.

(** A sum of non-negative integers is above 0 exactly when one of them
    is, however large they are. *)
Lemma sum_positive (ns : list Number.t) :
  Spec.naturals ns ->
  Number.nonnegative (Number.sum ns)
  /\ Number.ltb (Number.Int 0) (Number.sum ns) = negb (Number.total ns =? 0).
Proof.
  intros Hns. destruct (fold_add_nonnegative ns (Number.Int 0)) as [Hnn Hpos];
    [cbn; lia | done |].
  split; [done |]. unfold Number.sum. by rewrite Hpos.
Qed.

End NumberFacts.

Lemma fold_amounts (os : list Output) (acc : Number.t) :
  fold_left (fun a o => Number.add a (amount o)) os acc
  = fold_left Number.add (Spec.amounts os) acc.
Proof.
  revert acc. induction os as [|o os IH]; intros acc; [done |].
  cbn [fold_left Spec.amounts fmap list_fmap]. apply IH.
Qed.

Lemma outputSum_total (os : list Output) :
  Spec.outputSum os = Number.total (Spec.amounts os).
Proof.
  induction os as [|o os IH]; [done |].
  cbn [Spec.outputSum Spec.amounts fmap list_fmap Number.total]. unfold Spec.amounts in IH.
  by rewrite IH.
Qed.

Lemma outputSum_nonneg (os : list Output) :
  Spec.naturals (Spec.amounts os) -> 0 <= Spec.outputSum os.
Proof. rewrite outputSum_total. apply NumberFacts.total_nonneg. Qed.

Module TransactionFacts.
Section TransactionFacts.
Context `{Utils}.
Import Transaction.

Lemma outputs_constructor outs ins : outputs (constructor outs ins) = outs.
Proof.
  unfold outputs, constructor. cbn [objects slots].
  apply list_eq. intros i. rewrite list_lookup_fmap.
  destruct (outs !! i) as [o|] eqn:Ho.
  - rewrite lookup_seq_lt by (by eapply lookup_lt_Some).
    simpl. by rewrite Ho.
  - rewrite lookup_seq_ge; [done |]. by apply lookup_ge_None.
Qed.

Lemma inputSum_total view ins :
  Spec.inputSum view ins = Number.total (Spec.referencedAmounts view ins).
Proof.
  induction ins as [|input ins IH]; [done |].
  cbn [Spec.inputSum Spec.referencedAmounts omap list_omap].
  unfold Spec.referencedAmounts in IH. rewrite IH.
  by destruct (Spec.referenced view input).
Qed.

Lemma authorizedb_spec view input :
  Spec.authorizedb view input = true <-> Spec.authorized view input.
Proof.
  unfold Spec.authorizedb, Spec.authorized.
  destruct (Spec.referenced view input) as [prevOut|]; split.
  - intros [Ha Hv]%andb_true_iff. apply String.eqb_eq in Ha. eauto.
  - intros (p & [= <-] & Ha & Hv). apply andb_true_iff.
    split; [by apply String.eqb_eq | done].
  - discriminate.
  - intros (p & ? & _). discriminate.
Qed.

Lemma forallb_authorizedb view ins :
  forallb (Spec.authorizedb view) ins = true <-> Forall (Spec.authorized view) ins.
Proof.
  rewrite forallb_forall, Forall_forall.
  split; intros Hf x Hx.
  - apply authorizedb_spec, Hf. by apply list_elem_of_In.
  - apply authorizedb_spec, Hf. by apply list_elem_of_In.
Qed.

Lemma checkInput_step view inSum valid input t :
  checkInput view (inSum, valid) input t =
    (Return (if Spec.authorizedb view input
             then (fold_left Number.add (Spec.referencedAmounts view [input]) inSum,
                   valid)
             else (inSum, false)), t).
Proof.
  unfold checkInput, Spec.authorizedb, Spec.referencedAmounts, Spec.referenced.
  cbn [omap list_omap].
  destruct (view !! txID input) as [slots|]; [|done].
  destruct (mjoin (index slots (outputIndex input))) as [prevOut|]; [|done].
  by destruct (_ && _).
Qed.

(** The loop over the inputs never throws; [valid] ends as the
    conjunction of the checks, and when it is still set [inSum] has
    grown by the referenced amounts, added one after the other. *)
Lemma forEach_inputs view ins : forall inSum valid t,
  exists inSum',
    forM (checkInput view) ins (inSum, valid) t =
      (Return (inSum', valid && forallb (Spec.authorizedb view) ins), t)
    /\ (forallb (Spec.authorizedb view) ins = true ->
        inSum' = fold_left Number.add (Spec.referencedAmounts view ins) inSum).
Proof.
  induction ins as [|input ins IH]; intros inSum valid t.
  - exists inSum. cbn [forM forallb]. unfold ret.
    by rewrite andb_true_r.
  - cbn [forM forallb]. unfold bind at 1. rewrite checkInput_step.
    destruct (Spec.authorizedb view input) eqn:Hin.
    + destruct (IH (fold_left Number.add (Spec.referencedAmounts view [input]) inSum)
                   valid t) as (s & -> & Hs).
      exists s. split; [done |].
      intros Hall. rewrite (Hs Hall).
      unfold Spec.referencedAmounts. cbn [omap list_omap].
      by destruct (amount <$> Spec.referenced view input).
    + destruct (IH inSum false t) as (s & -> & _).
      exists s. rewrite andb_false_r. split; [done | discriminate].
Qed.

Lemma isValid_run view t :
  isValid view t =
    (Return (forallb (Spec.authorizedb view) (inputs t)
             && negb (Number.ltb (Number.sum (Spec.referencedAmounts view (inputs t)))
                                 (Number.sum (Spec.amounts (outputs t))))), t).
Proof.
  unfold isValid. unfold bind at 1, get at 1. unfold bind at 1.
  destruct (forEach_inputs view (inputs t) (Number.Int 0) true t) as (s & -> & Hs).
  rewrite andb_true_l, fold_amounts.
  destruct (forallb _ _) eqn:Hall; cbn [negb andb]; [|done].
  rewrite (Hs eq_refl). fold (Number.sum (Spec.referencedAmounts view (inputs t))).
  fold (Number.sum (Spec.amounts (outputs t))).
  by destruct (Number.ltb _ _).
Qed.

(** In the exact range the comparison of [isValid] is the comparison of
    the sums. *)
Lemma ltb_sums ins outs :
  Spec.naturals ins -> Spec.naturals outs ->
  Number.total ins <= Spec.exactUpTo -> Number.total outs <= Spec.exactUpTo ->
  Number.ltb (Number.sum ins) (Number.sum outs)
  = (Number.total ins <? Number.total outs).
Proof.
  intros Hins Houts Hi Ho.
  by rewrite (NumberFacts.sum_exact ins), (NumberFacts.sum_exact outs).
Qed.

(** C3, as amended.  When the transaction ids differ [spendOutput] throws
    WrongTxID.  When they agree and [outputs[outputIndex]] exists, it
    throws AddressMismatch if the hash of the public key is not the
    output's address, else BadSignature if the signature does not verify
    against the output, else it returns the output's amount.  When they
    agree and the slot does not exist, reading the output throws a
    TypeError.  The transaction is the same afterwards in every case. *)
Theorem spendOutput_outcomes (t : Transaction.t) (input : Input) :
  (txID input <> id t -> spendOutput input t = (Throw WrongTxID, t))
  /\ (txID input = id t ->
      (index (outputs t) (outputIndex input) = None ->
       spendOutput input t = (Throw TypeError, t))
      /\ forall output, index (outputs t) (outputIndex input) = Some output ->
         (calcAddress (pubKey input) <> address output ->
          spendOutput input t = (Throw AddressMismatch, t))
         /\ (calcAddress (pubKey input) = address output ->
             verifySignature (pubKey input) output (sig input) = false ->
             spendOutput input t = (Throw BadSignature, t))
         /\ (calcAddress (pubKey input) = address output ->
             verifySignature (pubKey input) output (sig input) = true ->
             spendOutput input t = (Return (amount output), t))).
Proof.
  unfold spendOutput. run. split.
  - intros Hne. apply String.eqb_neq in Hne. by rewrite Hne.
  - intros Heq. apply String.eqb_eq in Heq. rewrite Heq. cbn [negb].
    split.
    + intros ->. by run.
    + intros output ->. run. repeat split.
      * intros Hne. apply String.eqb_neq in Hne. by rewrite Hne.
      * intros Ha Hv. rewrite Ha, String.eqb_refl, Hv. done.
      * intros Ha Hv. rewrite Ha, String.eqb_refl, Hv. done.
Qed.

(** C4, as amended.  [isValid] always returns a boolean and leaves the
    transaction as it was.  The boolean is [false] as soon as one input
    is not authorized by the view (missing transaction, missing or
    cleared slot, address that is not the hash of the public key,
    signature that does not verify); when every input is authorized it
    is [true] exactly when the sum of the referenced amounts is not less
    than the sum of the output amounts, both as the program adds them,
    from 0 and in order, in double precision.  When all these amounts are
    non-negative integers and neither sum exceeds 2^53, that is exactly
    when the sum of the referenced amounts is at least the sum of the
    output amounts. *)
Theorem isValid_decides (view : UTXOs) (t : Transaction.t) :
  exists b : bool,
    isValid view t = (Return b, t)
    /\ (Exists (fun input => ~ Spec.authorized view input) (inputs t) -> b = false)
    /\ (Forall (Spec.authorized view) (inputs t) ->
        (b = true <->
         Number.ltb (Number.sum (Spec.referencedAmounts view (inputs t)))
                    (Number.sum (Spec.amounts (outputs t))) = false))
    /\ (b = true -> Forall (Spec.authorized view) (inputs t))
    /\ (Spec.naturals (Spec.referencedAmounts view (inputs t)) ->
        Spec.naturals (Spec.amounts (outputs t)) ->
        Spec.inputSum view (inputs t) <= Spec.exactUpTo ->
        Spec.outputSum (outputs t) <= Spec.exactUpTo ->
        (Forall (Spec.authorized view) (inputs t) ->
         (b = true <-> Spec.outputSum (outputs t) <= Spec.inputSum view (inputs t)))
        /\ (b = true ->
            Forall (Spec.authorized view) (inputs t)
            /\ Spec.outputSum (outputs t) <= Spec.inputSum view (inputs t))).
Proof.
  eexists. split; [apply isValid_run |].
  pose proof (forallb_authorizedb view (inputs t)) as Hall.
  split_and!.
  - intros Hex. apply andb_false_iff. left.
    apply not_true_is_false. intros Hf. apply Hall in Hf.
    apply Exists_exists in Hex as (x & Hx & Hn).
    rewrite Forall_forall in Hf. auto.
  - intros Hf. apply Hall in Hf. rewrite Hf, andb_true_l.
    by destruct (Number.ltb _ _).
  - intros [Hf _]%andb_true_iff. by apply Hall.
  - intros Hins Houts Hi Ho.
    rewrite inputSum_total in *. rewrite outputSum_total in *.
    rewrite (ltb_sums _ _ Hins Houts Hi Ho).
    split.
    + intros Hf. apply Hall in Hf. rewrite Hf, andb_true_l.
      destruct (Z.ltb_spec (Number.total (Spec.referencedAmounts view (inputs t)))
                           (Number.total (Spec.amounts (outputs t))));
        cbn [negb]; split; first [done | lia].
    + intros [Hf Hle]%andb_true_iff. split; [by apply Hall |].
      apply negb_true_iff, Z.ltb_ge in Hle. lia.
Qed.

Lemma addFee_run fee t :
  addFee fee t =
    match slots t !! 0%nat with
    | None => (Throw TypeError, t)
    | Some r =>
        (Return tt,
         {| inputs := inputs t;
            slots := slots t;
            objects := fun r' =>
              if Nat.eqb r' r
              then {| amount := Number.add (amount (objects t r)) fee;
                      address := address (objects t r) |}
              else objects t r';
            id := id t |})
    end.
Proof. unfold addFee. unfold bind, get. by destruct (slots t !! 0%nat). Qed.

Lemma perform_id c t : id (Spec.perform c t) = id t.
Proof.
  destruct c as [input|view|fee|]; cbn [Spec.perform].
  - unfold spendOutput. run.
    destruct (negb _); [done |].
    destruct (index _ _); run; [|done].
    by repeat destruct (negb _).
  - by rewrite isValid_run.
  - rewrite addFee_run. by destruct (slots t !! 0%nat).
  - done.
Qed.

(** C5, as amended.  The constructor sets [id] to the hash of the
    serialized inputs and outputs, and no call of a method changes it
    afterwards, whatever the sequence of calls.  [addFee(k)] in
    particular leaves [id], [inputs] and the array of outputs alone and
    writes to one object, the one in slot 0: its amount becomes the
    double-precision sum of the amount and [k], which is their sum when
    both are integers whose sum is at most 2^53 in magnitude, and its
    address stays.  Every slot that holds this object shows the new
    amount; every slot that holds another object, which is every other
    slot when the outputs are distinct objects, is as before.  On a
    transaction without outputs [addFee] throws and changes nothing. *)
Theorem id_stable (outs : list Output) (ins : list Input)
    (calls : list Spec.Call) (t : Transaction.t) (k : Number.t) :
  id (constructor outs ins) = hash (stringify ins outs)
  /\ id (fold_left (fun t c => Spec.perform c t) calls (constructor outs ins))
     = hash (stringify ins outs)
  /\ id (fold_left (fun t c => Spec.perform c t) calls t) = id t
  /\ id (snd (addFee k t)) = id t
  /\ inputs (snd (addFee k t)) = inputs t
  /\ slots (snd (addFee k t)) = slots t
  /\ match slots t !! 0%nat with
     | Some r =>
         let o := objects t r in
         let o' := {| amount := Number.add (amount o) k; address := address o |} in
         fst (addFee k t) = Return tt
         /\ objects (snd (addFee k t)) r = o'
         /\ (forall r', r' <> r -> objects (snd (addFee k t)) r' = objects t r')
         /\ (forall j : nat, slots t !! j = Some r ->
             outputs (snd (addFee k t)) !! j = Some o')
         /\ (forall j : nat, slots t !! j <> Some r ->
             outputs (snd (addFee k t)) !! j = outputs t !! j)
         /\ (forall a b : Z, amount o = a -> k = b ->
             Z.abs (a + b) <= Spec.exactUpTo ->
             amount o' = Number.Int (a + b))
     | None => addFee k t = (Throw TypeError, t)
     end
  /\ (forall j : nat, j <> 0%nat ->
      outputs (snd (addFee k (constructor outs ins))) !! j = outs !! j).
Proof.
  assert (Hother : forall t0 r j, slots t0 !! 0%nat = Some r ->
            slots t0 !! j <> Some r ->
            outputs (snd (addFee k t0)) !! j = outputs t0 !! j).
  { intros t0 r j Hr Hj. rewrite addFee_run, Hr. unfold outputs.
    cbn [snd slots objects]. rewrite !list_lookup_fmap.
    destruct (slots t0 !! j) as [r'|]; [| done]. cbn.
    destruct (Nat.eqb_spec r' r) as [->|]; [by destruct Hj | done]. }
  assert (Hid : forall t0,
            id (fold_left (fun t c => Spec.perform c t) calls t0) = id t0).
  { induction calls as [|c calls IH]; intros t0; [done |].
    cbn [fold_left]. by rewrite IH, perform_id. }
  split; [done |]. split; [by rewrite Hid |]. split; [apply Hid |].
  split_and!.
  - rewrite addFee_run. by destruct (slots t !! 0%nat).
  - rewrite addFee_run. by destruct (slots t !! 0%nat).
  - rewrite addFee_run. by destruct (slots t !! 0%nat).
  - destruct (slots t !! 0%nat) as [r|] eqn:Hr; [| by rewrite addFee_run, Hr].
    cbn zeta. split_and!.
    + by rewrite addFee_run, Hr.
    + rewrite addFee_run, Hr. cbn [snd objects]. by rewrite Nat.eqb_refl.
    + intros r' Hne. rewrite addFee_run, Hr. cbn [snd objects].
      by destruct (Nat.eqb_spec r' r).
    + intros j Hj. rewrite addFee_run, Hr. unfold outputs.
      cbn [snd slots objects]. rewrite list_lookup_fmap, Hj. cbn.
      by rewrite Nat.eqb_refl.
    + intros j Hj. by apply (Hother t r).
    + intros a b -> -> Hab. cbn [amount]. by apply NumberFacts.add_exact.
  - intros j Hj. rewrite <- (outputs_constructor outs ins) at 2.
    destruct outs as [|o outs].
    { by rewrite addFee_run. }
    apply (Hother _ 0%nat); [done |].
    cbn [constructor slots length]. intros Hc.
    apply lookup_seq in Hc as [Hc _]. lia.
Qed.

(** C10, as amended.  On a transaction without inputs [isValid]
    returns, and returns [true] exactly when the sum of the output
    amounts, as the program adds them, is not above 0.  When the output
    amounts are non-negative integers, however large, that is exactly
    when they sum to 0. *)
Theorem isValid_coinbase (view : UTXOs) (t : Transaction.t) :
  inputs t = [] ->
  isValid view t
  = (Return (negb (Number.ltb 0 (Number.sum (Spec.amounts (outputs t))))), t)
  /\ (Spec.naturals (Spec.amounts (outputs t)) ->
      isValid view t = (Return (Spec.outputSum (outputs t) =? 0), t)).
Proof.
  intros Hin. rewrite isValid_run, Hin. cbn [forallb andb].
  split; [done |].
  intros Hnat. destruct (NumberFacts.sum_positive _ Hnat) as [_ Hpos].
  change (Number.sum (Spec.referencedAmounts view [])) with (Number.Int 0).
  by rewrite Hpos, negb_involutive, outputSum_total.
Qed.

End TransactionFacts.

Import Scenario Transaction.

(** C3: in [tx], which has two outputs, an input with the id of [tx]
    that names output 2 makes [spendOutput] end with a TypeError: none
    of WrongTxID, AddressMismatch and BadSignature, and no amount. *)
Lemma spendOutput_missing_output :
  txID (spending 2 K1) = id tx
  /\ index (outputs tx) (outputIndex (spending 2 K1)) = None
  /\ spendOutput (spending 2 K1) tx = (Throw TypeError, tx)
  /\ ~ (fst (spendOutput (spending 2 K1) tx) = Throw WrongTxID
        \/ fst (spendOutput (spending 2 K1) tx) = Throw AddressMismatch
        \/ fst (spendOutput (spending 2 K1) tx) = Throw BadSignature
        \/ exists amount, fst (spendOutput (spending 2 K1) tx) = Return amount).
Proof.
  assert (Hrun : spendOutput (spending 2 K1) tx = (Throw TypeError, tx))
    by (vm_compute; reflexivity).
  split; [vm_compute; reflexivity |].
  split; [vm_compute; reflexivity |].
  split; [exact Hrun |].
  rewrite Hrun. cbn [fst].
  intros [Hc | [Hc | [Hc | [a Hc]]]]; discriminate Hc.
Qed.

(** Scenario 1 of the design document: spending output 0 of [tx] with
    the key of its address returns 42. *)
Lemma spendOutput_outcomes_witness :
  spendOutput (spending 0 K1) tx = (Return (Number.Int 42), tx).
Proof.
  destruct (spendOutput_outcomes tx (spending 0 K1)) as [_ Hsame].
  destruct (Hsame eq_refl) as [_ Hslot].
  destruct (Hslot {| amount := 42; address := A |} eq_refl) as (_ & _ & Hok).
  apply Hok; reflexivity.
Defined.

(** C4: the input of [overspending] is authorized and references 2^53,
    and its outputs are 2^53 and 1.  The program adds 1 to 2^53 and gets
    2^53, so that [isValid] returns [true] although the referenced
    amount is less than the sum of the output amounts. *)
Lemma isValid_rounds :
  Forall (Spec.authorized (Spec.ownView bigTx)) (inputs overspending)
  /\ Spec.inputSum (Spec.ownView bigTx) (inputs overspending) = 2 ^ 53
  /\ Spec.outputSum (outputs overspending) = 2 ^ 53 + 1
  /\ isValid (Spec.ownView bigTx) overspending = (Return true, overspending)
  /\ ~ Spec.outputSum (outputs overspending)
       <= Spec.inputSum (Spec.ownView bigTx) (inputs overspending).
Proof.
  assert (Hin : Spec.inputSum (Spec.ownView bigTx) (inputs overspending) = 2 ^ 53)
    by (vm_compute; reflexivity).
  assert (Hout : Spec.outputSum (outputs overspending) = 2 ^ 53 + 1)
    by (vm_compute; reflexivity).
  split_and!; [| exact Hin | exact Hout | vm_compute; reflexivity | rewrite Hin, Hout; lia].
  apply TransactionFacts.forallb_authorizedb. vm_compute; reflexivity.
Qed.

(** C5: [addFee(1)] on [twin], whose two slots hold one object, changes
    output 1 from 42 to 43 as well; and on [bigTx], whose output is of
    2^53, it leaves the amount at 2^53. *)
Lemma addFee_shared_and_rounded :
  outputs twin !! 1%nat = Some {| amount := 42; address := A |}
  /\ outputs (snd (addFee 1 twin)) !! 1%nat = Some {| amount := 43; address := A |}
  /\ outputs bigTx !! 0%nat = Some {| amount := 2 ^ 53; address := A |}
  /\ outputs (snd (addFee 1 bigTx)) !! 0%nat
     = Some {| amount := 2 ^ 53; address := A |}.
Proof. split_and!; vm_compute; reflexivity. Qed.

(** A coinbase transaction with a reward of 25 is reported invalid. *)
Lemma isValid_coinbase_witness :
  isValid ∅ (constructor [{| amount := 25; address := A |}] [])
  = (Return false, constructor [{| amount := 25; address := A |}] []).
Proof.
  destruct (isValid_coinbase ∅ (constructor [{| amount := 25; address := A |}] []))
    as [_ Hnat]; [reflexivity |].
  rewrite Hnat; [reflexivity |].
  repeat constructor; cbn; lia.
Defined.

(** C10: [debt] has no inputs and one output of -5; [isValid] returns
    [true] although the output amounts do not sum to 0. *)
Lemma isValid_coinbase_negative :
  inputs debt = []
  /\ Spec.outputSum (outputs debt) = -5
  /\ isValid ∅ debt = (Return true, debt).
Proof. split_and!; vm_compute; reflexivity. Qed.

End TransactionFacts.

Module WalletFacts.
Section WalletFacts.
Context `{Utils}.
Import Wallet.

Lemma lookupKey_setKey a a' kp m :
  lookupKey a (setKey a' kp m) =
    if String.eqb a a' then Some kp else lookupKey a m.
Proof.
  induction m as [|[b kb] m IH]; cbn [setKey lookupKey].
  - by destruct (String.eqb a a').
  - destruct (String.eqb_spec a' b) as [->|Hne]; cbn [lookupKey].
    + by destruct (String.eqb a b).
    + rewrite IH. destruct (String.eqb_spec a b) as [->|]; [|done].
      destruct (String.eqb_spec b a'); [congruence | done].
Qed.

(** Adding an address keeps the key pairs of all the others. *)
Lemma lookupKey_setKey_is_Some a a' kp m :
  is_Some (lookupKey a m) -> is_Some (lookupKey a (setKey a' kp m)).
Proof. rewrite lookupKey_setKey. destruct (String.eqb a a'); eauto. Qed.

Lemma held_ext w w' l :
  store w' !! l = store w !! l -> Spec.held w' l = Spec.held w l.
Proof. unfold Spec.held. by intros ->. Qed.

Lemma helds_ext w w' (ls : list ref) :
  (forall l, l ∈ ls -> store w' !! l = store w !! l) ->
  Spec.held w' <$> ls = Spec.held w <$> ls.
Proof.
  induction ls as [|l ls IH]; intros Hs; [done |].
  cbn [fmap list_fmap]. f_equal.
  - apply held_ext, Hs. left.
  - apply IH. intros l' Hl'. apply Hs. by right.
Qed.

Lemma accumulated_total w ls :
  Spec.accumulated w ls = Number.total (Spec.held w <$> ls).
Proof.
  induction ls as [|l ls IH]; [done |].
  cbn [Spec.accumulated fmap list_fmap Number.total]. by rewrite IH.
Qed.

(** Two wallets whose stores agree on the coins of a list give them the
    same amounts. *)
Lemma accumulated_ext w w' ls :
  (forall l, l ∈ ls -> store w' !! l = store w !! l) ->
  Spec.accumulated w' ls = Spec.accumulated w ls.
Proof. intros Hs. by rewrite !accumulated_total, (helds_ext w w'). Qed.

Lemma remaining_ext w w' ls : forall amt,
  (forall l, l ∈ ls -> store w' !! l = store w !! l) ->
  Spec.remaining w' amt ls = Spec.remaining w amt ls.
Proof.
  induction ls as [|l ls IH]; intros amt Hs; [done |].
  cbn [Spec.remaining]. rewrite (held_ext w w' l) by (apply Hs; left).
  apply IH. intros l' Hl'. apply Hs. by right.
Qed.

Lemma accumulated_take_le w ls j :
  Spec.naturals (Spec.held w <$> ls) ->
  0 <= Spec.accumulated w (take j ls) <= Spec.accumulated w ls.
Proof.
  intros Hnat. rewrite <- (take_drop j ls) in Hnat at 1.
  rewrite fmap_app in Hnat. apply Forall_app in Hnat as [Htake Hdrop].
  rewrite <- (take_drop j ls) at 3.
  rewrite !accumulated_total, fmap_app, NumberFacts.total_app.
  apply NumberFacts.total_nonneg in Htake, Hdrop. lia.
Qed.

(** In the exact range, what is still requested after some coins is the
    request minus their amounts. *)
Lemma remaining_exact w ls : forall r : Z,
  Spec.naturals (Spec.held w <$> ls) ->
  r <= Spec.exactUpTo -> - Spec.exactUpTo <= r - Spec.accumulated w ls ->
  Spec.remaining w (Number.Int r) ls = Number.Int (r - Spec.accumulated w ls).
Proof.
  induction ls as [|l ls IH]; intros r Hnat Hhi Hlo;
    cbn [Spec.remaining Spec.accumulated fmap list_fmap] in *.
  - f_equal. lia.
  - apply Forall_cons in Hnat as [Hl Hnat].
    pose proof (NumberFacts.total_nonneg _ Hnat) as Hrest.
    rewrite <- accumulated_total in Hrest.
    unfold Spec.amountOf in *.
    destruct (Spec.held w l) as [a| | |]; cbn in Hl; try done.
    cbn [Number.value] in *.
    rewrite NumberFacts.sub_exact by lia.
    rewrite IH; [f_equal; lia | done | lia | lia].
Qed.

Lemma owned_ext w w' l :
  store w' !! l = store w !! l -> addresses w' = addresses w ->
  Spec.owned w l -> Spec.owned w' l.
Proof.
  intros Hs Ha (c & o & kp & Hc & Ho & Hk).
  exists c, o, kp. by rewrite Hs, Ha.
Qed.

(** The loop of the [balance] getter on coins the wallet owns. *)
Lemma balance_loop w ls : forall acc,
  Forall (Spec.owned w) ls ->
  forM (fun acc l =>
          c <- defined (store w !! l) ;;
          output <- defined (coin_output c) ;;
          ret (Number.add acc (amount output))) ls acc w
  = (Return (fold_left Number.add (Spec.held w <$> ls) acc), w).
Proof.
  induction ls as [|l ls IH]; intros acc Hown.
  - done.
  - apply Forall_cons in Hown as [(c & o & kp & Hc & Ho & Hk) Hown].
    specialize (IH (Number.add acc (amount o)) Hown).
    cbn [forM fmap list_fmap fold_left]. run. rewrite Hc. run. rewrite Ho. run.
    rewrite IH. unfold Spec.held. rewrite Hc. cbn. by rewrite Ho.
Qed.

Lemma balance_run w :
  Spec.consistent w ->
  balance w = (Return (Number.sum (Spec.held w <$> coins w)), w).
Proof.
  intros [_ Hown]. unfold balance. unfold bind at 1, get at 1.
  rewrite balance_loop; [done |].
  eapply Forall_impl; [exact Hown |]. by intros l [_ ?].
Qed.

Lemma spendCoin_run w l c o kp :
  store w !! l = Some c -> coin_output c = Some o ->
  lookupKey (address o) (addresses w) = Some kp ->
  spendCoin l w = (Return (amount o), write l (Spec.signedCoin c o kp) w).
Proof.
  intros Hc Ho Hk. unfold spendCoin. run.
  rewrite Hc. run. rewrite Ho. run. rewrite Hk. by run.
Qed.

(** What the [for] loop of [spendUTXOs] does on coins the wallet owns:
    it takes the first [k] of them, [k] being the first count at which
    what is still requested is not above 0 (or all of them), signs these
    in place and touches nothing else. *)
Lemma spendLoop_run cs : forall amt needed w,
  NoDup cs -> Forall (Spec.owned w) cs ->
  exists (k : nat) (w' : t),
    spendLoop cs amt needed w
    = (Return (Spec.remaining w amt (take k cs), needed ++ take k cs), w')
    /\ (k <= length cs)%nat
    /\ coins w' = coins w
    /\ addresses w' = addresses w
    /\ eligibility_address w' = eligibility_address w
    /\ fresh w' = fresh w
    /\ (forall j, (j < k)%nat ->
        Number.gtb (Spec.remaining w amt (take j cs)) 0 = true)
    /\ (k = length cs \/ Number.gtb (Spec.remaining w amt (take k cs)) 0 = false)
    /\ (forall l, l ∈ take k cs ->
        exists c o kp,
          store w !! l = Some c /\ coin_output c = Some o
          /\ lookupKey (address o) (addresses w) = Some kp
          /\ store w' !! l = Some (Spec.signedCoin c o kp))
    /\ (forall l, l ∉ take k cs -> store w' !! l = store w !! l).
Proof.
  induction cs as [|l cs IH]; intros amt needed w Hnd Hown.
  - exists 0%nat, w. cbn. unfold ret. rewrite app_nil_r.
    split_and!; try done.
    + intros j Hj. lia.
    + by left.
    + intros l Hl. by apply elem_of_nil in Hl.
  - cbn [spendLoop]. destruct (Number.gtb amt 0) eqn:Hpos.
    + apply NoDup_cons in Hnd as [Hl Hnd].
      apply Forall_cons in Hown as [(c & o & kp & Hc & Ho & Hk) Hown].
      set (w1 := write l (Spec.signedCoin c o kp) w).
      assert (Hstore : forall l', l' <> l -> store w1 !! l' = store w !! l').
      { intros l' Hne. cbn. by rewrite lookup_insert_ne. }
      assert (Hown1 : Forall (Spec.owned w1) cs).
      { apply Forall_forall. intros l' Hl'.
        rewrite Forall_forall in Hown.
        apply (owned_ext w); [apply Hstore; set_solver | done | by apply Hown]. }
      destruct (IH (Number.sub amt (amount o)) (needed ++ [l]) w1 Hnd Hown1)
        as (k & w' & Hrun & Hk' & Hcoins & Haddr & Helig & Hfresh
            & Hbelow & Hstop & Hsigned & Hrest).
      assert (Hrem : forall a j, Spec.remaining w1 a (take j cs)
                                 = Spec.remaining w a (take j cs)).
      { intros a j. apply remaining_ext. intros l' Hl'.
        apply Hstore. intros ->. apply Hl. eapply elem_of_take_elem; eauto. }
      assert (Hamt : Spec.held w l = amount o).
      { unfold Spec.held. by rewrite Hc, Ho. }
      exists (S k), w'.
      unfold bind. rewrite (spendCoin_run w l c o kp Hc Ho Hk). fold w1.
      rewrite Hrun, Hrem. cbn [take Spec.remaining length].
      rewrite Hamt, <- app_assoc. cbn [app].
      split; [done |].
      split; [lia |]. repeat (split; [done |]).
      split; [| split; [| split]].
      * intros [|j] Hj; cbn [take Spec.remaining]; [done |].
        rewrite Hamt. specialize (Hbelow j ltac:(lia)). by rewrite Hrem in Hbelow.
      * destruct Hstop as [Hall | Hreached]; [left; by rewrite Hall | right].
        by rewrite Hrem in Hreached.
      * intros l' [-> | Hl']%elem_of_cons.
        -- exists c, o, kp. repeat (split; [done |]).
           rewrite Hrest; [cbn; by rewrite lookup_insert_eq |].
           intros Hin. apply Hl. eapply elem_of_take_elem; eauto.
        -- destruct (Hsigned l' Hl') as (c' & o' & kp' & Hc' & Ho' & Hk'' & Hs').
           exists c', o', kp'. rewrite <- Hstore; [done |].
           intros ->. apply Hl. eapply elem_of_take_elem; eauto.
      * intros l' [Hne Hl']%not_elem_of_cons. by rewrite Hrest, Hstore.
    + exists 0%nat, w. cbn. unfold ret. rewrite app_nil_r.
      split_and!; try done.
      * lia.
      * intros j Hj. lia.
      * by right.
      * intros l' Hl'. by apply elem_of_nil in Hl'.
Qed.

Lemma set_coins_id w : set_coins (coins w) w = w.
Proof. by destruct w. Qed.

(** Removing, one after the other, the coins of a prefix of the queue
    leaves the rest of the queue. *)
Lemma removeNeeded_run pre : forall rest w,
  coins w = pre ++ rest ->
  removeNeeded pre w = (Return tt, set_coins rest w).
Proof.
  unfold removeNeeded.
  induction pre as [|e pre IH]; intros rest w Hcoins.
  - cbn in *. unfold ret. by rewrite <- Hcoins, set_coins_id.
  - cbn [forM]. unfold bind, modify. rewrite Hcoins.
    cbn [app indexOf]. rewrite Nat.eqb_refl.
    unfold splice1. cbn [Z.ltb Z.compare].
    replace (Z.to_nat (Z.min 0 _)) with 0%nat by (cbn [length]; lia).
    cbn [delete list_delete].
    rewrite (IH rest); [done | done].
Qed.

(** [spendUTXOs] on a consistent wallet. *)
Lemma spendUTXOs_run w requested :
  Spec.consistent w ->
  (Number.gtb requested (Number.sum (Spec.held w <$> coins w)) = true ->
   spendUTXOs requested w = (Throw InsufficientFunds, w))
  /\ (Number.gtb requested (Number.sum (Spec.held w <$> coins w)) = false ->
      exists (k : nat) (w' : t),
        spendUTXOs requested w
        = (Return {| inputs := take k (coins w);
                     changeAmt :=
                       Number.opp (Spec.remaining w requested (take k (coins w))) |},
           w')
        /\ coins w' = drop k (coins w)
        /\ addresses w' = addresses w
        /\ eligibility_address w' = eligibility_address w
        /\ fresh w' = fresh w
        /\ (forall j, (j < k)%nat ->
            Number.gtb (Spec.remaining w requested (take j (coins w))) 0 = true)
        /\ (k = length (coins w)
            \/ Number.gtb (Spec.remaining w requested (take k (coins w))) 0 = false)
        /\ (forall l, l ∈ take k (coins w) ->
            exists c o kp,
              store w !! l = Some c /\ coin_output c = Some o
              /\ lookupKey (address o) (addresses w) = Some kp
              /\ store w' !! l = Some (Spec.signedCoin c o kp))
        /\ (forall l, l ∉ take k (coins w) -> store w' !! l = store w !! l)).
Proof.
  intros Hw. pose proof (balance_run w Hw) as Hbal.
  destruct Hw as [Hnd Hown].
  split.
  - intros Hlt.
    unfold spendUTXOs. unfold bind at 1. by rewrite Hbal, Hlt.
  - intros Hle.
    assert (Hown' : Forall (Spec.owned w) (coins w)).
    { eapply Forall_impl; [exact Hown |]. by intros l [_ ?]. }
    destruct (spendLoop_run (coins w) requested [] w Hnd Hown')
      as (k & w1 & Hrun & Hk & Hcoins & Haddr & Helig & Hfresh
          & Hbelow & Hstop & Hsigned & Hrest).
    exists k, (set_coins (drop k (coins w)) w1).
    split_and!; try done.
    unfold spendUTXOs. unfold bind at 1. rewrite Hbal, Hle.
    unfold bind at 1, get at 1. unfold bind at 1.
    rewrite Hrun. cbn [app]. unfold bind at 1.
    by rewrite (removeNeeded_run (take k (coins w)) (drop k (coins w)) w1)
      by (by rewrite Hcoins, take_drop).
Qed.

Lemma consistent_constructor : Spec.consistent constructor.
Proof. split; [apply NoDup_nil_2 | apply Forall_nil_2]. Qed.

Lemma consistent_makeAddress w kp :
  Spec.consistent w -> Spec.consistent (snd (makeAddress kp w)).
Proof.
  intros [Hnd Hown]. split; [done |]. cbn.
  eapply Forall_impl; [exact Hown |].
  intros l [Hl (c & o & k & Hc & Ho & Hk)]. split; [done |].
  destruct (lookupKey_setKey_is_Some (address o) (calcAddress (public kp)) kp
              (addresses w)) as [k' Hk']; [eauto |].
  by exists c, o, k'.
Qed.

Lemma consistent_saveElibilityProof w :
  Spec.consistent w -> Spec.consistent (snd (saveElibilityProof w)).
Proof. by intros [Hnd Hown]. Qed.

Lemma addUTXO_run w utxo txID outputIndex :
  addUTXO utxo txID outputIndex w =
    if hasKey (address utxo) w then
      (Return tt,
       {| coins := fresh w :: coins w;
          addresses := addresses w;
          eligibility_address := eligibility_address w;
          store := <[fresh w := {| coin_output := Some utxo; coin_txID := txID;
                                   coin_outputIndex := outputIndex;
                                   coin_pubKey := None; coin_sig := None |}]>
                     (store w);
          fresh := S (fresh w) |})
    else (Throw UnknownAddress, w).
Proof.
  unfold addUTXO, hasKey. run.
  destruct (lookupKey (address utxo) (addresses w)) as [kp|] eqn:Hk.
  - by rewrite bool_decide_eq_true_2 by eauto.
  - rewrite bool_decide_eq_false_2; [done |]. by intros [? ?].
Qed.

Lemma consistent_addUTXO w utxo txID outputIndex :
  Spec.consistent w -> Spec.consistent (snd (addUTXO utxo txID outputIndex w)).
Proof.
  intros [Hnd Hown]. rewrite addUTXO_run. unfold hasKey.
  destruct (lookupKey (address utxo) (addresses w)) as [kp|] eqn:Hk.
  2: { by rewrite bool_decide_eq_false_2 by (by intros [? ?]). }
  rewrite bool_decide_eq_true_2 by eauto. cbn [snd].
  rewrite Forall_forall in Hown.
  assert (Hnew : fresh w ∉ coins w).
  { intros Hin. destruct (Hown _ Hin) as [Hlt _]. lia. }
  split; cbn [coins fresh].
  - by apply NoDup_cons.
  - apply Forall_cons. split.
    + split; [lia |]. eexists _, utxo, kp. cbn.
      by rewrite lookup_insert_eq.
    + apply Forall_forall. intros l Hl.
      destruct (Hown l Hl) as [Hlt Ho]. split; [lia |].
      apply (owned_ext w); [| done | done].
      cbn. apply lookup_insert_ne. lia.
Qed.

Lemma consistent_spendUTXOs w requested :
  Spec.consistent w -> Spec.consistent (snd (spendUTXOs requested w)).
Proof.
  intros Hw. destruct (spendUTXOs_run w requested Hw) as [Hthrow Hspend].
  destruct (Number.gtb requested (Number.sum (Spec.held w <$> coins w))) eqn:Hgt.
  - by rewrite (Hthrow eq_refl).
  - destruct (Hspend eq_refl)
      as (k & w' & -> & Hcoins & Haddr & _ & Hfresh & _ & _ & _ & Hrest).
    destruct Hw as [Hnd Hown]. cbn [snd].
    rewrite <- (take_drop k (coins w)) in Hnd.
    apply NoDup_app in Hnd as (_ & Hdisj & Hnd).
    split; rewrite Hcoins; [done |].
    rewrite Forall_forall in Hown. apply Forall_forall. intros l Hl.
    destruct (Hown l (elem_of_drop_elem _ _ _ Hl)) as [Hlt Ho].
    split; [by rewrite Hfresh |].
    apply (owned_ext w); [| done | done].
    apply Hrest. intros Hin. by apply (Hdisj l).
Qed.

(** Every wallet a program can build is consistent. *)
Lemma reachable_consistent w : Spec.reachable w -> Spec.consistent w.
Proof.
  induction 1;
    auto using consistent_constructor, consistent_makeAddress,
      consistent_addUTXO, consistent_spendUTXOs, consistent_saveElibilityProof.
Qed.

(** The balance of a wallet whose amounts are in the exact range. *)
Lemma balance_exact w :
  Spec.consistent w -> Spec.safe w ->
  balance w = (Return (Number.Int (Spec.accumulated w (coins w))), w).
Proof.
  intros Hw [Hnat Hsum]. rewrite (balance_run w Hw).
  rewrite accumulated_total in *. by rewrite NumberFacts.sum_exact.
Qed.

(** [spendUTXOs] on a consistent wallet whose amounts are in the exact
    range. *)
Lemma spendUTXOs_exact (w : Wallet.t) (requested : Z) :
  Spec.consistent w ->
  Spec.safe w ->
  exists bal : Z,
    balance w = (Return (Number.Int bal), w)
    /\ bal = Spec.accumulated w (coins w)
    /\ (bal < requested ->
        spendUTXOs requested w = (Throw InsufficientFunds, w))
    /\ (requested <= bal ->
        exists (k : nat) (w' : Wallet.t),
          spendUTXOs requested w
          = (Return {| inputs := take k (coins w);
                       changeAmt :=
                         Number.Int (Spec.accumulated w (take k (coins w)) - requested) |},
             w')
          /\ coins w' = drop k (coins w)
          /\ addresses w' = addresses w
          /\ 0 <= Spec.accumulated w (take k (coins w)) - requested
          /\ (forall j, (j < k)%nat ->
              Spec.accumulated w (take j (coins w)) < requested)
          /\ (forall l, l ∈ take k (coins w) ->
              exists c o kp,
                store w !! l = Some c /\ coin_output c = Some o
                /\ lookupKey (address o) (addresses w) = Some kp
                /\ store w' !! l = Some (Spec.signedCoin c o kp))
          /\ (forall l, l ∉ take k (coins w) -> store w' !! l = store w !! l)).
Proof.
  intros Hw Hsafe.
  exists (Spec.accumulated w (coins w)).
  destruct (spendUTXOs_run w requested Hw) as [Hthrow Hspend].
  pose proof (balance_exact w Hw Hsafe) as Hbal.
  rewrite (balance_run w Hw) in Hbal. injection Hbal as Hbal.
  rewrite Hbal in Hthrow, Hspend.
  change (Number.gtb (Number.Int requested)
            (Number.Int (Spec.accumulated w (coins w))))
    with (Spec.accumulated w (coins w) <? requested) in Hthrow, Hspend.
  split; [by apply balance_exact |]. split; [done |]. split.
  { intros Hlt. apply Hthrow. by apply Z.ltb_lt. }
  intros Hle.
  destruct Hspend
    as (k & w' & Hrun & Hcoins & Haddr & _ & _ & Hbelow & Hstop & Hsigned & Hrest).
  { by apply Z.ltb_ge. }
  destruct Hsafe as [Hnat Hsum].
  assert (Hexact : 0 < requested -> forall j,
            Spec.remaining w (Number.Int requested) (take j (coins w))
            = Number.Int (requested - Spec.accumulated w (take j (coins w)))).
  { intros Hpos j.
    pose proof (accumulated_take_le w (coins w) j Hnat) as Hj.
    apply remaining_exact; [| lia | lia].
    rewrite <- (take_drop j (coins w)), fmap_app in Hnat.
    by apply Forall_app in Hnat as [Htake _]. }
  exists k, w'.
  destruct (Z.lt_ge_cases 0 requested) as [Hpos|Hneg].
  - rewrite Hrun, (Hexact Hpos). cbn [Number.opp].
    assert (Hchange : 0 <= Spec.accumulated w (take k (coins w)) - requested).
    { destruct Hstop as [Hall | Hreached].
      - rewrite Hall, firstn_all. lia.
      - rewrite (Hexact Hpos) in Hreached.
        change ((0 <? requested - Spec.accumulated w (take k (coins w))) = false)
          in Hreached.
        apply Z.ltb_ge in Hreached. lia. }
    split_and!; try done.
    + do 4 f_equal. lia.
    + intros j Hj. specialize (Hbelow j Hj). rewrite (Hexact Hpos) in Hbelow.
      change ((0 <? requested - Spec.accumulated w (take j (coins w))) = true)
        in Hbelow.
      apply Z.ltb_lt in Hbelow. lia.
  - assert (Hk : k = 0%nat).
    { destruct k as [|k]; [done |].
      specialize (Hbelow 0%nat ltac:(lia)). cbn [take Spec.remaining] in Hbelow.
      change ((0 <? requested) = true) in Hbelow. apply Z.ltb_lt in Hbelow. lia. }
    subst k. rewrite Hrun.
    split_and!; try done.
    + rewrite take_0. cbn [Spec.accumulated]. lia.
    + intros j Hj. lia.
Qed.

Lemma helds_addUTXO w utxo txID outputIndex :
  Spec.consistent w -> hasKey (address utxo) w = true ->
  Spec.held (snd (addUTXO utxo txID outputIndex w))
    <$> coins (snd (addUTXO utxo txID outputIndex w))
  = amount utxo :: (Spec.held w <$> coins w).
Proof.
  intros [_ Hown] Hkey. rewrite addUTXO_run, Hkey. cbn [snd coins fmap list_fmap].
  f_equal.
  - unfold Spec.held. cbn. by rewrite lookup_insert_eq.
  - apply helds_ext. intros l Hl. rewrite Forall_forall in Hown.
    destruct (Hown l Hl) as [Hlt _]. cbn. apply lookup_insert_ne. lia.
Qed.

(** The balance of a wallet built by the methods whose coins hold
    non-negative integers is not below 0. *)
Lemma balance_nonnegative w :
  Spec.consistent w -> Spec.naturals (Spec.held w <$> coins w) ->
  exists bal, balance w = (Return bal, w) /\ Number.nonnegative bal.
Proof.
  intros Hw Hnat. eexists. split; [by apply balance_run |].
  by apply NumberFacts.sum_positive.
Qed.


(** C9, as amended.  On a wallet built by the methods that has the key
    pair of [utxo.address], two calls of [addUTXO] with the same
    arguments both return; they put two different coin objects with the
    same contents at the front of the queue, and the balance becomes the
    sum, as the program adds it from 0, of the amount of the output
    twice and then of the amounts the queue held.  When these amounts
    are non-negative integers and the balance before plus twice the
    amount is at most 2^53, the balance grows by twice the amount of the
    output. *)
Theorem addUTXO_twice (w : Wallet.t) (utxo : Output) (txID : string)
    (outputIndex : Z) :
  Spec.reachable w ->
  hasKey (address utxo) w = true ->
  let coin := {| coin_output := Some utxo; coin_txID := txID;
                 coin_outputIndex := outputIndex;
                 coin_pubKey := None; coin_sig := None |} in
  exists (w1 w2 : Wallet.t) (l1 l2 : ref),
    addUTXO utxo txID outputIndex w = (Return tt, w1)
    /\ addUTXO utxo txID outputIndex w1 = (Return tt, w2)
    /\ coins w2 = l2 :: l1 :: coins w
    /\ l1 <> l2
    /\ store w2 !! l1 = Some coin
    /\ store w2 !! l2 = Some coin
    /\ balance w = (Return (Number.sum (Spec.held w <$> coins w)), w)
    /\ balance w2
       = (Return (Number.sum (amount utxo :: amount utxo :: (Spec.held w <$> coins w))),
          w2)
    /\ (forall a : Z,
          amount utxo = a -> 0 <= a -> Spec.safe w ->
          Spec.accumulated w (coins w) + 2 * a <= Spec.exactUpTo ->
          balance w = (Return (Number.Int (Spec.accumulated w (coins w))), w)
          /\ balance w2
             = (Return (Number.Int (Spec.accumulated w (coins w) + 2 * a)), w2)).
Proof.
  intros Hreach Hkey coin.
  pose proof (reachable_consistent w Hreach) as Hw.
  pose proof (Spec.reachable_addUTXO w utxo txID outputIndex Hreach) as Hreach1.
  pose proof (Spec.reachable_addUTXO _ utxo txID outputIndex Hreach1) as Hreach2.
  apply reachable_consistent in Hreach2.
  rewrite (addUTXO_run w) in Hreach1, Hreach2. rewrite Hkey in Hreach1, Hreach2.
  cbn [snd] in Hreach1, Hreach2.
  set (w1 := {| coins := fresh w :: coins w; addresses := addresses w;
                eligibility_address := eligibility_address w;
                store := <[fresh w := coin]> (store w);
                fresh := S (fresh w) |}) in *.
  assert (Hkey1 : hasKey (address utxo) w1 = true) by exact Hkey.
  rewrite (addUTXO_run w1), Hkey1 in Hreach2. cbn [snd] in Hreach2.
  set (w2 := {| coins := fresh w1 :: coins w1; addresses := addresses w1;
                eligibility_address := eligibility_address w1;
                store := <[fresh w1 := coin]> (store w1);
                fresh := S (fresh w1) |}) in *.
  assert (Hold : Spec.held w2 <$> coins w = Spec.held w <$> coins w).
  { apply helds_ext. intros l Hl.
    destruct Hw as [_ Hown]. rewrite Forall_forall in Hown.
    destruct (Hown l Hl) as [Hlt _]. cbn.
    rewrite !lookup_insert_ne by lia. done. }
  assert (Hnew : Spec.held w2 <$> coins w2
                 = amount utxo :: amount utxo :: (Spec.held w <$> coins w)).
  { cbn [coins w2 w1 fmap list_fmap]. fold (fmap (M := list) (Spec.held w2) (coins w)).
    rewrite Hold. unfold Spec.held. cbn.
    rewrite lookup_insert_eq, lookup_insert_ne by lia.
    by rewrite lookup_insert_eq. }
  assert (Hbal2 : balance w2
       = (Return (Number.sum (amount utxo :: amount utxo :: (Spec.held w <$> coins w))),
          w2)).
  { by rewrite (balance_run w2 Hreach2), Hnew. }
  exists w1, w2, (fresh w), (fresh w1).
  split_and!.
  - by rewrite addUTXO_run, Hkey.
  - by rewrite addUTXO_run, Hkey1.
  - done.
  - cbn. lia.
  - cbn. rewrite lookup_insert_ne by lia. by rewrite lookup_insert_eq.
  - cbn. by rewrite lookup_insert_eq.
  - by apply balance_run.
  - exact Hbal2.
  - intros a Ha Hpos Hsafe Hsum. split; [by apply balance_exact |].
    rewrite Hbal2. do 2 f_equal. destruct Hsafe as [Hnat _].
    rewrite accumulated_total in *.
    rewrite NumberFacts.sum_exact.
    + rewrite Ha. cbn [Number.total Number.value]. f_equal. lia.
    + rewrite Ha. by repeat apply Forall_cons_2.
    + rewrite Ha. cbn [Number.total Number.value]. lia.
Qed.

End WalletFacts.

Import Scenario Wallet.

Lemma reachable_wallet2 : Spec.reachable wallet2.
Proof.
  unfold wallet2, wallet1, wallet0.
  do 2 apply Spec.reachable_addUTXO.
  apply Spec.reachable_makeAddress, Spec.reachable_constructor.
Defined.

(** C1, on the wallet of the test suite.  The coin of 42 is added first
    and is object 0, the coin of 25 is added next and is object 1, at the
    front of the queue.  [spendUTXOs(20)] consumes object 1, the coin
    added last, and leaves the oldest coin in the queue, although that
    one is at the back and covers the amount too. *)
Lemma spendUTXOs_consumes_front :
  coins wallet1 = [0%nat]
  /\ coins wallet2 = [1%nat; 0%nat]
  /\ Spec.amountOf wallet2 0%nat = 42
  /\ Spec.amountOf wallet2 1%nat = 25
  /\ fst (spendUTXOs 20 wallet2) = Return {| inputs := [1%nat]; changeAmt := 5 |}
  /\ coins (snd (spendUTXOs 20 wallet2)) = [0%nat].
Proof. repeat split; vm_compute; reflexivity. Qed.

Lemma safe_wallet2 : Spec.safe wallet2.
Proof.
  split.
  - repeat constructor; vm_compute; discriminate.
  - vm_compute; discriminate.
Defined.



(** Adding output 0 of [tx] twice to the wallet that has its key. *)
Lemma addUTXO_twice_witness :
  exists (w1 w2 : Wallet.t),
    addUTXO {| amount := 42; address := A |} (Transaction.id tx) 0 wallet0
    = (Return tt, w1)
    /\ addUTXO {| amount := 42; address := A |} (Transaction.id tx) 0 w1
       = (Return tt, w2)
    /\ length (coins w2) = 2%nat
    /\ balance wallet0 = (Return (Number.Int 0), wallet0)
    /\ balance w2 = (Return (Number.Int (0 + 2 * 42)), w2).
Proof.
  destruct (addUTXO_twice wallet0 {| amount := 42; address := A |}
              (Transaction.id tx) 0)
    as (w1 & w2 & l1 & l2 & H1 & H2 & Hc & _ & _ & _ & _ & _ & Hexact).
  - apply Spec.reachable_makeAddress, Spec.reachable_constructor.
  - vm_compute; reflexivity.
  - exists w1, w2. rewrite Hc.
    destruct (Hexact 42) as [Hb Hb2];
      [reflexivity | lia | split; [constructor | vm_compute; discriminate]
      | vm_compute; discriminate |].
    repeat split; assumption.
Defined.

(** C9: the queue of [stash] holds 2^53 and 1, and its balance is 2^53.
    After a coin of 1 was added twice the balance is 2^53 + 4, not
    2^53 + 2. *)
Lemma addUTXO_twice_rounds :
  Spec.reachable stash
  /\ hasKey A stash = true
  /\ balance stash = (Return (Number.Int (2 ^ 53)), stash)
  /\ fst (balance
            (snd (addUTXO {| amount := 1; address := A |} "tx" 2
                    (snd (addUTXO {| amount := 1; address := A |} "tx" 2 stash)))))
     = Return (Number.Int (2 ^ 53 + 4)).
Proof.
  split_and!; try (vm_compute; reflexivity).
  unfold stash, wallet0. do 2 apply Spec.reachable_addUTXO.
  apply Spec.reachable_makeAddress, Spec.reachable_constructor.
Qed.

End WalletFacts.

Module MinerFacts.

Import Miner.

(** *** Binary numerals *)

Lemma bitsBelow_S n len :
  Spec.bitsBelow n (S len) = Spec.bitsBelow (N.div2 n) len ++ [Spec.bitChar (N.testbit n 0)].
Proof.
  unfold Spec.bitsBelow. cbn [seq]. rewrite <- seq_shift.
  cbn [rev]. rewrite map_app. cbn [map]. f_equal.
  rewrite <- map_rev, map_map. apply map_ext. intros i.
  f_equal. rewrite N.div2_spec, N.shiftr_spec by lia.
  by rewrite Nat2N.inj_succ, N.add_1_r.
Qed.

Lemma log2_double p :
  N.to_nat (N.log2 (Npos p~0)) = S (N.to_nat (N.log2 (Npos p)))
  /\ N.to_nat (N.log2 (Npos p~1)) = S (N.to_nat (N.log2 (Npos p))).
Proof.
  assert (Hsize : N.succ (N.log2 (Npos p)) = Npos (Pos.size p))
    by (destruct p; reflexivity).
  split.
  - change (N.log2 (Npos p~0)) with (Npos (Pos.size p)).
    rewrite <- Hsize. apply N2Nat.inj_succ.
  - change (N.log2 (Npos p~1)) with (Npos (Pos.size p)).
    rewrite <- Hsize. apply N2Nat.inj_succ.
Qed.

Lemma binaryDigits_bits p : forall acc,
  list_ascii_of_string (binaryDigits p acc)
  = Spec.bitsBelow (Npos p) (S (N.to_nat (N.log2 (Npos p)))) ++ list_ascii_of_string acc.
Proof.
  induction p as [p IH | p IH |]; intros acc; cbn [binaryDigits].
  - rewrite IH. destruct (log2_double p) as [_ ->].
    rewrite (bitsBelow_S (Npos p~1)). cbn [N.div2 N.testbit Pos.testbit].
    rewrite <- app_assoc. reflexivity.
  - rewrite IH. destruct (log2_double p) as [-> _].
    rewrite (bitsBelow_S (Npos p~0)). cbn [N.div2 N.testbit Pos.testbit].
    rewrite <- app_assoc. reflexivity.
  - reflexivity.
Qed.

(** [toString(2)] yields the numeral without leading zeros. *)
Lemma toString2_shortest n : toString2 n = Spec.shortestBinary n.
Proof.
  unfold Spec.shortestBinary.
  destruct n as [|p]; [reflexivity |].
  cbn [toString2].
  rewrite <- (string_of_list_ascii_of_string (binaryDigits p "")).
  by rewrite binaryDigits_bits, app_nil_r.
Qed.

(** *** Strings as lists of characters *)

Lemma list_ascii_app s1 s2 :
  list_ascii_of_string (s1 ++ s2)
  = list_ascii_of_string s1 ++ list_ascii_of_string s2.
Proof. induction s1 as [|c s1 IH]; [reflexivity | simpl; congruence]. Qed.

Lemma list_ascii_concat (l : list string) :
  list_ascii_of_string (String.concat "" l)
  = concat (map list_ascii_of_string l).
Proof.
  induction l as [|x l IH]; [done |].
  cbn [map concat]. rewrite <- IH.
  destruct l as [|y l]; cbn [String.concat].
  - cbn. by rewrite app_nil_r.
  - by rewrite list_ascii_app.
Qed.

Lemma list_ascii_substring (n : nat) (s : string) :
  list_ascii_of_string (substring 0 n s) = take n (list_ascii_of_string s).
Proof.
  revert s. induction n as [|n IH]; intros [|c s]; cbn; try done.
  by rewrite IH.
Qed.

Lemma text2Binary_binarized s : text2Binary s = Spec.binarized s.
Proof.
  unfold text2Binary, Spec.binarized.
  rewrite <- (string_of_list_ascii_of_string (substring _ _ _)).
  rewrite list_ascii_substring, list_ascii_concat, map_map.
  do 3 f_equal. apply map_ext. intros c. by rewrite toString2_shortest.
Qed.

(** *** Counting the leading equal characters *)

Lemma get_after (pre s : string) :
  String.get (String.length pre) (pre ++ s) = String.get 0 s.
Proof. induction pre as [|c pre IH]; [reflexivity | exact IH]. Qed.

Lemma append_String (d : ascii) (s1 s2 : string) :
  (String d s1 ++ s2 = String d (s1 ++ s2))%string.
Proof. reflexivity. Qed.

Lemma append_cons (pre : string) (c : ascii) (s : string) :
  (pre ++ String c s = (pre ++ String c "") ++ s)%string.
Proof.
  induction pre as [|d pre IH]; [reflexivity |].
  by rewrite !append_String, IH.
Qed.

Lemma length_snoc (pre : string) (c : ascii) :
  String.length (pre ++ String c "") = S (String.length pre).
Proof.
  induction pre as [|d pre IH]; [reflexivity |].
  rewrite append_String. cbn [String.length]. by rewrite IH.
Qed.

(** The loop, started at index [|pre1|] on two strings that continue
    with [s1] and [s2] from there, adds to [total] the number of their
    leading equal characters. *)
Lemma countLoop_prefix s1 : forall s2 pre1 pre2 total,
  String.length s1 = String.length s2 ->
  String.length pre1 = String.length pre2 ->
  countLoop (String.length s1) (String.length pre1) (pre1 ++ s1) (pre2 ++ s2) total
  = total + Spec.matchingPrefixBits s1 s2.
Proof.
  induction s1 as [|a s1 IH]; intros [|b s2] pre1 pre2 total Hlen Hpre;
    try discriminate; cbn [String.length countLoop Spec.matchingPrefixBits].
  - lia.
  - rewrite get_after, Hpre, get_after. cbn [String.get].
    destruct (Ascii.eqb_spec a b) as [->|Hne].
    + rewrite bool_decide_eq_true_2 by done.
      rewrite (append_cons pre1 b s1), (append_cons pre2 b s2).
      rewrite <- Hpre, <- (length_snoc pre1 b).
      rewrite IH.
      * lia.
      * by injection Hlen.
      * by rewrite !length_snoc, Hpre.
    + rewrite bool_decide_eq_false_2 by congruence. lia.
Qed.

Lemma countMatchingBits_run {S} (string1 string2 : string) (st : S) :
  countMatchingBits string1 string2 st =
    if Nat.eqb (String.length string1) (String.length string2)
    then (Return (Spec.matchingPrefixBits string1 string2), st)
    else (Throw StringLengthMismatch, st).
Proof.
  unfold countMatchingBits.
  destruct (Nat.eqb_spec (String.length string1) (String.length string2)) as [Hlen|];
    cbn [negb]; [| done].
  unfold ret. do 2 f_equal.
  apply (countLoop_prefix string1 string2 "" "" 0 Hlen eq_refl).
Qed.

Lemma isEligibileToMint_run {S} (miner : Miner.t) (b : Block.t) (target : Z) (st : S) :
  isEligibileToMint miner b target st =
    match Wallet.getEligibilityAddress (wallet miner) with
    | None => (Throw TypeError, st)
    | Some key =>
        let cbh := Spec.binarized (Block.prevBlockHash b) in
        let pkh := Spec.binarized key in
        if Nat.eqb (String.length cbh) (String.length pkh)
        then (Return (target <=? Spec.matchingPrefixBits cbh pkh), st)
        else (Throw StringLengthMismatch, st)
    end.
Proof.
  unfold isEligibileToMint.
  destruct (Wallet.getEligibilityAddress (wallet miner)) as [key|]; [| done].
  cbn [defined]. unfold bind at 1, ret at 1. unfold bind at 1.
  rewrite countMatchingBits_run, !text2Binary_binarized. cbn zeta.
  by destruct (Nat.eqb _ _).
Qed.

(** C7, as amended.  With an eligibility key [key], [isEligibileToMint]
    binarizes the previous-block hash and the key as the concatenation
    of the binary numerals without leading zeros of their code units,
    cut after 16 characters.  When the two have the same length it
    returns whether their number of leading equal characters is at least
    the target; when they differ in length it throws
    StringLengthMismatch.  Nothing is written. *)
Theorem isEligibileToMint_spec {S} (miner : Miner.t) (b : Block.t)
    (target : Z) (key : string) (st : S) :
  Wallet.getEligibilityAddress (wallet miner) = Some key ->
  let cbh := Spec.binarized (Block.prevBlockHash b) in
  let pkh := Spec.binarized key in
  (String.length cbh = String.length pkh ->
   isEligibileToMint miner b target st
   = (Return (bool_decide (target <= Spec.matchingPrefixBits cbh pkh)), st))
  /\ (String.length cbh <> String.length pkh ->
      isEligibileToMint miner b target st = (Throw StringLengthMismatch, st)).
Proof.
  intros Hkey cbh pkh. rewrite isEligibileToMint_run, Hkey. cbn zeta.
  fold cbh pkh. split; intros Hlen.
  - apply Nat.eqb_eq in Hlen. rewrite Hlen. do 2 f_equal.
    destruct (Z.leb_spec target (Spec.matchingPrefixBits cbh pkh)).
    + by rewrite bool_decide_eq_true_2.
    + rewrite bool_decide_eq_false_2; [done | lia].
  - apply Nat.eqb_neq in Hlen. by rewrite Hlen.
Qed.

(** *** Running a miner *)

Lemma bind_ret {S A B} (a : A) (k : A -> M S B) (s : S) :
  bind (ret a) k s = k a s.
Proof. reflexivity. Qed.

Lemma bind_get {S B} (k : S -> M S B) (s : S) : bind get k s = k s s.
Proof. reflexivity. Qed.

Lemma bind_bind {S A B C} (m : M S A) (k : A -> M S B) (k' : B -> M S C) (s : S) :
  bind (bind m k) k' s = bind m (fun a => bind (k a) k') s.
Proof. unfold bind. by destruct (m s) as [[a|e] s']. Qed.

Lemma bind_Return {S A B} (m : M S A) (k : A -> M S B) (s : S) (a : A) :
  fst (m s) = Return a -> bind m k s = k a (snd (m s)).
Proof. unfold bind. destruct (m s) as [c s']. cbn. by intros ->. Qed.

Lemma bind_Throw {S A B} (m : M S A) (k : A -> M S B) (s : S) (e : Error) :
  fst (m s) = Throw e -> bind m k s = (Throw e, snd (m s)).
Proof. unfold bind. destruct (m s) as [c s']. cbn. by intros ->. Qed.

Section MinerFacts.
Context `{Utils} `{Block.Ops} `{Env}.

Lemma bind_update {B} (f : Miner.t -> Miner.t) (k : unit -> M Sys B) (s : Sys) :
  bind (update f) k s = k tt (set_this (f (this s)) s).
Proof. reflexivity. Qed.

Lemma bind_now {B} (k : Z -> M Sys B) (s : Sys) :
  bind now k s
  = k (Date_now (clockReads s))
      {| this := this s; clockReads := S (clockReads s);
         keysDrawn := keysDrawn s; effects := effects s |}.
Proof. reflexivity. Qed.

(** One step of a miner's computation at a state. *)
Ltac step :=
  repeat rewrite bind_bind;
  first [rewrite bind_ret | rewrite bind_get | rewrite bind_update | rewrite bind_now];
  cbn beta zeta.

Lemma keepsBlock_bind {A B} (m : M Sys A) (k : A -> M Sys B) :
  Spec.keepsBlock m -> (forall a, Spec.keepsBlock (k a)) -> Spec.keepsBlock (bind m k).
Proof.
  intros Hm Hk s. unfold bind. specialize (Hm s).
  destruct (m s) as [[a|e] s']; cbn [snd] in *; [| done].
  by rewrite Hk.
Qed.

Lemma keepsBlock_ret {A} (a : A) : Spec.keepsBlock (ret a).
Proof. done. Qed.

Lemma keepsBlock_get : Spec.keepsBlock get.
Proof. done. Qed.

Lemma keepsBlock_defined {A} (o : option A) : Spec.keepsBlock (defined o).
Proof. by destruct o. Qed.

Lemma keepsBlock_emit e : Spec.keepsBlock (emit e).
Proof. done. Qed.

Lemma keepsBlock_onWallet {A} (m : M Wallet.t A) : Spec.keepsBlock (onWallet m).
Proof. intros s. unfold onWallet, zoom. by destruct (m _). Qed.

Lemma keepsBlock_wallet_makeAddress : Spec.keepsBlock wallet_makeAddress.
Proof. intros s. unfold wallet_makeAddress. by rewrite keepsBlock_onWallet. Qed.

Lemma keepsBlock_update (f : Miner.t -> Miner.t) :
  (forall m, currentBlock (f m) = currentBlock m) -> Spec.keepsBlock (update f).
Proof. intros Hf s. apply Hf. Qed.

Lemma keepsBlock_forM {A B} (body : B -> A -> M Sys B) (l : list A) :
  (forall acc x, Spec.keepsBlock (body acc x)) -> forall acc, Spec.keepsBlock (forM body l acc).
Proof.
  intros Hbody. induction l as [|x l IH]; intros acc; cbn [forM].
  - apply keepsBlock_ret.
  - apply keepsBlock_bind; [apply Hbody | apply IH].
Qed.

Lemma keepsBlock_isEligibileToMint miner b target :
  Spec.keepsBlock (isEligibileToMint miner b target).
Proof.
  intros s. rewrite isEligibileToMint_run.
  destruct (Wallet.getEligibilityAddress _); [| done].
  cbn zeta. by destruct (Nat.eqb _ _).
Qed.

Lemma keepsBlock_postTransaction outputs : Spec.keepsBlock (postTransaction outputs).
Proof.
  unfold postTransaction.
  apply keepsBlock_bind; [apply keepsBlock_onWallet | intros r].
  apply keepsBlock_bind.
  { destruct (Number.gtb (Wallet.changeAmt r) 0); [| apply keepsBlock_ret].
    apply keepsBlock_bind; [apply keepsBlock_wallet_makeAddress |].
    intros a. apply keepsBlock_ret. }
  intros outputs'.
  apply keepsBlock_bind; [apply keepsBlock_get | intros s].
  apply keepsBlock_bind; [| intros ins; apply keepsBlock_emit].
  apply keepsBlock_forM. intros acc l.
  apply keepsBlock_bind; [apply keepsBlock_defined |].
  intros c. apply keepsBlock_ret.
Qed.

(** The part of [startNewSearch] after the new block: the eligibility
    check and what follows. *)
Lemma keepsBlock_eligibility (reuse : bool) :
  Spec.keepsBlock
    (s <- get ;;
     eligible <- isEligibileToMint (this s) (currentBlock (this s))
                                   (mint_elegibility_diff_dyn (this s)) ;;
     if eligible then update (set_shouldMine true)
     else
       update (set_shouldMine false) ;;
       update (fun m => set_mint_elegibility_diff_dyn
                          (mint_elegibility_diff_dyn m - 1) m) ;;
       emit (SetTimeout_startNewSearch reuse TIME_UNTIL_ELIGIBILITY_DECREASE)).
Proof.
  apply keepsBlock_bind; [apply keepsBlock_get | intros s].
  apply keepsBlock_bind; [apply keepsBlock_isEligibileToMint | intros [|]].
  - by apply keepsBlock_update.
  - apply keepsBlock_bind; [by apply keepsBlock_update | intros _].
    apply keepsBlock_bind; [by apply keepsBlock_update | intros _].
    apply keepsBlock_emit.
Qed.

(** With [shouldStartNewBlock] set, [startNewSearch(true)] leaves the
    miner working on a new block on top of the block it had, whether it
    returns or throws. *)
Lemma startNewSearch_currentBlock (st : Sys) :
  shouldStartNewBlock (this st) = true ->
  currentBlock (this (snd (startNewSearch true st)))
  = Block.set_proof 0
      (Block.constructor (rewardAddress (this st)) (currentBlock (this st))
                         (Date_now (clockReads st))).
Proof.
  intros Hnew. unfold startNewSearch.
  rewrite (bind_Return _ _ st tt) by reflexivity.
  rewrite bind_get. cbn [snd onWallet zoom Wallet.saveElibilityProof].
  set (st1 := snd (onWallet Wallet.saveElibilityProof st)).
  change (shouldStartNewBlock (this st1)) with (shouldStartNewBlock (this st)).
  rewrite Hnew. cbn [negb].
  repeat step. repeat rewrite bind_bind.
  match goal with
  | |- context [bind wallet_makeAddress ?k ?s] =>
      assert (Hkeep : Spec.keepsBlock (bind wallet_makeAddress k))
  end.
  { apply keepsBlock_bind; [apply keepsBlock_wallet_makeAddress | intros a].
    apply keepsBlock_bind; [apply keepsBlock_postTransaction | intros _].
    apply keepsBlock_eligibility. }
  rewrite Hkeep. reflexivity.
Qed.

(** *** Validating a block *)

Lemma isValidBlock_None b st :
  isValidBlock b None st = (Return (Block.verifyProof b), st).
Proof. unfold isValidBlock. rewrite bind_ret. cbn [negb]. by destruct (Block.verifyProof b). Qed.

Lemma isValidBlock_Some b miner st :
  isValidBlock b (Some miner) st =
    let st' := {| this := this st; clockReads := S (clockReads st);
                  keysDrawn := keysDrawn st; effects := effects st |} in
    match fst (isEligibileToMint (deref miner st) b
                 (Spec.targetAllowed (Date_now (clockReads st)) (Block.timestamp b)) st) with
    | Return eligible => (Return (eligible && Block.verifyProof b), st')
    | Throw e => (Throw e, st')
    end.
Proof.
  unfold isValidBlock. repeat step. repeat rewrite bind_bind.
  unfold bind. rewrite !isEligibileToMint_run.
  change (deref miner _) with (deref miner st).
  destruct (Wallet.getEligibilityAddress (wallet (deref miner st))) as [key|];
    [| done].
  cbn zeta. destruct (Nat.eqb _ _); [| done].
  cbn [fst]. unfold Spec.targetAllowed.
  destruct (_ <=? _); cbn [negb andb]; [| done].
  by destruct (Block.verifyProof b).
Qed.

Lemma isValidBlock_this b miner st :
  this (snd (isValidBlock b miner st)) = this st.
Proof.
  destruct miner as [miner|].
  - rewrite isValidBlock_Some. cbn zeta. by destruct (fst _).
  - by rewrite isValidBlock_None.
Qed.

(** C8, as amended.  For a block [b] and a sender [miner], the receiver
    reads the clock and checks the sender's eligibility against the
    target 2 - floor((currentTime - b.timestamp + 1000) / 2000): the
    elapsed time with one second added.  [isValidBlock] returns [true]
    exactly when that check returns [true] and [b.verifyProof()] holds;
    it returns [false] exactly when the check returns [false], or
    returns [true] while the proof fails.  The miner's state is the same
    afterwards in every case. *)
Theorem isValidBlock_spec (b : Block.t) (miner : Sender) (st : Sys) :
  let currentTime := Date_now (clockReads st) in
  let target := Spec.targetAllowed currentTime (Block.timestamp b) in
  let eligible := fst (isEligibileToMint (deref miner st) b target st) in
  let result := fst (isValidBlock b (Some miner) st) in
  this (snd (isValidBlock b (Some miner) st)) = this st
  /\ (result = Return true
      <-> eligible = Return true /\ Block.verifyProof b = true)
  /\ (result = Return false
      <-> eligible = Return false
          \/ (eligible = Return true /\ Block.verifyProof b = false)).
Proof.
  cbn zeta. split; [apply isValidBlock_this |].
  rewrite isValidBlock_Some. cbn zeta.
  destruct (fst (isEligibileToMint _ _ _ _)) as [[|]|e]; cbn [fst andb];
    destruct (Block.verifyProof b); split; split;
    first [ by intros [? ?] | by intros [?|[? ?]] | by intros ? | by auto ].
Qed.

(** *** Receiving a block *)

Lemma storeIfUnknown_run b st :
  Spec.storeIfUnknown b st
  = (Return tt,
     match previousBlocks (this st) !! Block.hashVal b with
     | Some _ => st
     | None => set_this (set_previousBlocks
                           (<[Block.hashVal b := b]> (previousBlocks (this st)))
                           (this st)) st
     end).
Proof.
  unfold Spec.storeIfUnknown. rewrite bind_get.
  destruct (previousBlocks (this st) !! Block.hashVal b) as [b'|].
  - by rewrite bool_decide_eq_true_2 by eauto.
  - rewrite bool_decide_eq_false_2; [done |]. by intros [? ?].
Qed.

Lemma storeIfUnknown_frame b st :
  let st' := snd (Spec.storeIfUnknown b st) in
  currentBlock (this st') = currentBlock (this st)
  /\ rewardAddress (this st') = rewardAddress (this st)
  /\ clockReads st' = clockReads st.
Proof.
  rewrite storeIfUnknown_run. cbn.
  by destruct (previousBlocks (this st) !! Block.hashVal b).
Qed.

Lemma snd_bind_ret {S A B} (m : M S A) (x : B) (s : S) :
  snd (bind m (fun _ => ret x) s) = snd (m s).
Proof. unfold bind. by destruct (m s) as [[a|e] s']. Qed.

(** [receiveBlock] on a block that passes validation. *)
Lemma receiveBlock_valid s miner st :
  let b := Block.deserialize s in
  fst (isValidBlock b miner st) = Return true ->
  let st1 := snd (Spec.storeIfUnknown b (snd (isValidBlock b miner st))) in
  receiveBlock s miner st =
    if (Block.chainLength (currentBlock (this st)) <=? Block.chainLength b)
       && negb (isThis miner)
    then bind (Spec.cutOver b) (fun _ => ret None) st1
    else (Return None, st1).
Proof.
  intros b Hvalid st1. unfold receiveBlock. fold b.
  rewrite (bind_Return _ _ st true Hvalid). cbn [negb].
  rewrite bind_get.
  assert (Hstore : forall (k : unit -> M Sys (option bool)),
    bind (match previousBlocks (this (snd (isValidBlock b miner st))) !! Block.hashVal b with
          | None => update (fun m => set_previousBlocks
                                       (<[Block.hashVal b := b]> (previousBlocks m)) m)
          | Some _ => ret tt
          end) k (snd (isValidBlock b miner st)) = k tt st1).
  { intros k. unfold st1. rewrite storeIfUnknown_run. cbn [snd].
    by destruct (previousBlocks _ !! _). }
  rewrite Hstore, bind_get.
  destruct (storeIfUnknown_frame b (snd (isValidBlock b miner st))) as (Hcur & _ & _).
  fold st1 in Hcur. rewrite Hcur, isValidBlock_this.
  destruct (_ && _); [| done].
  unfold Spec.cutOver.
  repeat (repeat rewrite bind_bind; rewrite bind_update; cbn beta).
  reflexivity.
Qed.

Lemma cutOver_currentBlock b st :
  currentBlock (this (snd (Spec.cutOver b st)))
  = Block.set_proof 0
      (Block.constructor (rewardAddress (this st)) b (Date_now (clockReads st))).
Proof.
  unfold Spec.cutOver. do 2 rewrite bind_update.
  by rewrite startNewSearch_currentBlock.
Qed.

Lemma betterChain_decide b miner st :
  (Block.chainLength (currentBlock (this st)) <=? Block.chainLength b)
  && negb (isThis miner) = true
  <-> Spec.betterChain b miner st.
Proof.
  unfold Spec.betterChain, Spec.currentChainLength.
  rewrite andb_true_iff, Z.leb_le, negb_true_iff.
  split; intros [Hlen Hself]; (split; [done |]).
  - intros ->. discriminate.
  - destruct miner as [[|m]|]; [by destruct Hself | done | done].
Qed.

(** No delivery makes the chain length of the current block decrease. *)
Lemma receiveBlock_monotone s miner st :
  Spec.currentChainLength st
  <= Spec.currentChainLength (snd (receiveBlock s miner st)).
Proof.
  unfold Spec.currentChainLength.
  destruct (fst (isValidBlock (Block.deserialize s) miner st)) as [[|]|e] eqn:Hvalid.
  - rewrite receiveBlock_valid by done.
    destruct (storeIfUnknown_frame (Block.deserialize s)
                (snd (isValidBlock (Block.deserialize s) miner st))) as (Hcur & _ & _).
    destruct (Z.leb_spec (Block.chainLength (currentBlock (this st)))
                         (Block.chainLength (Block.deserialize s))) as [Hle|Hgt];
      cbn [andb]; [destruct (negb (isThis miner)) |].
    + rewrite snd_bind_ret, cutOver_currentBlock. cbn. lia.
    + cbn [snd]. rewrite Hcur, isValidBlock_this. lia.
    + cbn [snd]. rewrite Hcur, isValidBlock_this. lia.
  - unfold receiveBlock. rewrite (bind_Return _ _ st false Hvalid).
    cbn [negb snd ret]. rewrite isValidBlock_this. lia.
  - unfold receiveBlock. rewrite (bind_Throw _ _ st e Hvalid).
    cbn [snd]. rewrite isValidBlock_this. lia.
Qed.

Lemma deliver_monotone msgs : forall st,
  Spec.currentChainLength st <= Spec.currentChainLength (Spec.deliver msgs st).
Proof.
  induction msgs as [|[s miner] msgs IH]; intros st; cbn [Spec.deliver].
  - lia.
  - etrans; [apply (receiveBlock_monotone s miner) | apply IH].
Qed.

(** C6.  Let [b] be a delivered block that passes validation, and [st1]
    the miner once [b] is stored.  If [b.chainLength] is at least the
    chain length of the current block and the sender is not the miner
    itself, [receiveBlock] goes on as the cut-over from [st1]: it sets
    [currentBlock = b], sets [shouldStartNewBlock] and calls
    [startNewSearch(true)], which leaves the miner working on a new block
    on top of [b].  Otherwise the state is [st1] and the current block is
    the one before.  In both cases, and along any sequence of
    deliveries, the chain length of the current block does not
    decrease. *)
Theorem receiveBlock_cutover (s : string) (miner : option Sender) (st : Sys) :
  let b := Block.deserialize s in
  let st' := snd (receiveBlock s miner st) in
  fst (isValidBlock b miner st) = Return true ->
  let st1 := snd (Spec.storeIfUnknown b (snd (isValidBlock b miner st))) in
  (Spec.betterChain b miner st ->
   st' = snd (Spec.cutOver b st1)
   /\ this st' = this (snd (startNewSearch true
                              (set_this (set_shouldStartNewBlock true
                                           (set_currentBlock b (this st1))) st1)))
   /\ (exists time,
         currentBlock (this st')
         = Block.set_proof 0 (Block.constructor (rewardAddress (this st)) b time))
   /\ Block.prevBlockHash (currentBlock (this st')) = Block.hashVal b
   /\ Spec.currentChainLength st' = Block.chainLength b + 1)
  /\ (~ Spec.betterChain b miner st ->
      st' = st1 /\ currentBlock (this st') = currentBlock (this st))
  /\ Spec.currentChainLength st <= Spec.currentChainLength st'
  /\ (forall msgs,
        Spec.currentChainLength st <= Spec.currentChainLength (Spec.deliver msgs st)).
Proof.
  intros b st' Hvalid st1.
  pose proof (receiveBlock_valid s miner st Hvalid) as Hrun.
  fold b st1 in Hrun.
  destruct (storeIfUnknown_frame b (snd (isValidBlock b miner st)))
    as (Hcur & Hreward & _).
  fold st1 in Hcur, Hreward. rewrite isValidBlock_this in Hcur, Hreward.
  split_and!.
  - intros Hbetter. apply betterChain_decide in Hbetter.
    unfold st'. rewrite Hrun, Hbetter, snd_bind_ret.
    assert (Hblock : currentBlock (this (snd (Spec.cutOver b st1)))
              = Block.set_proof 0
                  (Block.constructor (rewardAddress (this st)) b
                                     (Date_now (clockReads st1)))).
    { by rewrite cutOver_currentBlock, Hreward. }
    split_and!; [done | done | by eexists | by rewrite Hblock |].
    unfold Spec.currentChainLength. by rewrite Hblock.
  - intros Hworse. unfold st'. rewrite Hrun.
    destruct (_ && _) eqn:Hcond; [by apply betterChain_decide in Hcond |].
    done.
  - apply receiveBlock_monotone.
  - intros msgs. apply deliver_monotone.
Qed.

End MinerFacts.

Import Scenario.
Local Open Scope string_scope.

(** C7: the key ["---pub:K2"] against the previous-block hash ["3f2a"],
    target 2.  The 8-bit representations [00101101...] and [00110011...]
    share three leading bits, so the predicate with [bin16] holds; the
    code compares [101101...] with [110011...], which share one, and
    answers [false]. *)
Lemma isEligibileToMint_is_not_bin16 :
  Wallet.getEligibilityAddress (wallet mickey) = Some "---pub:K2"
  /\ Spec.bin16 "3f2a" = "0011001101100110"
  /\ Spec.bin16 "---pub:K2" = "0010110100101101"
  /\ Spec.isEligibleToMint "---pub:K2" "3f2a" 2 = true
  /\ text2Binary "3f2a" = "1100111100110110"
  /\ text2Binary "---pub:K2" = "1011011011011011"
  /\ isEligibileToMint mickey (blockOf "3f2a" 4 0) 2 tt = (Return false, tt).
Proof. repeat split; vm_compute; reflexivity. Qed.

(** With target 1 the same miner is eligible on the same block. *)
Lemma isEligibileToMint_spec_witness :
  isEligibileToMint mickey (blockOf "3f2a" 4 0) 1 tt = (Return true, tt).
Proof.
  destruct (isEligibileToMint_spec mickey (blockOf "3f2a" 4 0) 1 "---pub:K2" tt)
    as [Hsame _].
  - reflexivity.
  - rewrite Hsame; [| vm_compute; reflexivity].
    vm_compute; reflexivity.
Defined.

(** C8: a block stamped 0 arrives when the clock reads 1000, from a
    miner whose key shares one leading bit with the previous-block hash.
    No interval of 2000 ms has elapsed, so the target "base minus one per
    elapsed interval" is 2 and the miner is not eligible against it;
    [isValidBlock] accepts the block all the same, its target being 1. *)
Lemma isValidBlock_allows_one_second :
  Date_now (clockReads sys0) - Block.timestamp (blockOf "3f2a" 4 0) = 1000
  /\ Spec.targetAfter (Date_now (clockReads sys0))
                      (Block.timestamp (blockOf "3f2a" 4 0)) = 2
  /\ isEligibileToMint mickey (blockOf "3f2a" 4 0) 2 sys0 = (Return false, sys0)
  /\ Block.verifyProof (blockOf "3f2a" 4 0) = true
  /\ fst (isValidBlock (blockOf "3f2a" 4 0) (Some (Peer mickey)) sys0) = Return true.
Proof. repeat split; vm_compute; reflexivity. Qed.

(** The block ["3f2a"], of chain length 4, reaches a miner working at
    chain length 1 from another miner: the miner cuts over and works at
    chain length 5. *)
Lemma receiveBlock_cutover_witness :
  Spec.currentChainLength (snd (receiveBlock "3f2a" (Some (Peer mickey)) sys0)) = 5.
Proof.
  destruct (receiveBlock_cutover "3f2a" (Some (Peer mickey)) sys0) as (Hcut & _).
  - vm_compute; reflexivity.
  - destruct Hcut as (_ & _ & _ & _ & Hlen).
    + split; [vm_compute; discriminate | discriminate].
    + exact Hlen.
Defined.

End MinerFacts.

(** * Further properties of the code *)

Module TransactionMore.
Section TransactionMore.
Context `{Utils}.
Import Transaction.

Lemma index_fmap_Some {A} (a : list A) (i : Z) :
  mjoin (index (Some <$> a) i) = index a i.
Proof.
  unfold index. destruct (i <? 0); [done |].
  rewrite list_lookup_fmap. by destruct (a !! Z.to_nat i).
Qed.

Lemma referenced_ownView t input :
  txID input = id t ->
  Spec.referenced (Spec.ownView t) input = index (outputs t) (outputIndex input).
Proof.
  intros Hid. unfold Spec.referenced, Spec.ownView, UTXOs.
  rewrite Hid, lookup_singleton_eq. apply index_fmap_Some.
Qed.

(** X1.  [spendOutput] and [isValid] apply the same test.  On a transaction
    [t], [spendOutput(input)] returns exactly when the input carries the
    id of [t] and is authorized by the view that holds the outputs of [t];
    what it returns is then the amount of the output the input
    references in that view. *)
Theorem spendOutput_iff_authorized (t : Transaction.t) (input : Input)
    (a : Number.t) :
  fst (spendOutput input t) = Return a
  <-> txID input = id t
      /\ Spec.authorized (Spec.ownView t) input
      /\ amount <$> Spec.referenced (Spec.ownView t) input = Some a.
Proof.
  unfold spendOutput. run.
  destruct (String.eqb_spec (txID input) (id t)) as [Hid|Hid]; cbn [negb fst].
  2: { split; [discriminate | by intros [? _]]. }
  unfold Spec.authorized. rewrite (referenced_ownView t input Hid).
  destruct (index (outputs t) (outputIndex input)) as [o|] eqn:Ho; run.
  2: { split; [discriminate |]. by intros (_ & _ & ?). }
  destruct (String.eqb_spec (calcAddress (pubKey input)) (address o)) as [Ha|Ha];
    cbn [negb fst].
  2: { split; [discriminate |].
       intros (_ & (p & [= <-] & Hp & _) & _). congruence. }
  destruct (verifySignature (pubKey input) o (sig input)) eqn:Hv; cbn [negb fst].
  - split.
    + intros [= <-]. split; [done |]. split; [| done]. by exists o.
    + by intros (_ & _ & [= <-]).
  - split; [discriminate |].
    intros (_ & (p & [= <-] & _ & Hp) & _). congruence.
Qed.

Lemma totalOutput_run t :
  totalOutput t = (Return (Number.sum (Spec.amounts (outputs t))), t).
Proof. unfold totalOutput, bind, get, ret. by rewrite fold_amounts. Qed.

(** [addFee] on a transaction whose first output object is in no other
    slot. *)
Lemma addFee_sole t k r rest :
  slots t = r :: rest -> r ∉ rest ->
  outputs t = objects t r :: (objects t <$> rest)
  /\ addFee k t
     = (Return tt, snd (addFee k t))
  /\ outputs (snd (addFee k t))
     = {| amount := Number.add (amount (objects t r)) k;
          address := address (objects t r) |} :: (objects t <$> rest).
Proof.
  intros Hslots Hr. rewrite TransactionFacts.addFee_run. unfold outputs.
  rewrite Hslots. cbn [lookup list_lookup snd slots objects fmap list_fmap].
  rewrite Nat.eqb_refl. split_and!; [done | done |]. f_equal.
  apply list_eq. intros j. rewrite !list_lookup_fmap.
  destruct (rest !! j) as [r'|] eqn:Hj; [| done]. cbn.
  destruct (Nat.eqb_spec r' r) as [->|]; [| done].
  destruct Hr. apply list_elem_of_lookup. eauto.
Qed.

(** X2.  [totalOutput] returns the sum of the output amounts as the
    program adds them, from 0 and in order, and changes nothing.  On a
    transaction whose first output object is in no other slot of the
    array, with a fee and amounts that are non-negative integers summing
    to at most 2^53, [totalOutput] is the sum of the amounts and
    [addFee(k)] makes it grow by [k]. *)
Theorem totalOutput_addFee (t : Transaction.t) (k : Z) (r : nat) :
  slots t !! 0%nat = Some r ->
  (forall j : nat, j <> 0%nat -> slots t !! j <> Some r) ->
  Spec.naturals (Spec.amounts (outputs t)) ->
  0 <= k ->
  Spec.outputSum (outputs t) + k <= Spec.exactUpTo ->
  (forall t', totalOutput t' = (Return (Number.sum (Spec.amounts (outputs t'))), t'))
  /\ totalOutput t = (Return (Number.Int (Spec.outputSum (outputs t))), t)
  /\ fst (addFee k t) = Return tt
  /\ totalOutput (snd (addFee k t))
     = (Return (Number.Int (Spec.outputSum (outputs t) + k)), snd (addFee k t)).
Proof.
  intros Hr Hsole Hnat Hk Hsum.
  split; [apply totalOutput_run |].
  pose proof (outputSum_nonneg _ Hnat) as Hpos.
  assert (Hexact : forall t',
            Spec.naturals (Spec.amounts (outputs t')) ->
            Spec.outputSum (outputs t') <= Spec.exactUpTo ->
            totalOutput t' = (Return (Number.Int (Spec.outputSum (outputs t'))), t')).
  { intros t' Hnat' Hsum'. rewrite totalOutput_run, outputSum_total in *.
    by rewrite NumberFacts.sum_exact. }
  split; [apply Hexact; [done | lia] |].
  destruct (slots t) as [|r0 rest] eqn:Hslots; [done |].
  injection Hr as ->.
  assert (Hnotin : r ∉ rest).
  { intros [j Hj]%list_elem_of_lookup. by apply (Hsole (S j)). }
  destruct (addFee_sole t k r rest Hslots Hnotin) as (Hbefore & Hrun & Hafter).
  rewrite Hrun. cbn [fst]. split; [done |].
  rewrite Hbefore in Hnat, Hsum, Hpos.
  cbn [Spec.amounts fmap list_fmap Spec.outputSum] in Hnat, Hsum, Hpos.
  apply Forall_cons in Hnat as [Hfirst Hnat].
  pose proof (outputSum_nonneg _ Hnat) as Hposrest.
  destruct (amount (objects t r)) as [a| | |] eqn:Ha; cbn in Hfirst; try done.
  cbn [Number.value] in *.
  assert (Hsum' : Spec.outputSum (outputs (snd (addFee k t)))
                  = Spec.outputSum (outputs t) + k).
  { rewrite Hafter, Hbefore. cbn [Spec.outputSum amount].
    rewrite Ha. rewrite NumberFacts.add_exact by lia. cbn [Number.value]. lia. }
  cbn [snd]. rewrite <- Hsum'. apply Hexact.
  - rewrite Hafter. cbn [Spec.amounts fmap list_fmap amount].
    rewrite NumberFacts.add_exact by lia.
    apply Forall_cons. split; [cbn; lia | done].
  - rewrite Hsum', Hbefore. cbn [Spec.outputSum]. rewrite Ha.
    cbn [Number.value]. lia.
Qed.

(** X3.  [isValid] counts an input as often as it is listed: with
    amounts that are non-negative integers in the exact range, a
    transaction that lists one authorized input twice is valid exactly
    when its outputs sum to at most twice the referenced amount. *)
Theorem isValid_counts_repeated_input (view : UTXOs) (input : Input)
    (prevOut : Output) (outs : list Output) :
  Spec.referenced view input = Some prevOut ->
  Spec.authorized view input ->
  Number.natural (amount prevOut) ->
  Spec.naturals (Spec.amounts outs) ->
  2 * Number.value (amount prevOut) <= Spec.exactUpTo ->
  Spec.outputSum outs <= Spec.exactUpTo ->
  fst (isValid view (constructor outs [input; input]))
  = Return (bool_decide (Spec.outputSum outs <= 2 * Number.value (amount prevOut))).
Proof.
  intros Href Hauth Hprev Hnat Hin Hout. rewrite TransactionFacts.isValid_run.
  apply TransactionFacts.authorizedb_spec in Hauth.
  rewrite TransactionFacts.outputs_constructor.
  cbn [fst inputs constructor forallb].
  rewrite Hauth. cbn [andb]. f_equal.
  assert (Hrefs : Spec.referencedAmounts view [input; input]
                  = [amount prevOut; amount prevOut]).
  { unfold Spec.referencedAmounts. cbn [omap list_omap]. by rewrite Href. }
  rewrite Hrefs, outputSum_total in *.
  rewrite TransactionFacts.ltb_sums;
    [| by repeat apply Forall_cons_2 | done
     | cbn [Number.total]; lia | done ].
  cbn [Number.total].
  destruct (Z.ltb_spec (Number.value (amount prevOut)
                        + (Number.value (amount prevOut) + 0))
                       (Number.total (Spec.amounts outs))); cbn [negb].
  - rewrite bool_decide_eq_false_2; [done | lia].
  - rewrite bool_decide_eq_true_2; [done | lia].
Qed.

End TransactionMore.

Import Scenario Transaction.

Lemma totalOutput_addFee_witness :
  totalOutput (snd (addFee 3 tx)) = (Return (Number.Int 70), snd (addFee 3 tx)).
Proof.
  destruct (totalOutput_addFee tx 3 0%nat) as (_ & _ & _ & Hgrown).
  - reflexivity.
  - intros [|[|j]] Hj; [done | discriminate | discriminate].
  - repeat constructor; vm_compute; discriminate.
  - lia.
  - vm_compute; discriminate.
  - exact Hgrown.
Defined.

(** Output 1 of [tx], worth 25, listed twice pays for outputs of 50. *)
Lemma isValid_counts_repeated_input_witness :
  fst (isValid (Spec.ownView tx)
         (constructor [{| amount := 50; address := A |}] [spending 1 K1; spending 1 K1]))
  = Return true.
Proof.
  rewrite (isValid_counts_repeated_input (Spec.ownView tx) (spending 1 K1)
             {| amount := 25; address := A |}).
  - reflexivity.
  - vm_compute; reflexivity.
  - exists {| amount := 25; address := A |}.
    repeat split; vm_compute; reflexivity.
  - cbn; lia.
  - repeat constructor; cbn; lia.
  - vm_compute; discriminate.
  - vm_compute; discriminate.
Defined.

End TransactionMore.

Module WalletMore.
Section WalletMore.
Context `{Utils}.
Import Wallet.

Lemma hasKey_lookupKey a w :
  hasKey a w = true <-> is_Some (lookupKey a (addresses w)).
Proof. unfold hasKey. apply bool_decide_eq_true. Qed.

Lemma accumulated_app w ls1 ls2 :
  Spec.accumulated w (ls1 ++ ls2) = Spec.accumulated w ls1 + Spec.accumulated w ls2.
Proof. induction ls1 as [|l ls1 IH]; cbn [app Spec.accumulated]; lia. Qed.

(** What is known of a call of [spendUTXOs] that returned. *)
Lemma spendUTXOs_Return w requested r w' :
  Spec.consistent w ->
  spendUTXOs requested w = (Return r, w') ->
  exists k : nat,
    inputs r = take k (coins w)
    /\ changeAmt r = Number.opp (Spec.remaining w requested (take k (coins w)))
    /\ coins w' = drop k (coins w)
    /\ addresses w' = addresses w
    /\ eligibility_address w' = eligibility_address w
    /\ fresh w' = fresh w
    /\ (forall j, (j < k)%nat ->
        Number.gtb (Spec.remaining w requested (take j (coins w))) 0 = true)
    /\ (forall l, l ∈ take k (coins w) ->
        exists c o kp,
          store w !! l = Some c /\ coin_output c = Some o
          /\ lookupKey (address o) (addresses w) = Some kp
          /\ store w' !! l = Some (Spec.signedCoin c o kp))
    /\ (forall l, l ∉ take k (coins w) -> store w' !! l = store w !! l).
Proof.
  intros Hw Hrun.
  destruct (WalletFacts.spendUTXOs_run w requested Hw) as [Hthrow Hspend].
  destruct (Number.gtb requested (Number.sum (Spec.held w <$> coins w))) eqn:Hgt.
  - rewrite (Hthrow eq_refl) in Hrun. discriminate.
  - destruct (Hspend eq_refl)
      as (k & w1 & Heq & Hcoins & Haddr & Helig & Hfresh & Hbelow & _ & Hsigned & Hrest).
    rewrite Heq in Hrun. injection Hrun as <- <-.
    exists k. by split_and!.
Qed.

(** The same in the exact range. *)
Lemma spendUTXOs_Return_exact w (requested : Z) r w' :
  Spec.consistent w -> Spec.safe w ->
  spendUTXOs requested w = (Return r, w') ->
  exists k : nat,
    inputs r = take k (coins w)
    /\ changeAmt r = Number.Int (Spec.accumulated w (take k (coins w)) - requested)
    /\ 0 <= Spec.accumulated w (take k (coins w)) - requested
    /\ coins w' = drop k (coins w)
    /\ (forall l, l ∈ take k (coins w) ->
        exists c o kp,
          store w !! l = Some c /\ coin_output c = Some o
          /\ lookupKey (address o) (addresses w) = Some kp
          /\ store w' !! l = Some (Spec.signedCoin c o kp))
    /\ (forall l, l ∉ take k (coins w) -> store w' !! l = store w !! l).
Proof.
  intros Hw Hsafe Hrun.
  destruct (WalletFacts.spendUTXOs_exact w requested Hw Hsafe)
    as (bal & _ & -> & Hthrow & Hspend).
  destruct (Z.lt_ge_cases (Spec.accumulated w (coins w)) requested) as [Hlt|Hge].
  - rewrite (Hthrow Hlt) in Hrun. discriminate.
  - destruct (Hspend Hge)
      as (k & w1 & Heq & Hcoins & _ & Hchange & _ & Hsigned & Hrest).
    rewrite Heq in Hrun. injection Hrun as <- <-.
    exists k. by split_and!.
Qed.

(** What is left of a wallet in the exact range is in the exact range. *)
Lemma safe_drop w w' k :
  Spec.consistent w -> Spec.safe w ->
  coins w' = drop k (coins w) ->
  (forall l, l ∉ take k (coins w) -> store w' !! l = store w !! l) ->
  Spec.safe w'
  /\ Spec.accumulated w' (coins w')
     = Spec.accumulated w (coins w) - Spec.accumulated w (take k (coins w)).
Proof.
  intros [Hnd _] [Hnat Hsum] Hcoins Hrest.
  assert (Hsame : Spec.held w' <$> drop k (coins w) = Spec.held w <$> drop k (coins w)).
  { apply WalletFacts.helds_ext. intros l Hl. apply Hrest. intros Hin.
    rewrite <- (take_drop k (coins w)) in Hnd.
    apply NoDup_app in Hnd as (_ & Hdisj & _). by apply (Hdisj l). }
  assert (Hacc : Spec.accumulated w (coins w)
                 = Spec.accumulated w (take k (coins w))
                   + Spec.accumulated w (drop k (coins w))).
  { rewrite <- (take_drop k (coins w)) at 1. apply accumulated_app. }
  pose proof (WalletFacts.accumulated_take_le w (coins w) k Hnat) as Htake.
  assert (Hdrop : Spec.accumulated w' (coins w') = Spec.accumulated w (drop k (coins w))).
  { by rewrite Hcoins, !WalletFacts.accumulated_total, Hsame. }
  split; [split |].
  - rewrite Hcoins, Hsame. rewrite <- (take_drop k (coins w)), fmap_app in Hnat.
    by apply Forall_app in Hnat as [_ ?].
  - rewrite Hdrop. lia.
  - rewrite Hdrop. lia.
Qed.

(** X4.  [addUTXO] throws UnknownAddress exactly when [hasKey] denies the
    address of the output, and the wallet is then as before; otherwise it
    returns, with a new coin object holding the three arguments at the
    front of the queue, all other coin objects and all key pairs being as
    before. *)
Theorem addUTXO_checks_key (w : Wallet.t) (utxo : Output) (txID : string)
    (outputIndex : Z) :
  (hasKey (address utxo) w = false ->
   addUTXO utxo txID outputIndex w = (Throw UnknownAddress, w))
  /\ (hasKey (address utxo) w = true ->
      exists w',
        addUTXO utxo txID outputIndex w = (Return tt, w')
        /\ coins w' = fresh w :: coins w
        /\ addresses w' = addresses w
        /\ store w' !! fresh w
           = Some {| coin_output := Some utxo; coin_txID := txID;
                     coin_outputIndex := outputIndex;
                     coin_pubKey := None; coin_sig := None |}
        /\ forall l, l <> fresh w -> store w' !! l = store w !! l).
Proof.
  rewrite WalletFacts.addUTXO_run. split; intros ->; [done |].
  eexists. split; [done |]. cbn. split_and!; try done.
  - by rewrite lookup_insert_eq.
  - intros l Hl. by rewrite lookup_insert_ne.
Qed.

(** X5.  [makeAddress] returns the hash of the new public key; afterwards the
    wallet has that address, with the new key pair, and every address it
    had before, with the key pair it had; the queue is untouched. *)
Theorem makeAddress_adds_key (w : Wallet.t) (kp : KeyPair) :
  exists w',
    makeAddress kp w = (Return (calcAddress (public kp)), w')
    /\ hasKey (calcAddress (public kp)) w' = true
    /\ lookupKey (calcAddress (public kp)) (addresses w') = Some kp
    /\ (forall a, hasKey a w = true -> hasKey a w' = true)
    /\ (forall a, a <> calcAddress (public kp) ->
        lookupKey a (addresses w') = lookupKey a (addresses w))
    /\ coins w' = coins w
    /\ store w' = store w.
Proof.
  eexists. split; [reflexivity |]. cbn.
  assert (Hnew : lookupKey (calcAddress (public kp))
                   (setKey (calcAddress (public kp)) kp (addresses w)) = Some kp).
  { by rewrite WalletFacts.lookupKey_setKey, String.eqb_refl. }
  split_and!; try done.
  - apply hasKey_lookupKey. cbn. by rewrite Hnew.
  - intros a Ha. apply hasKey_lookupKey. apply hasKey_lookupKey in Ha. cbn.
    by apply WalletFacts.lookupKey_setKey_is_Some.
  - intros a Hne. rewrite WalletFacts.lookupKey_setKey.
    by destruct (String.eqb_spec a (calcAddress (public kp))).
Qed.

(** X6.  On a wallet built by the methods that has the key of the
    address, [addUTXO] makes the balance grow by the amount of the
    output, when the amounts are non-negative integers and the new
    balance is at most 2^53. *)
Theorem addUTXO_balance (w : Wallet.t) (utxo : Output) (txID : string)
    (outputIndex : Z) (a : Z) :
  Spec.reachable w ->
  hasKey (address utxo) w = true ->
  Spec.safe w ->
  amount utxo = a -> 0 <= a ->
  Spec.accumulated w (coins w) + a <= Spec.exactUpTo ->
  exists bal : Z,
    balance w = (Return (Number.Int bal), w)
    /\ fst (balance (snd (addUTXO utxo txID outputIndex w)))
       = Return (Number.Int (bal + a)).
Proof.
  intros Hreach Hkey Hsafe Ha Hpos Hsum.
  pose proof (WalletFacts.reachable_consistent w Hreach) as Hw.
  pose proof (WalletFacts.consistent_addUTXO w utxo txID outputIndex Hw) as Hw'.
  pose proof (WalletFacts.helds_addUTXO w utxo txID outputIndex Hw Hkey) as Hheld.
  exists (Spec.accumulated w (coins w)).
  split; [by apply WalletFacts.balance_exact |].
  destruct Hsafe as [Hnat _].
  rewrite WalletFacts.balance_exact; [| done |].
  - cbn [fst]. rewrite WalletFacts.accumulated_total, Hheld, Ha.
    cbn [Number.total Number.value]. rewrite <- WalletFacts.accumulated_total.
    do 2 f_equal. lia.
  - split.
    + rewrite Hheld, Ha. by apply Forall_cons.
    + rewrite WalletFacts.accumulated_total, Hheld, Ha.
      cbn [Number.total Number.value]. rewrite <- WalletFacts.accumulated_total. lia.
Qed.

(** X7.  A spend takes out of the balance what was requested and the
    change: on a wallet built by the methods whose coins hold
    non-negative integers that sum to at most 2^53, after [spendUTXOs]
    has returned for an integer request, the balance is the balance
    before minus the requested amount minus [changeAmt]. *)
Theorem spendUTXOs_balance (w w' : Wallet.t) (requested : Z) (r : Spent) :
  Spec.reachable w ->
  Spec.safe w ->
  spendUTXOs requested w = (Return r, w') ->
  exists bal change : Z,
    balance w = (Return (Number.Int bal), w)
    /\ changeAmt r = Number.Int change
    /\ balance w' = (Return (Number.Int (bal - requested - change)), w').
Proof.
  intros Hreach Hsafe Hrun.
  pose proof (WalletFacts.reachable_consistent w Hreach) as Hw.
  pose proof (WalletFacts.consistent_spendUTXOs w requested Hw) as Hw'.
  rewrite Hrun in Hw'. cbn [snd] in Hw'.
  destruct (spendUTXOs_Return_exact w requested r w' Hw Hsafe Hrun)
    as (k & _ & Hchange & _ & Hcoins & _ & Hrest).
  destruct (safe_drop w w' k Hw Hsafe Hcoins Hrest) as [Hsafe' Hacc].
  exists (Spec.accumulated w (coins w)),
         (Spec.accumulated w (take k (coins w)) - requested).
  split; [by apply WalletFacts.balance_exact |]. split; [done |].
  rewrite (WalletFacts.balance_exact w' Hw' Hsafe'), Hacc. do 3 f_equal. lia.
Qed.

(** X8.  A request that is not above 0 and not above the balance consumes
    nothing: [spendUTXOs] returns no input and the negated request as
    change, and the wallet is as before.  On a wallet built by the
    methods whose coins hold non-negative integers, however large, that
    is so for every integer request that is not above 0. *)
Theorem spendUTXOs_nothing_requested (w : Wallet.t) (requested : Number.t) :
  (forall bal,
     balance w = (Return bal, w) ->
     Number.gtb requested bal = false ->
     Number.gtb requested 0 = false ->
     spendUTXOs requested w
     = (Return {| inputs := []; changeAmt := Number.opp requested |}, w))
  /\ (forall z : Z,
        requested = z ->
        Spec.reachable w ->
        Spec.naturals (Spec.held w <$> coins w) ->
        z <= 0 ->
        spendUTXOs requested w
        = (Return {| inputs := []; changeAmt := Number.Int (- z) |}, w)).
Proof.
  assert (Hcode : forall bal,
     balance w = (Return bal, w) ->
     Number.gtb requested bal = false ->
     Number.gtb requested 0 = false ->
     spendUTXOs requested w
     = (Return {| inputs := []; changeAmt := Number.opp requested |}, w)).
  { intros bal Hbal Hle Hneg. unfold spendUTXOs. unfold bind at 1.
    rewrite Hbal, Hle. unfold bind at 1, get at 1. unfold bind at 1.
    assert (Hloop : spendLoop (coins w) requested [] w = (Return (requested, []), w)).
    { destruct (coins w) as [|l cs]; [done |]. cbn [spendLoop]. by rewrite Hneg. }
    by rewrite Hloop. }
  split; [exact Hcode |].
  intros z -> Hreach Hnat Hz.
  pose proof (WalletFacts.reachable_consistent w Hreach) as Hw.
  destruct (WalletFacts.balance_nonnegative w Hw Hnat) as (bal & Hbal & Hnn).
  rewrite (Hcode bal Hbal); [done | |].
  - destruct bal as [b| | |]; cbn in Hnn; try done.
    apply Z.ltb_ge. lia.
  - apply Z.ltb_ge. lia.
Qed.

(** X9.  [spendUTXOsFully] does to the wallet what [spendUTXOs] does and
    returns the same inputs, without the change. *)
Theorem spendUTXOsFully_as_spendUTXOs (w : Wallet.t) (amount : Number.t) :
  spendUTXOsFully amount w =
    match spendUTXOs amount w with
    | (Return r, w') => (Return (inputs r), w')
    | (Throw e, w') => (Throw e, w')
    end.
Proof.
  unfold spendUTXOsFully, spendUTXOs, bind.
  destruct (balance w) as [[bal|e] w0]; [| done].
  destruct (Number.gtb amount bal); [done |].
  unfold get. destruct (spendLoop (coins w0) amount [] w0) as [[[a needed]|e] w1]; [| done].
  by destruct (removeNeeded needed w1) as [[[]|e] w2].
Qed.

(** X10.  [saveElibilityProof] records the public key stored under the address
    added last, or the empty string in a wallet without addresses, and
    touches nothing else; so after [makeAddress] has added an address the
    wallet did not have, the recorded key is the new public key. *)
Theorem saveElibilityProof_last_key (w : Wallet.t) (kp : KeyPair) :
  getEligibilityAddress (snd (saveElibilityProof w))
  = Some (default ""%string (public <$> (snd <$> last (addresses w))))
  /\ coins (snd (saveElibilityProof w)) = coins w
  /\ addresses (snd (saveElibilityProof w)) = addresses w
  /\ (hasKey (calcAddress (public kp)) w = false ->
      getEligibilityAddress (snd (saveElibilityProof (snd (makeAddress kp w))))
      = Some (public kp)).
Proof.
  assert (Hfold : forall (m : list (string * KeyPair)) (acc : string),
            fold_left (fun _ k => public (snd k)) m acc
            = default acc (public <$> (snd <$> last m))).
  { induction m as [|e m IH]; intros acc; [done |].
    cbn [fold_left]. rewrite IH. destruct m as [|e' m]; [done |].
    rewrite last_cons_cons.
    destruct (last (e' :: m)) eqn:Hlast; [done |].
    by apply last_None in Hlast. }
  assert (Hsave : forall w0, getEligibilityAddress (snd (saveElibilityProof w0))
            = Some (default ""%string (public <$> (snd <$> last (addresses w0))))).
  { intros w0. cbn. by rewrite Hfold. }
  split_and!; [apply Hsave | done | done |].
  intros Hnew. rewrite Hsave. cbn [snd makeAddress bind modify ret addresses set_addresses].
  assert (Hnone : lookupKey (calcAddress (public kp)) (addresses w) = None).
  { apply eq_None_not_Some. intros Hs. apply hasKey_lookupKey in Hs. congruence. }
  assert (Happend : forall m a, lookupKey a m = None -> setKey a kp m = m ++ [(a, kp)]).
  { induction m as [|[b kb] m IH]; intros a Ha; [done |].
    cbn [lookupKey setKey] in *. destruct (String.eqb a b); [done |].
    by rewrite IH. }
  cbn. rewrite (Happend _ _ Hnone), last_snoc. done.
Qed.

Lemma keysMatch_setKey a kp m :
  a = calcAddress (public kp) ->
  Forall (fun e : string * KeyPair => fst e = calcAddress (public (snd e))) m ->
  Forall (fun e : string * KeyPair => fst e = calcAddress (public (snd e)))
         (setKey a kp m).
Proof.
  intros Ha. induction 1 as [|[b kb] m Hb Hm IH]; cbn [setKey].
  - by repeat constructor.
  - destruct (String.eqb a b); constructor; done.
Qed.

Lemma lookupKey_keysMatch a kp m :
  Forall (fun e : string * KeyPair => fst e = calcAddress (public (snd e))) m ->
  lookupKey a m = Some kp -> a = calcAddress (public kp).
Proof.
  induction 1 as [|[b kb] m Hb Hm IH]; cbn [lookupKey]; [done |].
  destruct (String.eqb_spec a b) as [->|]; [| done].
  by intros [= <-].
Qed.

Lemma keysMatch_reachable (w : Wallet.t) :
  Spec.reachable w -> Spec.keysMatch w.
Proof.
  unfold Spec.keysMatch. induction 1 as [|w kp Hw IH|w u tx i Hw IH|w a Hw IH|w Hw IH].
  - constructor.
  - cbn. by apply keysMatch_setKey.
  - rewrite WalletFacts.addUTXO_run. by destruct (hasKey _ _).
  - apply WalletFacts.reachable_consistent in Hw.
    destruct (spendUTXOs a w) as [[r|e] w'] eqn:Hrun.
    + destruct (spendUTXOs_Return w a r w' Hw Hrun) as (k & _ & _ & _ & Haddr & _).
      cbn [snd]. by rewrite Haddr.
    + destruct (WalletFacts.spendUTXOs_run w a Hw) as [Hthrow Hspend].
      destruct (Number.gtb a (Number.sum (Spec.held w <$> coins w))) eqn:Hgt.
      * rewrite (Hthrow eq_refl) in Hrun. by injection Hrun as _ <-.
      * destruct (Hspend eq_refl) as (k & w1 & Heq & _). congruence.
  - done.
Qed.

(** X11.  In every wallet built by the methods, each address is the hash of
    the public key stored under it. *)
Theorem reachable_keysMatch (w : Wallet.t) :
  Spec.reachable w -> Spec.keysMatch w.
Proof. apply keysMatch_reachable. Qed.

(** The inputs read from signed coin objects. *)
Lemma inputsOf_signed view w w' (ls : list ref) :
  Spec.keysMatch w -> Spec.keysSign w ->
  Forall (Spec.backed view w) ls ->
  (forall l, l ∈ ls ->
     exists c o kp,
       store w !! l = Some c /\ coin_output c = Some o
       /\ lookupKey (address o) (addresses w) = Some kp
       /\ store w' !! l = Some (Spec.signedCoin c o kp)) ->
  Forall (Spec.authorized view) (Spec.inputsOf w' ls)
  /\ Spec.referencedAmounts view (Spec.inputsOf w' ls) = Spec.held w <$> ls
  /\ length (Spec.inputsOf w' ls) = length ls.
Proof.
  intros Hmatch Hsign. induction ls as [|l ls IH]; intros Hback Hsigned.
  - by repeat split.
  - apply Forall_cons in Hback as [Hl Hback].
    destruct (Hsigned l) as (c & o & kp & Hc & Ho & Hk & Hs); [left |].
    destruct IH as (IHa & IHs & IHl); [done | |].
    { intros l' Hl'. apply Hsigned. by right. }
    specialize (Hl c o Hc Ho).
    assert (Href : Spec.referenced view (Miner.asInput (Spec.signedCoin c o kp)) = Some o)
      by exact Hl.
    unfold Spec.inputsOf in *. cbn [omap list_omap]. rewrite Hs. cbn [fmap option_fmap option_map].
    split_and!.
    + apply Forall_cons. split; [| done].
      exists o. split; [done |]. split.
      * cbn. by apply (lookupKey_keysMatch _ _ (addresses w)).
      * cbn. by apply (Hsign (address o)).
    + unfold Spec.referencedAmounts in *. cbn [omap list_omap list_fmap].
      rewrite Href. cbn [fmap option_fmap option_map]. f_equal; [| exact IHs].
      unfold Spec.held. by rewrite Hc, Ho.
    + cbn [length]. by rewrite IHl.
Qed.


(** X13.  The wallet does not hand out a coin twice: after [spendUTXOs] has
    returned, the consumed coin objects are out of the queue, and a second
    call returns none of them. *)
Theorem spendUTXOs_never_twice (w w1 w2 : Wallet.t)
    (requested1 requested2 : Number.t) (r1 r2 : Spent) :
  Spec.reachable w ->
  spendUTXOs requested1 w = (Return r1, w1) ->
  spendUTXOs requested2 w1 = (Return r2, w2) ->
  forall l, l ∈ inputs r1 -> (l ∉ coins w1) /\ (l ∉ inputs r2).
Proof.
  intros Hreach Hrun1 Hrun2 l Hl.
  pose proof (WalletFacts.reachable_consistent w Hreach) as Hw.
  pose proof (WalletFacts.consistent_spendUTXOs w requested1 Hw) as Hw1.
  rewrite Hrun1 in Hw1. cbn [snd] in Hw1.
  destruct (spendUTXOs_Return w requested1 r1 w1 Hw Hrun1) as (k1 & Hin1 & _ & Hcoins1 & _).
  destruct (spendUTXOs_Return w1 requested2 r2 w2 Hw1 Hrun2) as (k2 & Hin2 & _).
  destruct Hw as [Hnd _]. rewrite <- (take_drop k1 (coins w)) in Hnd.
  apply NoDup_app in Hnd as (_ & Hdisj & _).
  rewrite Hin1 in Hl. specialize (Hdisj l Hl). rewrite <- Hcoins1 in Hdisj.
  split; [done |]. rewrite Hin2. intros Hin. apply Hdisj.
  by eapply elem_of_take_elem.
Qed.

End WalletMore.

Import Scenario Wallet.

Lemma keysSign_wallet2 : Spec.keysSign wallet2.
Proof.
  intros a kp o Hk.
  change (addresses wallet2) with [(A, K1)] in Hk. cbn [lookupKey] in Hk.
  destruct (String.eqb a A); [| discriminate]. injection Hk as <-.
  apply String.eqb_refl.
Defined.

Lemma backed_wallet2 : Forall (Spec.backed (Spec.ownView tx) wallet2) (coins wallet2).
Proof.
  repeat constructor; intros c o Hc Ho; vm_compute in Hc; injection Hc as <-;
    injection Ho as <-; vm_compute; reflexivity.
Defined.

Lemma addUTXO_checks_key_witness :
  addUTXO {| amount := 7; address := "nobody" |} "tx" 0 wallet2
  = (Throw UnknownAddress, wallet2).
Proof.
  destruct (addUTXO_checks_key wallet2 {| amount := 7; address := "nobody" |} "tx" 0)
    as [Hunknown _].
  apply Hunknown. vm_compute; reflexivity.
Defined.

Lemma addUTXO_balance_witness :
  fst (balance (snd (addUTXO {| amount := 7; address := A |} "tx" 0 wallet2)))
  = Return (Number.Int 74).
Proof.
  destruct (addUTXO_balance wallet2 {| amount := 7; address := A |} "tx" 0 7)
    as (bal & Hbal & Hnew).
  - exact WalletFacts.reachable_wallet2.
  - vm_compute; reflexivity.
  - exact WalletFacts.safe_wallet2.
  - reflexivity.
  - lia.
  - vm_compute; discriminate.
  - rewrite Hnew. do 2 f_equal.
    assert (Hb : fst (balance wallet2) = Return (Number.Int bal)) by (by rewrite Hbal).
    vm_compute in Hb. injection Hb as <-. reflexivity.
Defined.

Lemma spendUTXOs_balance_witness :
  fst (balance (snd (spendUTXOs 20 wallet2))) = Return (Number.Int 42).
Proof.
  destruct (spendUTXOs 20 wallet2) as [[r|e] w'] eqn:Hrun;
    [| vm_compute in Hrun; discriminate].
  destruct (spendUTXOs_balance wallet2 w' 20 r WalletFacts.reachable_wallet2
              WalletFacts.safe_wallet2 Hrun)
    as (bal & change & Hbal & Hchange & Hnew).
  cbn [snd]. rewrite Hnew. cbn [fst]. do 2 f_equal.
  assert (Hb : fst (balance wallet2) = Return (Number.Int bal)) by (by rewrite Hbal).
  vm_compute in Hb. injection Hb as <-.
  vm_compute in Hrun. injection Hrun as <- _.
  cbn in Hchange. injection Hchange as <-. reflexivity.
Defined.

Lemma spendUTXOs_nothing_requested_witness :
  spendUTXOs 0 wallet2 = (Return {| inputs := []; changeAmt := 0 |}, wallet2).
Proof.
  destruct (spendUTXOs_nothing_requested wallet2 0) as [_ Hnat].
  apply (Hnat 0 eq_refl WalletFacts.reachable_wallet2).
  - apply WalletFacts.safe_wallet2.
  - lia.
Defined.

Lemma saveElibilityProof_last_key_witness :
  getEligibilityAddress (snd (saveElibilityProof (snd (makeAddress K2 wallet2))))
  = Some (public K2).
Proof.
  destruct (saveElibilityProof_last_key wallet2 K2) as (_ & _ & _ & Hnew).
  apply Hnew. vm_compute; reflexivity.
Defined.

Lemma reachable_keysMatch_witness : Spec.keysMatch wallet2.
Proof. exact (reachable_keysMatch wallet2 WalletFacts.reachable_wallet2). Defined.


Lemma spendUTXOs_never_twice_witness :
  (1%nat ∉ coins (snd (spendUTXOs 20 wallet2)))
  /\ (1%nat ∉ inputs {| inputs := [0%nat]; changeAmt := 32 |}).
Proof.
  apply (spendUTXOs_never_twice wallet2 (snd (spendUTXOs 20 wallet2))
           (snd (spendUTXOs 10 (snd (spendUTXOs 20 wallet2)))) 20 10
           {| inputs := [1%nat]; changeAmt := 5 |}
           {| inputs := [0%nat]; changeAmt := 32 |}
           WalletFacts.reachable_wallet2).
  - vm_compute; reflexivity.
  - vm_compute; reflexivity.
  - left.
Defined.

End WalletMore.

Module MinerMore.

Import Miner.

(** *** The binarized strings *)

Lemma length_string_of_list (l : list ascii) :
  String.length (string_of_list_ascii l) = length l.
Proof. induction l as [|c l IH]; cbn; [done | by rewrite IH]. Qed.

Lemma length_bitsBelow n len : length (Spec.bitsBelow n len) = len.
Proof. unfold Spec.bitsBelow. by rewrite length_map, length_rev, length_seq. Qed.

Lemma length_concat_digits (cs : list ascii) :
  (length cs <= length (concat (map (fun c => list_ascii_of_string
                                       (Spec.shortestBinary (N_of_ascii c))) cs)))%nat.
Proof.
  induction cs as [|c cs IH]; cbn [map concat length]; [done |].
  rewrite length_app. unfold Spec.shortestBinary at 1.
  rewrite list_ascii_of_string_of_list_ascii, length_bitsBelow. lia.
Qed.

Lemma length_list_ascii (s : string) :
  length (list_ascii_of_string s) = String.length s.
Proof. induction s as [|c s IH]; cbn; [done | by rewrite IH]. Qed.

Lemma binarized_length (s : string) :
  (String.length (Spec.binarized s) <= 16)%nat
  /\ ((16 <= String.length s)%nat -> String.length (Spec.binarized s) = 16%nat)
  /\ (String.length (Spec.binarized s) = 0%nat <-> s = ""%string).
Proof.
  unfold Spec.binarized.
  rewrite length_string_of_list, length_take.
  pose proof (length_concat_digits (list_ascii_of_string s)) as Hlen.
  rewrite length_list_ascii in Hlen.
  split_and!; [lia | lia |].
  split.
  - intros Hz. destruct s as [|c s]; [done |]. cbn [String.length] in Hlen. lia.
  - by intros ->.
Qed.

(** X14.  [text2Binary] never yields more than 16 characters, and yields 16 as
    soon as the string has 16 code units; it yields none only for the
    empty string. *)
Theorem text2Binary_length (s : string) :
  (String.length (text2Binary s) <= 16)%nat
  /\ ((16 <= String.length s)%nat -> String.length (text2Binary s) = 16%nat)
  /\ (String.length (text2Binary s) = 0%nat <-> s = ""%string).
Proof. rewrite MinerFacts.text2Binary_binarized. apply binarized_length. Qed.

(** *** The count of leading equal characters *)

Lemma matchingPrefixBits_spec (x : string) : forall y,
  0 <= Spec.matchingPrefixBits x y <= Z.of_nat (String.length x)
  /\ (forall i, (i < Z.to_nat (Spec.matchingPrefixBits x y))%nat ->
      String.get i x = String.get i y)
  /\ (String.length x = String.length y ->
      Spec.matchingPrefixBits x y < Z.of_nat (String.length x) ->
      String.get (Z.to_nat (Spec.matchingPrefixBits x y)) x
      <> String.get (Z.to_nat (Spec.matchingPrefixBits x y)) y).
Proof.
  induction x as [|a x IH]; intros [|b y]; cbn [Spec.matchingPrefixBits String.length].
  - split_and!; [lia | lia | intros i Hi; cbn in Hi; lia | lia].
  - split_and!; [lia | lia | intros i Hi; cbn in Hi; lia | cbn; lia].
  - split_and!; [lia | lia | intros i Hi; cbn in Hi; lia | discriminate].
  - destruct (IH y) as ((Hlo & Hhi) & Heq & Hne).
    destruct (Ascii.eqb_spec a b) as [->|Hab].
    + replace (Z.to_nat (1 + Spec.matchingPrefixBits x y))
        with (S (Z.to_nat (Spec.matchingPrefixBits x y))) by lia.
      split_and!; [lia | lia | |].
      * intros [|i] Hi; cbn [String.get]; [done |]. apply Heq. lia.
      * intros Hlen Hlt. cbn [String.get]. apply Hne; [by injection Hlen | lia].
    + split_and!; [lia | lia | intros i Hi; cbn in Hi; lia |].
      intros _ _. change (Some a <> Some b). congruence.
Qed.

Lemma matchingPrefixBits_refl (x : string) :
  Spec.matchingPrefixBits x x = Z.of_nat (String.length x).
Proof.
  induction x as [|a x IH]; cbn [Spec.matchingPrefixBits String.length]; [done |].
  rewrite Ascii.eqb_refl, IH. lia.
Qed.

(** X15.  [countMatchingBits] throws exactly when the lengths differ, and
    otherwise returns the place of the first difference: the strings agree
    at every index below the result, and differ at the result unless it is
    their length. *)
Theorem countMatchingBits_first_difference {S} (string1 string2 : string) (st : S) :
  (String.length string1 <> String.length string2 ->
   countMatchingBits string1 string2 st = (Throw StringLengthMismatch, st))
  /\ (String.length string1 = String.length string2 ->
      exists n : nat,
        countMatchingBits string1 string2 st = (Return (Z.of_nat n), st)
        /\ (n <= String.length string1)%nat
        /\ (forall i, (i < n)%nat -> String.get i string1 = String.get i string2)
        /\ ((n < String.length string1)%nat ->
            String.get n string1 <> String.get n string2)
        /\ (n = String.length string1 <-> string1 = string2)).
Proof.
  rewrite MinerFacts.countMatchingBits_run. split; intros Hlen.
  - apply Nat.eqb_neq in Hlen. by rewrite Hlen.
  - destruct (matchingPrefixBits_spec string1 string2) as ((Hlo & Hhi) & Heq & Hne).
    exists (Z.to_nat (Spec.matchingPrefixBits string1 string2)).
    rewrite Z2Nat.id by done. apply Nat.eqb_eq in Hlen as Hlenb. rewrite Hlenb.
    split_and!; [done | lia | done | intros Hlt; apply Hne; [done | lia] |].
    split.
    + intros Hn. rewrite Hn in Heq.
      clear -Heq Hlen. revert string2 Heq Hlen.
      induction string1 as [|a x IH]; intros [|b y] Heq Hlen; try discriminate; [done |].
      pose proof (Heq 0%nat ltac:(cbn; lia)) as H0. cbn in H0. injection H0 as <-.
      f_equal. apply IH; [| by injection Hlen].
      intros i Hi. apply (Heq (S i)). cbn. lia.
    + intros <-. rewrite matchingPrefixBits_refl. lia.
Qed.

(** *** Eligibility and the target *)

Lemma isEligibileToMint_mono {S} (miner : Miner.t) (b : Block.t)
    (target target' : Z) (st : S) :
  fst (isEligibileToMint miner b target st) = Return true ->
  target' <= target ->
  fst (isEligibileToMint miner b target' st) = Return true.
Proof.
  rewrite !MinerFacts.isEligibileToMint_run.
  destruct (Wallet.getEligibilityAddress (wallet miner)) as [key|]; [| done].
  cbn zeta. destruct (Nat.eqb _ _); cbn [fst]; [| done].
  intros [= Ht] Hle. apply Z.leb_le in Ht. f_equal. apply Z.leb_le. lia.
Qed.

(** X16.  Lowering the target never takes eligibility away: a miner eligible
    for a target is eligible for every lower one; whenever the check
    returns, it returns [true] for a target of 0 or less and [false] for
    a target above 16. *)
Theorem isEligibileToMint_target {S} (miner : Miner.t) (b : Block.t)
    (target target' : Z) (st : S) :
  (fst (isEligibileToMint miner b target st) = Return true ->
   target' <= target ->
   isEligibileToMint miner b target' st = (Return true, st))
  /\ (forall e, fst (isEligibileToMint miner b target st) = Return e ->
      (target <= 0 -> e = true) /\ (16 < target -> e = false)).
Proof.
  rewrite !MinerFacts.isEligibileToMint_run.
  destruct (Wallet.getEligibilityAddress (wallet miner)) as [key|].
  2: { split; [discriminate | intros e; discriminate]. }
  cbn zeta.
  destruct (matchingPrefixBits_spec (Spec.binarized (Block.prevBlockHash b))
              (Spec.binarized key)) as ((Hlo & Hhi) & _).
  assert (Hlen : (String.length (Spec.binarized (Block.prevBlockHash b)) <= 16)%nat)
    by apply binarized_length.
  destruct (Nat.eqb _ _); cbn [fst].
  2: { split; [discriminate | intros e; discriminate]. }
  split.
  - intros [= Ht] Hle. apply Z.leb_le in Ht. do 2 f_equal. apply Z.leb_le. lia.
  - intros e [= <-]. split; intros Ht.
    + apply Z.leb_le. lia.
    + apply Z.leb_gt. lia.
Qed.

(** X17.  On a previous-block hash and an eligibility key of 16 code units or
    more, the check does not throw. *)
Theorem isEligibileToMint_returns {S} (miner : Miner.t) (b : Block.t)
    (target : Z) (key : string) (st : S) :
  Wallet.getEligibilityAddress (wallet miner) = Some key ->
  (16 <= String.length key)%nat ->
  (16 <= String.length (Block.prevBlockHash b))%nat ->
  isEligibileToMint miner b target st
  = (Return (bool_decide
               (target <= Spec.matchingPrefixBits
                            (Spec.binarized (Block.prevBlockHash b))
                            (Spec.binarized key))), st).
Proof.
  intros Hkey Hk Hb. rewrite MinerFacts.isEligibileToMint_run, Hkey. cbn zeta.
  destruct (binarized_length key) as (_ & Hk16 & _).
  destruct (binarized_length (Block.prevBlockHash b)) as (_ & Hb16 & _).
  rewrite (Hk16 Hk), (Hb16 Hb), Nat.eqb_refl. do 2 f_equal.
  destruct (Z.leb_spec target (Spec.matchingPrefixBits
                                 (Spec.binarized (Block.prevBlockHash b))
                                 (Spec.binarized key))).
  - by rewrite bool_decide_eq_true_2.
  - rewrite bool_decide_eq_false_2; [done | lia].
Qed.

Lemma bitsBelow_head n :
  n <> 0%N ->
  exists rest, Spec.bitsBelow n (S (N.to_nat (N.log2 n))) = "1"%char :: rest.
Proof.
  intros Hn. unfold Spec.bitsBelow. rewrite seq_S, rev_app_distr. cbn [rev app map Nat.add].
  rewrite N2Nat.id, N.bit_log2 by done. by eexists.
Qed.

Lemma binarized_head c s :
  c <> zero ->
  exists rest, Spec.binarized (String c s) = String "1" rest.
Proof.
  intros Hc. unfold Spec.binarized. cbn [list_ascii_of_string map concat].
  unfold Spec.shortestBinary at 1. rewrite list_ascii_of_string_of_list_ascii.
  destruct (bitsBelow_head (N_of_ascii c)) as [rest ->].
  { intros Hz. apply Hc. rewrite <- (ascii_N_embedding c), Hz. reflexivity. }
  cbn. by eexists.
Qed.

(** X18.  A previous-block hash and an eligibility key that do not start with
    the code unit 0 always share their first binary digit, a 1: when
    their binarized forms have the same length, the miner is eligible
    for every target up to 1. *)
Theorem isEligibileToMint_target_one {S} (miner : Miner.t) (b : Block.t)
    (target : Z) (c1 c2 : ascii) (key' hash' : string) (st : S) :
  Wallet.getEligibilityAddress (wallet miner) = Some (String c1 key') ->
  Block.prevBlockHash b = String c2 hash' ->
  c1 <> zero -> c2 <> zero ->
  String.length (Spec.binarized (String c2 hash'))
  = String.length (Spec.binarized (String c1 key')) ->
  target <= 1 ->
  isEligibileToMint miner b target st = (Return true, st).
Proof.
  intros Hkey Hhash Hc1 Hc2 Hlen Ht.
  rewrite MinerFacts.isEligibileToMint_run, Hkey, Hhash. cbn zeta.
  apply Nat.eqb_eq in Hlen as Hlenb. rewrite Hlenb.
  destruct (binarized_head c1 key' Hc1) as [r1 ->].
  destruct (binarized_head c2 hash' Hc2) as [r2 ->].
  cbn [Spec.matchingPrefixBits]. rewrite Ascii.eqb_refl.
  destruct (matchingPrefixBits_spec r2 r1) as ((Hlo & _) & _).
  do 2 f_equal. apply Z.leb_le. lia.
Qed.

Lemma isEligibileToMint_returns_witness :
  isEligibileToMint Scenario.donald (Scenario.blockOf "0123456789abcdef" 1 0) 2 tt
  = (Return false, tt).
Proof.
  rewrite (isEligibileToMint_returns Scenario.donald
             (Scenario.blockOf "0123456789abcdef" 1 0) 2
             "---pub:0000000000000000" tt).
  - vm_compute; reflexivity.
  - vm_compute; reflexivity.
  - vm_compute; lia.
  - vm_compute; lia.
Defined.

Lemma isEligibileToMint_target_one_witness :
  isEligibileToMint Scenario.miner0 (Scenario.blockOf "3f2a" 1 0) 1 tt
  = (Return true, tt).
Proof.
  apply (isEligibileToMint_target_one Scenario.miner0 (Scenario.blockOf "3f2a" 1 0) 1
           "-" "3" "--pub:K1" "f2a" tt).
  - vm_compute; reflexivity.
  - reflexivity.
  - discriminate.
  - discriminate.
  - vm_compute; reflexivity.
  - lia.
Defined.

End MinerMore.

Module MinerRun.

Import Miner.
Import MinerFacts.

(** *** The addresses of a wallet stay *)

Section Addresses.
Context `{Utils}.

Lemma forM_state {S A B} (body : B -> A -> M S B) (P : S -> S -> Prop) :
  (forall s, P s s) -> (forall s1 s2 s3, P s1 s2 -> P s2 s3 -> P s1 s3) ->
  (forall acc x s, P s (snd (body acc x s))) ->
  forall l acc s, P s (snd (forM body l acc s)).
Proof.
  intros Hrefl Htrans Hbody. induction l as [|x l IH]; intros acc s; cbn [forM].
  - apply Hrefl.
  - unfold bind. specialize (Hbody acc x s).
    destruct (body acc x s) as [[acc'|e] s']; cbn [snd] in *; [| done].
    eapply Htrans; [exact Hbody | apply IH].
Qed.

Lemma spendCoin_addresses l w :
  Wallet.addresses (snd (Wallet.spendCoin l w)) = Wallet.addresses w.
Proof.
  unfold Wallet.spendCoin. run.
  destruct (Wallet.store w !! l) as [c|]; run; [| done].
  destruct (Wallet.coin_output c) as [o|]; run; [| done].
  by destruct (Wallet.lookupKey _ _).
Qed.

Lemma spendLoop_addresses cs : forall amount needed w,
  Wallet.addresses (snd (Wallet.spendLoop cs amount needed w)) = Wallet.addresses w.
Proof.
  induction cs as [|l cs IH]; intros amount needed w; cbn [Wallet.spendLoop]; [done |].
  destruct (Number.gtb amount 0); [| done].
  unfold bind. pose proof (spendCoin_addresses l w) as Hl.
  destruct (Wallet.spendCoin l w) as [[a|e] w']; cbn [snd] in *; [| done].
  by rewrite IH.
Qed.

(** No call of [spendUTXOs], whatever the wallet and however it ends,
    changes the key pairs. *)
Lemma spendUTXOs_addresses amount w :
  Wallet.addresses (snd (Wallet.spendUTXOs amount w)) = Wallet.addresses w.
Proof.
  unfold Wallet.spendUTXOs, bind.
  assert (Hbal : snd (Wallet.balance w) = w).
  { unfold Wallet.balance, bind, get.
    apply (forM_state _ (fun s s' => s' = s)); [done | congruence |].
    intros acc l s. destruct (Wallet.store w !! l) as [c|]; [| done].
    cbn. unfold bind. by destruct (Wallet.coin_output c). }
  destruct (Wallet.balance w) as [[bal|e] w0]; cbn [snd] in Hbal; subst w0; [| done].
  destruct (Number.gtb amount bal); [done |]. unfold get.
  pose proof (spendLoop_addresses (Wallet.coins w) amount [] w) as Hloop.
  destruct (Wallet.spendLoop _ _ _ _) as [[[a needed]|e] w1]; cbn [snd] in *; [| done].
  assert (Hrem : Wallet.addresses (snd (Wallet.removeNeeded needed w1))
                 = Wallet.addresses w1).
  { unfold Wallet.removeNeeded.
    apply (forM_state _ (fun s s' => Wallet.addresses s' = Wallet.addresses s));
      [done | congruence | done]. }
  destruct (Wallet.removeNeeded needed w1) as [[[]|e] w2]; unfold ret;
    cbn [snd] in *; congruence.
Qed.

End Addresses.

Section MinerRun.
Context `{Utils} `{Block.Ops} `{Env}.

Ltac steps :=
  repeat (repeat rewrite bind_bind;
          first [rewrite bind_ret | rewrite bind_get | rewrite bind_update
                | rewrite bind_now];
          cbn beta zeta);
  repeat rewrite bind_bind.

(** *** What keeps the chain in place *)

Lemma settled_refl s : Spec.settled s s.
Proof. by split. Qed.

Lemma settled_trans s1 s2 s3 :
  Spec.settled s1 s2 -> Spec.settled s2 s3 -> Spec.settled s1 s3.
Proof. intros [Hc1 Hk1] [Hc2 Hk2]. split; [congruence | auto]. Qed.

Lemma keepsChain_bind {A B} (m : M Sys A) (k : A -> M Sys B) :
  Spec.keepsChain m -> (forall a, Spec.keepsChain (k a)) -> Spec.keepsChain (bind m k).
Proof.
  intros Hm Hk s. unfold bind. specialize (Hm s).
  destruct (m s) as [[a|e] s']; cbn [snd] in *; [| done].
  eapply settled_trans; [exact Hm | apply Hk].
Qed.

Lemma keepsChain_ret {A} (a : A) : Spec.keepsChain (ret a).
Proof. intros s. apply settled_refl. Qed.

Lemma keepsChain_get : Spec.keepsChain get.
Proof. intros s. apply settled_refl. Qed.

Lemma keepsChain_defined {A} (o : option A) : Spec.keepsChain (defined o).
Proof. intros s. destruct o; apply settled_refl. Qed.

Lemma keepsChain_emit e : Spec.keepsChain (emit e).
Proof. intros s. by split. Qed.

Lemma keepsChain_onWallet {A} (m : M Wallet.t A) :
  (forall w a, Wallet.hasKey a w = true -> Wallet.hasKey a (snd (m w)) = true) ->
  Spec.keepsChain (onWallet m).
Proof.
  intros Hm s. unfold onWallet, zoom. specialize (Hm (wallet (this s))).
  destruct (m _) as [c w']. by split.
Qed.

Lemma hasKey_addresses a w w' :
  Wallet.addresses w' = Wallet.addresses w ->
  Wallet.hasKey a w = true -> Wallet.hasKey a w' = true.
Proof. unfold Wallet.hasKey. by intros ->. Qed.

Lemma keepsChain_wallet_makeAddress : Spec.keepsChain wallet_makeAddress.
Proof.
  intros s. unfold wallet_makeAddress.
  eapply settled_trans; [| apply keepsChain_onWallet].
  - by split.
  - intros w a Ha. apply WalletMore.hasKey_lookupKey.
    apply WalletMore.hasKey_lookupKey in Ha. cbn.
    by apply WalletFacts.lookupKey_setKey_is_Some.
Qed.

Lemma keepsChain_update (f : Miner.t -> Miner.t) :
  (forall m, Spec.chainOf (f m) = Spec.chainOf m /\ wallet (f m) = wallet m) ->
  Spec.keepsChain (update f).
Proof.
  intros Hf s. destruct (Hf (this s)) as [Hc Hw]. split; [exact Hc |].
  cbn. by rewrite Hw.
Qed.

Lemma keepsChain_forM {A B} (body : B -> A -> M Sys B) (l : list A) :
  (forall acc x, Spec.keepsChain (body acc x)) ->
  forall acc, Spec.keepsChain (forM body l acc).
Proof.
  intros Hbody acc s.
  apply (forM_state body Spec.settled settled_refl settled_trans).
  intros acc' x s'. apply Hbody.
Qed.

Lemma keepsChain_isEligibileToMint miner b target :
  Spec.keepsChain (isEligibileToMint miner b target).
Proof.
  intros s. rewrite isEligibileToMint_run.
  destruct (Wallet.getEligibilityAddress _); [| apply settled_refl].
  cbn zeta. destruct (Nat.eqb _ _); apply settled_refl.
Qed.

Lemma keepsChain_postTransaction outputs : Spec.keepsChain (postTransaction outputs).
Proof.
  unfold postTransaction.
  apply keepsChain_bind; [| intros r].
  { apply keepsChain_onWallet. intros w a.
    apply hasKey_addresses, spendUTXOs_addresses. }
  apply keepsChain_bind.
  { destruct (Number.gtb (Wallet.changeAmt r) 0); [| apply keepsChain_ret].
    apply keepsChain_bind; [apply keepsChain_wallet_makeAddress |].
    intros a. apply keepsChain_ret. }
  intros outputs'.
  apply keepsChain_bind; [apply keepsChain_get | intros s].
  apply keepsChain_bind; [| intros ins; apply keepsChain_emit].
  apply keepsChain_forM. intros acc l.
  apply keepsChain_bind; [apply keepsChain_defined |].
  intros c. apply keepsChain_ret.
Qed.

Lemma keepsChain_eligibility (reuse : bool) :
  Spec.keepsChain
    (s <- get ;;
     eligible <- isEligibileToMint (this s) (currentBlock (this s))
                                   (mint_elegibility_diff_dyn (this s)) ;;
     if eligible then update (set_shouldMine true)
     else
       update (set_shouldMine false) ;;
       update (fun m => set_mint_elegibility_diff_dyn
                          (mint_elegibility_diff_dyn m - 1) m) ;;
       emit (SetTimeout_startNewSearch reuse TIME_UNTIL_ELIGIBILITY_DECREASE)).
Proof.
  apply keepsChain_bind; [apply keepsChain_get | intros s].
  apply keepsChain_bind; [apply keepsChain_isEligibileToMint | intros [|]].
  - by apply keepsChain_update.
  - apply keepsChain_bind; [by apply keepsChain_update | intros _].
    apply keepsChain_bind; [by apply keepsChain_update | intros _].
    apply keepsChain_emit.
Qed.

(** *** [startNewSearch] *)

Lemma bind_wallet_makeAddress {B} (k : string -> M Sys B) (s : Sys) :
  bind wallet_makeAddress k s
  = k (calcAddress (public (keypair (keysDrawn s))))
      {| this := set_wallet
                   (snd (Wallet.makeAddress (keypair (keysDrawn s)) (wallet (this s))))
                   (this s);
         clockReads := clockReads s; keysDrawn := S (keysDrawn s);
         effects := effects s |}.
Proof. reflexivity. Qed.

Lemma startNewSearch_chain (reuse : bool) (st : Sys) :
  shouldStartNewBlock (this st) = true ->
  let parent := currentBlock (this st) in
  let reward := if reuse then rewardAddress (this st)
                else calcAddress (public (keypair (keysDrawn st))) in
  let st' := snd (startNewSearch reuse st) in
  Spec.chainOf (this st')
  = (Block.set_proof 0 (Block.constructor reward parent (Date_now (clockReads st))),
     <[Block.hashVal parent := parent]> (previousBlocks (this st)),
     reward)
  /\ (reuse = false -> Wallet.hasKey reward (wallet (this st')) = true).
Proof.
  intros Hnew parent reward st'.
  unfold st', startNewSearch.
  rewrite (bind_Return _ _ st tt) by reflexivity.
  rewrite bind_get. cbn [snd onWallet zoom Wallet.saveElibilityProof].
  set (st1 := snd (onWallet Wallet.saveElibilityProof st)).
  change (shouldStartNewBlock (this st1)) with (shouldStartNewBlock (this st)).
  rewrite Hnew. repeat rewrite bind_bind. rewrite bind_update. cbn beta.
  assert (Htail : forall k : string -> M Sys unit,
            (forall a, Spec.keepsChain (k a)) ->
            Spec.keepsChain (bind wallet_makeAddress k)).
  { intros k Hk. by apply keepsChain_bind; [apply keepsChain_wallet_makeAddress |]. }
  destruct reuse; cbn [negb].
  - steps.
    lazymatch goal with
    | |- context [bind wallet_makeAddress ?k ?s] =>
        assert (Hk : forall a, Spec.keepsChain (k a));
        [| destruct (Htail k Hk s) as [Hc _]]
    end.
    { intros a. apply keepsChain_bind; [apply keepsChain_postTransaction | intros _].
      apply keepsChain_eligibility. }
    rewrite Hc. split; [reflexivity | discriminate].
  - repeat rewrite bind_bind. rewrite bind_wallet_makeAddress. cbn beta.
    steps.
    lazymatch goal with
    | |- context [bind wallet_makeAddress ?k ?s] =>
        assert (Hk : forall a, Spec.keepsChain (k a));
        [| destruct (Htail k Hk s) as [Hc Hkeys]]
    end.
    { intros a. apply keepsChain_bind; [apply keepsChain_postTransaction | intros _].
      apply keepsChain_eligibility. }
    rewrite Hc. split; [reflexivity |]. intros _. apply Hkeys.
    apply WalletMore.hasKey_lookupKey. cbn.
    rewrite WalletFacts.lookupKey_setKey, String.eqb_refl. eauto.
Qed.

(** X19.  With [shouldStartNewBlock] set, [startNewSearch] stores the block the
    miner had under its hash and goes on with a new block on top of it,
    for the old reward address if that is to be reused and else for a new
    address, which the wallet holds; this is so whether the call then
    returns or throws. *)
Theorem startNewSearch_new_block (reuse : bool) (st : Sys) :
  shouldStartNewBlock (this st) = true ->
  let parent := currentBlock (this st) in
  let reward := if reuse then rewardAddress (this st)
                else calcAddress (public (keypair (keysDrawn st))) in
  let st' := snd (startNewSearch reuse st) in
  currentBlock (this st')
  = Block.set_proof 0 (Block.constructor reward parent (Date_now (clockReads st)))
  /\ Block.chainLength (currentBlock (this st')) = Block.chainLength parent + 1
  /\ Block.prevBlockHash (currentBlock (this st')) = Block.hashVal parent
  /\ Block.proof (currentBlock (this st')) = 0
  /\ previousBlocks (this st') = <[Block.hashVal parent := parent]> (previousBlocks (this st))
  /\ rewardAddress (this st') = reward
  /\ (reuse = false -> Wallet.hasKey reward (wallet (this st')) = true).
Proof.
  intros Hnew parent reward st'.
  destruct (startNewSearch_chain reuse st Hnew) as [Hchain Hkey].
  fold parent reward st' in Hchain, Hkey.
  unfold Spec.chainOf in Hchain. injection Hchain as Hcur Hprev Hreward.
  rewrite Hcur. by split_and!.
Qed.

Lemma saved_key (w : Wallet.t) :
  Wallet.getEligibilityAddress (snd (Wallet.saveElibilityProof w))
  = Some (Spec.eligibilityKey w).
Proof.
  unfold Spec.eligibilityKey. cbn. f_equal.
  generalize (""%string). induction (Wallet.addresses w) as [|e m IH]; intros acc; [done |].
  cbn [fold_left]. rewrite IH. destruct m as [|e' m]; [done |].
  rewrite last_cons_cons.
  destruct (last (e' :: m)) eqn:Hlast; [done |].
  by apply last_None in Hlast.
Qed.

(** [startNewSearch] when no new block is to be started. *)
Lemma startNewSearch_same_block (reuse : bool) (st : Sys) :
  shouldStartNewBlock (this st) = false ->
  let m1 := set_wallet (snd (Wallet.saveElibilityProof (wallet (this st)))) (this st) in
  startNewSearch reuse st =
    match fst (isEligibileToMint m1 (currentBlock m1)
                 (mint_elegibility_diff_dyn m1) st) with
    | Return true => (Return tt, set_this (set_shouldMine true m1) st)
    | Return false =>
        (Return tt,
         {| this := set_mint_elegibility_diff_dyn (mint_elegibility_diff_dyn m1 - 1)
                      (set_shouldMine false m1);
            clockReads := clockReads st; keysDrawn := keysDrawn st;
            effects := SetTimeout_startNewSearch reuse TIME_UNTIL_ELIGIBILITY_DECREASE
                       :: effects st |})
    | Throw e => (Throw e, set_this m1 st)
    end.
Proof.
  intros Hold m1. unfold startNewSearch.
  rewrite (bind_Return _ _ st tt) by reflexivity.
  rewrite bind_get. cbn [snd onWallet zoom Wallet.saveElibilityProof].
  set (st1 := snd (onWallet Wallet.saveElibilityProof st)).
  change (shouldStartNewBlock (this st1)) with (shouldStartNewBlock (this st)).
  rewrite Hold. steps. change (this st1) with m1.
  unfold bind at 1. rewrite !isEligibileToMint_run.
  destruct (Wallet.getEligibilityAddress (wallet m1)); [| done].
  cbn zeta. destruct (Nat.eqb _ _); [| done].
  cbn [fst]. by destruct (_ <=? _).
Qed.

(** One run of [startNewSearch] on the block the miner has. *)
Lemma startNewSearch_again (reuse : bool) (st : Sys) :
  shouldStartNewBlock (this st) = false ->
  let st' := snd (startNewSearch reuse st) in
  let key := Spec.eligibilityKey (wallet (this st)) in
  let matching := Spec.matchingPrefixBits
                    (Spec.binarized (Block.prevBlockHash (currentBlock (this st))))
                    (Spec.binarized key) in
  Spec.chainOf (this st') = Spec.chainOf (this st)
  /\ Wallet.coins (wallet (this st')) = Wallet.coins (wallet (this st))
  /\ Wallet.addresses (wallet (this st')) = Wallet.addresses (wallet (this st))
  /\ Wallet.getEligibilityAddress (wallet (this st')) = Some key
  /\ shouldStartNewBlock (this st') = false
  /\ keysDrawn st' = keysDrawn st /\ clockReads st' = clockReads st
  /\ (String.length (Spec.binarized (Block.prevBlockHash (currentBlock (this st))))
      = String.length (Spec.binarized key) ->
      if bool_decide (mint_elegibility_diff_dyn (this st) <= matching)
      then fst (startNewSearch reuse st) = Return tt
           /\ shouldMine (this st') = true
           /\ mint_elegibility_diff_dyn (this st') = mint_elegibility_diff_dyn (this st)
           /\ effects st' = effects st
      else fst (startNewSearch reuse st) = Return tt
           /\ shouldMine (this st') = false
           /\ mint_elegibility_diff_dyn (this st')
              = mint_elegibility_diff_dyn (this st) - 1
           /\ effects st'
              = SetTimeout_startNewSearch reuse TIME_UNTIL_ELIGIBILITY_DECREASE
                :: effects st).
Proof.
  intros Hold st' key matching. unfold st'.
  rewrite (startNewSearch_same_block reuse st Hold). cbn zeta.
  rewrite isEligibileToMint_run.
  cbn [wallet set_wallet currentBlock mint_elegibility_diff_dyn].
  rewrite saved_key. cbn zeta. fold key.
  destruct (Nat.eqb_spec
              (String.length (Spec.binarized (Block.prevBlockHash (currentBlock (this st)))))
              (String.length (Spec.binarized key))) as [Hlen|Hlen]; cbn [fst].
  - fold matching.
    destruct (Z.leb_spec (mint_elegibility_diff_dyn (this st)) matching) as [Hle|Hgt].
    + rewrite bool_decide_eq_true_2 by done. cbn.
      split_and!; try done. apply (saved_key (wallet (this st))).
    + rewrite bool_decide_eq_false_2 by lia. cbn.
      split_and!; try done. apply (saved_key (wallet (this st))).
  - cbn. split_and!; try done. apply (saved_key (wallet (this st))).
Qed.

(** X20.  Without a new block to start, [startNewSearch] leaves the chain, the
    queue and the key pairs of the wallet alone and draws neither key nor
    clock; it records the eligibility key.  If the miner is eligible it
    sets [shouldMine] and schedules nothing; if not, it clears
    [shouldMine], lowers the target by one and schedules one retry, with
    the same flag, after TIME_UNTIL_ELIGIBILITY_DECREASE. *)
Theorem startNewSearch_retry (reuse : bool) (st : Sys) :
  shouldStartNewBlock (this st) = false ->
  let st' := snd (startNewSearch reuse st) in
  let key := Spec.eligibilityKey (wallet (this st)) in
  let matching := Spec.matchingPrefixBits
                    (Spec.binarized (Block.prevBlockHash (currentBlock (this st))))
                    (Spec.binarized key) in
  Spec.chainOf (this st') = Spec.chainOf (this st)
  /\ Wallet.coins (wallet (this st')) = Wallet.coins (wallet (this st))
  /\ Wallet.addresses (wallet (this st')) = Wallet.addresses (wallet (this st))
  /\ Wallet.getEligibilityAddress (wallet (this st')) = Some key
  /\ shouldStartNewBlock (this st') = false
  /\ keysDrawn st' = keysDrawn st /\ clockReads st' = clockReads st
  /\ (String.length (Spec.binarized (Block.prevBlockHash (currentBlock (this st))))
      = String.length (Spec.binarized key) ->
      if bool_decide (mint_elegibility_diff_dyn (this st) <= matching)
      then fst (startNewSearch reuse st) = Return tt
           /\ shouldMine (this st') = true
           /\ mint_elegibility_diff_dyn (this st') = mint_elegibility_diff_dyn (this st)
           /\ effects st' = effects st
      else fst (startNewSearch reuse st) = Return tt
           /\ shouldMine (this st') = false
           /\ mint_elegibility_diff_dyn (this st')
              = mint_elegibility_diff_dyn (this st) - 1
           /\ effects st'
              = SetTimeout_startNewSearch reuse TIME_UNTIL_ELIGIBILITY_DECREASE
                :: effects st).
Proof. exact (startNewSearch_again reuse st). Qed.

(** X21.  The retries end.  Let the miner have no new block to start, and let
    its eligibility key and the previous-block hash binarize to the same
    length, with [matching] leading equal characters.  From a target [d],
    the first max(0, d - matching) runs of [startNewSearch] leave
    [shouldMine] cleared and lower the target by one each; the next run
    sets [shouldMine]. *)
Theorem startNewSearch_eventually_eligible (reuse : bool) (st : Sys) :
  shouldStartNewBlock (this st) = false ->
  let key := Spec.eligibilityKey (wallet (this st)) in
  let cbh := Spec.binarized (Block.prevBlockHash (currentBlock (this st))) in
  let matching := Spec.matchingPrefixBits cbh (Spec.binarized key) in
  let failures := Z.to_nat (mint_elegibility_diff_dyn (this st) - matching) in
  String.length cbh = String.length (Spec.binarized key) ->
  (forall j, (1 <= j <= failures)%nat ->
     shouldMine (this (Spec.attempts j reuse st)) = false
     /\ mint_elegibility_diff_dyn (this (Spec.attempts j reuse st))
        = mint_elegibility_diff_dyn (this st) - Z.of_nat j)
  /\ shouldMine (this (Spec.attempts (S failures) reuse st)) = true
  /\ mint_elegibility_diff_dyn (this (Spec.attempts (S failures) reuse st))
     = mint_elegibility_diff_dyn (this st) - Z.of_nat failures
  /\ currentBlock (this (Spec.attempts (S failures) reuse st)) = currentBlock (this st).
Proof.
  intros Hold key cbh matching failures Hlen.
  remember failures as n eqn:Hn. unfold failures in Hn. clear failures.
  revert st Hold key cbh matching Hlen Hn.
  induction n as [|n IH]; intros st Hold key cbh matching Hlen Hn.
  - destruct (startNewSearch_again reuse st Hold)
      as (Hchain & _ & _ & _ & _ & _ & _ & Hrun).
    specialize (Hrun Hlen). fold key cbh matching in Hrun.
    rewrite bool_decide_eq_true_2 in Hrun by lia.
    destruct Hrun as (_ & Hmine & Hd & _).
    cbn [Spec.attempts]. split_and!; [lia | done | lia |].
    unfold Spec.chainOf in Hchain. by injection Hchain.
  - destruct (startNewSearch_again reuse st Hold)
      as (Hchain & _ & Haddr & _ & Hold' & _ & _ & Hrun).
    specialize (Hrun Hlen). fold key cbh matching in Hrun.
    rewrite bool_decide_eq_false_2 in Hrun by lia.
    destruct Hrun as (_ & Hmine & Hd & _).
    set (st1 := snd (startNewSearch reuse st)) in *.
    assert (Hcur : currentBlock (this st1) = currentBlock (this st)).
    { unfold Spec.chainOf in Hchain. by injection Hchain. }
    assert (Hkey : Spec.eligibilityKey (wallet (this st1)) = key).
    { unfold Spec.eligibilityKey. by rewrite Haddr. }
    destruct (IH st1 Hold') as (Hfail & Hmine' & Hd' & Hcur').
    { by rewrite Hkey, Hcur. }
    { rewrite Hkey, Hcur, Hd. fold key cbh matching. lia. }
    change (Spec.attempts (S (S n)) reuse st) with (Spec.attempts (S n) reuse st1).
    split_and!.
    + intros [|[|j]] Hj; [lia | |].
      * cbn [Spec.attempts]. fold st1. split; [done | lia].
      * change (Spec.attempts (S (S j)) reuse st) with (Spec.attempts (S j) reuse st1).
        destruct (Hfail (S j)) as [Hm Hdd]; [lia |]. split; [done | lia].
    + done.
    + lia.
    + congruence.
Qed.

(** *** [isValidBlock] and [receiveBlock] *)

Lemma fst_isEligibileToMint {S S'} miner b target (st : S) (st' : S') :
  fst (isEligibileToMint miner b target st) = fst (isEligibileToMint miner b target st').
Proof.
  rewrite !isEligibileToMint_run.
  destruct (Wallet.getEligibilityAddress _); [| done].
  cbn zeta. by destruct (Nat.eqb _ _).
Qed.

(** X22.  A block another miner may mint now, it may mint later: if
    [isValidBlock] accepts a block from a miner at one reading of the
    clock, it accepts it at every later reading. *)
Theorem isValidBlock_later (b : Block.t) (m : Miner.t) (st st' : Sys) :
  Date_now (clockReads st) <= Date_now (clockReads st') ->
  fst (isValidBlock b (Some (Peer m)) st) = Return true ->
  fst (isValidBlock b (Some (Peer m)) st') = Return true.
Proof.
  intros Hlater. rewrite !isValidBlock_Some. cbn zeta. cbn [deref].
  rewrite (fst_isEligibileToMint m b _ st' tt), (fst_isEligibileToMint m b _ st tt).
  pose proof (MinerMore.isEligibileToMint_mono m b
                (Spec.targetAllowed (Date_now (clockReads st)) (Block.timestamp b))
                (Spec.targetAllowed (Date_now (clockReads st')) (Block.timestamp b)) tt)
    as Hmono.
  destruct (fst (isEligibileToMint m b
                   (Spec.targetAllowed (Date_now (clockReads st)) _) tt))
    as [[|]|e] eqn:He; cbn [fst andb]; try discriminate.
  intros Hproof. rewrite Hmono; [done | done |].
  unfold Spec.targetAllowed.
  assert (Hdiv : (Date_now (clockReads st) - Block.timestamp b + 1000)
                 / TIME_UNTIL_ELIGIBILITY_DECREASE
                 <= (Date_now (clockReads st') - Block.timestamp b + 1000)
                    / TIME_UNTIL_ELIGIBILITY_DECREASE).
  { apply Z.div_le_mono; [reflexivity | lia]. }
  lia.
Qed.

(** X23.  A block that does not pass validation changes nothing: the miner is
    as before and hands nothing to the outside; [receiveBlock] returns
    [false] if [isValidBlock] did, and throws what [isValidBlock] threw. *)
Theorem receiveBlock_rejects (s : string) (miner : option Sender) (st : Sys) :
  fst (isValidBlock (Block.deserialize s) miner st) <> Return true ->
  this (snd (receiveBlock s miner st)) = this st
  /\ effects (snd (receiveBlock s miner st)) = effects st
  /\ keysDrawn (snd (receiveBlock s miner st)) = keysDrawn st
  /\ fst (receiveBlock s miner st)
     = match fst (isValidBlock (Block.deserialize s) miner st) with
       | Return _ => Return (Some false)
       | Throw e => Throw e
       end.
Proof.
  intros Hvalid. unfold receiveBlock.
  assert (Hframe : effects (snd (isValidBlock (Block.deserialize s) miner st)) = effects st
                   /\ keysDrawn (snd (isValidBlock (Block.deserialize s) miner st))
                      = keysDrawn st).
  { destruct miner as [miner|].
    - rewrite isValidBlock_Some. cbn zeta.
      destruct (fst (isEligibileToMint _ _ _ _)); split; reflexivity.
    - rewrite isValidBlock_None. split; reflexivity. }
  destruct Hframe as [Heff Hkeys].
  destruct (fst (isValidBlock (Block.deserialize s) miner st)) as [[|]|e] eqn:Hv;
    [done | |].
  - rewrite (bind_Return _ _ st false Hv). cbn [negb ret fst snd].
    by rewrite isValidBlock_this.
  - rewrite (bind_Throw _ _ st e Hv). cbn [fst snd].
    by rewrite isValidBlock_this.
Qed.

(** X24.  A block that passes validation is stored under its hash, and no
    other entry of [previousBlocks] is touched: if the hash was unknown,
    or if the miner cuts over, the entry is the block; otherwise the
    entry is the one the miner had. *)
Theorem receiveBlock_stores (s : string) (miner : option Sender) (st : Sys) :
  let b := Block.deserialize s in
  let st' := snd (receiveBlock s miner st) in
  fst (isValidBlock b miner st) = Return true ->
  (forall h, h <> Block.hashVal b ->
     previousBlocks (this st') !! h = previousBlocks (this st) !! h)
  /\ (previousBlocks (this st) !! Block.hashVal b = None ->
      previousBlocks (this st') !! Block.hashVal b = Some b)
  /\ (Spec.betterChain b miner st ->
      previousBlocks (this st') !! Block.hashVal b = Some b)
  /\ (forall known, previousBlocks (this st) !! Block.hashVal b = Some known ->
      ~ Spec.betterChain b miner st ->
      previousBlocks (this st') !! Block.hashVal b = Some known).
Proof.
  intros b st' Hvalid. unfold st'.
  rewrite (receiveBlock_valid s miner st Hvalid). fold b.
  set (st1 := snd (Spec.storeIfUnknown b (snd (isValidBlock b miner st)))).
  assert (Hst1 : previousBlocks (this st1)
                 = match previousBlocks (this st) !! Block.hashVal b with
                   | Some _ => previousBlocks (this st)
                   | None => <[Block.hashVal b := b]> (previousBlocks (this st))
                   end).
  { unfold st1. rewrite storeIfUnknown_run, isValidBlock_this. cbn [snd].
    destruct (previousBlocks (this st) !! Block.hashVal b); [| done].
    by rewrite isValidBlock_this. }
  assert (Hcut : previousBlocks (this (snd (Spec.cutOver b st1)))
                 = <[Block.hashVal b := b]> (previousBlocks (this st1))).
  { unfold Spec.cutOver. do 2 rewrite bind_update.
    match goal with
    | |- context [startNewSearch true ?s0] =>
        destruct (startNewSearch_chain true s0 eq_refl) as [Hchain _]
    end.
    unfold Spec.chainOf in Hchain. by injection Hchain. }
  destruct ((Block.chainLength (currentBlock (this st)) <=? Block.chainLength b)
            && negb (isThis miner)) eqn:Hcond.
  - apply betterChain_decide in Hcond. rewrite snd_bind_ret, Hcut, Hst1.
    split_and!.
    + intros h Hh. rewrite lookup_insert_ne by done.
      destruct (previousBlocks (this st) !! Block.hashVal b); [done |].
      by rewrite lookup_insert_ne.
    + intros _. by rewrite lookup_insert_eq.
    + intros _. by rewrite lookup_insert_eq.
    + intros known _ Hnot. by destruct Hnot.
  - assert (Hnot : ~ Spec.betterChain b miner st).
    { intros Hb. apply betterChain_decide in Hb. congruence. }
    cbn [snd]. rewrite Hst1. split_and!.
    + intros h Hh. destruct (previousBlocks (this st) !! Block.hashVal b); [done |].
      by rewrite lookup_insert_ne.
    + intros ->. by rewrite lookup_insert_eq.
    + intros Hb. by destruct Hnot.
    + intros known Hknown _. by rewrite Hknown.
Qed.

End MinerRun.

Import Scenario.

Lemma startNewSearch_new_block_witness :
  Block.chainLength (currentBlock (this (snd (startNewSearch false starting)))) = 2
  /\ Block.prevBlockHash (currentBlock (this (snd (startNewSearch false starting))))
     = Block.hashVal (currentBlock miner0).
Proof.
  destruct (startNewSearch_new_block false starting eq_refl) as (_ & Hlen & Hprev & _).
  split; [exact Hlen | exact Hprev].
Defined.

Lemma waiting_length :
  String.length (Spec.binarized (Block.prevBlockHash (currentBlock (this waiting))))
  = String.length (Spec.binarized (Spec.eligibilityKey (wallet (this waiting)))).
Proof. vm_compute; reflexivity. Qed.

Lemma startNewSearch_retry_witness :
  shouldMine (this (snd (startNewSearch false waiting))) = false
  /\ mint_elegibility_diff_dyn (this (snd (startNewSearch false waiting))) = 1
  /\ effects (snd (startNewSearch false waiting))
     = [SetTimeout_startNewSearch false 2000].
Proof.
  destruct (startNewSearch_retry false waiting eq_refl)
    as (_ & _ & _ & _ & _ & _ & _ & Hrun).
  specialize (Hrun waiting_length).
  rewrite bool_decide_eq_false_2 in Hrun by (vm_compute; intros Hle; by apply Hle).
  destruct Hrun as (_ & Hmine & Htarget & Heffects).
  split_and!; [exact Hmine | exact Htarget | exact Heffects].
Defined.

Lemma startNewSearch_eventually_eligible_witness :
  shouldMine (this (Spec.attempts 1 false waiting)) = false
  /\ shouldMine (this (Spec.attempts 2 false waiting)) = true.
Proof.
  destruct (startNewSearch_eventually_eligible false waiting eq_refl waiting_length)
    as (Hfail & Hmine & _).
  split; [| exact Hmine].
  apply (Hfail 1%nat). vm_compute. lia.
Defined.

Lemma isValidBlock_later_witness :
  fst (isValidBlock (blockOf "3f2a" 5 0) (Some (Peer miner0))
         {| this := mickey; clockReads := 5; keysDrawn := 0; effects := [] |})
  = Return true.
Proof.
  apply (isValidBlock_later (blockOf "3f2a" 5 0) miner0
           {| this := mickey; clockReads := 0; keysDrawn := 0; effects := [] |}).
  - vm_compute; discriminate.
  - vm_compute; reflexivity.
Defined.

Lemma receiveBlock_rejects_witness :
  this (snd (@receiveBlock utils unsealable env "3f2a" (Some (Peer mickey)) sys0))
  = this sys0
  /\ fst (@receiveBlock utils unsealable env "3f2a" (Some (Peer mickey)) sys0)
     = Return (Some false).
Proof.
  destruct (@receiveBlock_rejects utils unsealable env "3f2a" (Some (Peer mickey)) sys0)
    as (Hthis & _ & _ & Hret).
  - vm_compute; discriminate.
  - split; [exact Hthis | exact Hret].
Defined.

Lemma receiveBlock_stores_witness :
  previousBlocks (this (snd (receiveBlock "3f2a" (Some (Peer mickey)) sys0)))
    !! Block.hashVal (Block.deserialize "3f2a")
  = Some (Block.deserialize "3f2a").
Proof.
  destruct (receiveBlock_stores "3f2a" (Some (Peer mickey)) sys0) as (_ & Hnew & _).
  - vm_compute; reflexivity.
  - apply Hnew. apply lookup_empty.
Defined.

End MinerRun.

Module MiningFacts.
Import Miner Mining MinerFacts.
Section MiningFacts.
Context `{Utils} `{Block.Ops} `{Env} `{Wire}.

Lemma bind_lift {A B} (m : M Sys A) (k : A -> M Mining.t B) (x : Mining.t) :
  bind (lift m) k x =
    let x' := {| sys := snd (m (sys x)); announced := announced x;
                 startMining := startMining x |} in
    match fst (m (sys x)) with
    | Return a => k a x'
    | Throw e => (Throw e, x')
    end.
Proof. unfold bind, lift, zoom. by destruct (m (sys x)) as [[a|e] s]. Qed.

Lemma lift_run {A} (m : M Sys A) (x : Mining.t) :
  lift m x = (fst (m (sys x)),
              {| sys := snd (m (sys x)); announced := announced x;
                 startMining := startMining x |}).
Proof. unfold lift, zoom. by destruct (m (sys x)). Qed.

Lemma atProof_first (x : Mining.t) : Spec.atProof (Spec.firstProof x) x = x.
Proof. by destruct x as [[[? ? ? [] ? ? ? ?] ? ? ?] ? ?]. Qed.

Lemma atProof_atProof (q q' : Z) (x : Mining.t) :
  Spec.atProof q' (Spec.atProof q x) = Spec.atProof q' x.
Proof. reflexivity. Qed.

(** One round of the loop. *)
Lemma findProofLoop_round (fuel : nat) (pausePoint : Z) (x : Mining.t) :
  findProofLoop (S fuel) pausePoint x =
    if shouldMine (this (sys x)) && (Spec.firstProof x <? pausePoint) then
      if Block.verifyProof (currentBlock (this (sys x))) then proofFound x
      else findProofLoop fuel pausePoint (Spec.atProof (Spec.firstProof x + 1) x)
    else (Return tt, x).
Proof.
  destruct x as [s a n]. cbn [findProofLoop]. rewrite bind_get.
  unfold Spec.firstProof. cbn [sys].
  destruct (shouldMine (this s) && _); [| done].
  rewrite bind_lift. cbn [sys announced startMining].
  rewrite isValidBlock_None. cbn [fst snd].
  destruct (Block.verifyProof (currentBlock (this s))); [done |].
  by rewrite bind_lift.
Qed.

(** The rounds spent on proofs that do not seal the block. *)
Lemma findProofLoop_skip (n fuel : nat) (pausePoint : Z) (x : Mining.t) :
  shouldMine (this (sys x)) = true ->
  Spec.noProofBefore (Spec.firstProof x + Z.of_nat n) x ->
  Spec.firstProof x + Z.of_nat n <= pausePoint ->
  findProofLoop (n + fuel) pausePoint x
  = findProofLoop fuel pausePoint (Spec.atProof (Spec.firstProof x + Z.of_nat n) x).
Proof.
  revert x. induction n as [|n IH]; intros x Hmine Hnone Hpause.
  - by rewrite Z.add_0_r, atProof_first.
  - cbn [Nat.add]. rewrite findProofLoop_round, Hmine.
    destruct (Z.ltb_spec (Spec.firstProof x) pausePoint) as [_|]; [| lia].
    cbn [andb].
    assert (Hfirst : Block.verifyProof (currentBlock (this (sys x))) = false).
    { specialize (Hnone (Spec.firstProof x)).
      unfold Spec.candidate in Hnone.
      destruct x as [[[? ? ? [] ? ? ? ?] ? ? ?] ? ?]. apply Hnone.
      unfold Spec.firstProof. cbn. lia. }
    rewrite Hfirst, IH.
    + rewrite atProof_atProof. f_equal. f_equal.
      unfold Spec.firstProof. cbn. lia.
    + done.
    + intros i Hi. apply (Hnone i). unfold Spec.firstProof in *. cbn in Hi. lia.
    + unfold Spec.firstProof. cbn. unfold Spec.firstProof in Hpause. lia.
Qed.

Lemma forM_returns {S A} (body : unit -> A -> M S unit) (l : list A) (s : S) :
  (forall x s', fst (body tt x s') = Return tt) ->
  fst (forM body l tt s) = Return tt.
Proof.
  intros Hbody. revert s. induction l as [|x l IH]; intros s; cbn [forM]; [done |].
  rewrite (bind_Return _ _ s tt) by apply Hbody. apply IH.
Qed.

Lemma receiveOutput_returns (tx : Transaction.t) (st : Sys) :
  fst (receiveOutput tx st) = Return tt.
Proof.
  unfold receiveOutput. apply forM_returns. intros [i o] s.
  rewrite bind_get. cbn [snd fst].
  destruct (Wallet.hasKey (address o) (wallet (this s))) eqn:Hkey; [| done].
  unfold onWallet, zoom. rewrite WalletFacts.addUTXO_run, Hkey. done.
Qed.

Lemma receiveOutput_chain (tx : Transaction.t) : Spec.keepsChain (receiveOutput tx).
Proof.
  unfold receiveOutput. apply MinerRun.keepsChain_forM. intros [] [i o] s.
  rewrite bind_get. cbn [snd fst].
  destruct (Wallet.hasKey (address o) (wallet (this s))); [| apply MinerRun.settled_refl].
  apply MinerRun.keepsChain_onWallet. intros w a Ha.
  rewrite WalletFacts.addUTXO_run. by destruct (Wallet.hasKey (address o) w).
Qed.

Lemma bind_announceProof {B} (k : unit -> M Mining.t B) (x : Mining.t) :
  bind announceProof k x
  = k tt {| sys := sys x;
            announced := serialize true (currentBlock (this (sys x))) :: announced x;
            startMining := startMining x |}.
Proof. reflexivity. Qed.

(** What the miner does with a proof. *)
Lemma proofFound_run (x : Mining.t) :
  let b := currentBlock (this (sys x)) in
  let x' := snd (proofFound x) in
  announced x' = serialize true b :: announced x
  /\ startMining x' = startMining x
  /\ exists reward time,
       currentBlock (this (sys x'))
       = Block.set_proof 0 (Block.constructor reward b time)
       /\ previousBlocks (this (sys x'))
          = <[Block.hashVal b := b]> (previousBlocks (this (sys x)))
       /\ rewardAddress (this (sys x')) = reward
       /\ Wallet.hasKey reward (wallet (this (sys x'))) = true.
Proof.
  intros b x'. unfold x', proofFound. rewrite bind_get, bind_lift. cbn zeta.
  rewrite receiveOutput_returns.
  destruct (receiveOutput_chain (Block.coinbaseTX (currentBlock (this (sys x)))) (sys x))
    as [Hchain _].
  set (st1 := snd (receiveOutput _ (sys x))) in *.
  rewrite bind_announceProof. cbn [sys announced startMining].
  do 2 (rewrite bind_lift; cbn [sys announced startMining update modify fst snd]).
  rewrite lift_run. cbn [snd sys announced startMining].
  match goal with
  | |- context [startNewSearch false ?s0] =>
      destruct (MinerRun.startNewSearch_chain false s0 eq_refl) as [Hnew Hkey];
      set (st2 := snd (startNewSearch false s0)) in *
  end.
  unfold Spec.chainOf in Hchain, Hnew.
  injection Hchain as Hcur Hprev Hreward.
  cbn [this set_this currentBlock previousBlocks set_shouldMine
       set_shouldStartNewBlock] in Hnew.
  injection Hnew as Hcur' Hprev' Hreward'.
  rewrite Hcur in *. rewrite Hprev in *. fold b in Hcur', Hprev' |- *.
  split_and!; [done | done |].
  eexists _, _. split_and!; [exact Hcur' | exact Hprev' | exact Hreward' |].
  by apply Hkey.
Qed.

(** After its loop, [findProof] only schedules the next search. *)
Lemma findProof_loop (oneAndDone : bool) (x : Mining.t) :
  let y := snd (findProofLoop (Z.to_nat NUM_ROUNDS_MINING)
                  (Spec.firstProof x + NUM_ROUNDS_MINING) x) in
  sys (snd (findProof oneAndDone x)) = sys y
  /\ announced (snd (findProof oneAndDone x)) = announced y.
Proof.
  unfold findProof. rewrite bind_get. cbn zeta. fold (Spec.firstProof x).
  unfold bind.
  destruct (findProofLoop _ _ x) as [[[]|e] y]; [| done].
  by destruct oneAndDone.
Qed.



(** X27.  [findProof] never announces a block whose proof does not verify,
    and never more than one block: whatever the miner, either it
    announces nothing, or it announces its current block with a proof
    that [verifyProof] accepts, taken among the NUM_ROUNDS_MINING proofs
    from the one the block had. *)
Theorem findProof_announces_sealed (oneAndDone : bool) (x : Mining.t) :
  let x' := snd (findProof oneAndDone x) in
  announced x' = announced x
  \/ exists q,
       Spec.firstProof x <= q < Spec.firstProof x + NUM_ROUNDS_MINING
       /\ Block.verifyProof (Spec.candidate q x) = true
       /\ announced x' = serialize true (Spec.candidate q x) :: announced x.
Proof.
  intros x'.
  assert (Hloop : forall fuel pausePoint y,
            announced (snd (findProofLoop fuel pausePoint y)) = announced y
            \/ exists q,
                 Spec.firstProof y <= q < pausePoint
                 /\ Block.verifyProof (Spec.candidate q y) = true
                 /\ announced (snd (findProofLoop fuel pausePoint y))
                    = serialize true (Spec.candidate q y) :: announced y).
  { induction fuel as [|fuel IH]; intros pausePoint y; [by left |].
    rewrite findProofLoop_round.
    destruct (shouldMine (this (sys y))); [| by left].
    destruct (Z.ltb_spec (Spec.firstProof y) pausePoint) as [Hlt|]; [| by left].
    cbn [andb].
    destruct (Block.verifyProof (currentBlock (this (sys y)))) eqn:Hseal.
    - right. exists (Spec.firstProof y).
      assert (Hsame : Spec.candidate (Spec.firstProof y) y = currentBlock (this (sys y))).
      { by destruct y as [[[? ? ? [] ? ? ? ?] ? ? ?] ? ?]. }
      rewrite Hsame. split_and!; [lia | done | done |].
      by destruct (proofFound_run y) as [Hann _].
    - destruct (IH pausePoint (Spec.atProof (Spec.firstProof y + 1) y))
        as [Hnone|(q & Hq & Hverify & Hann)]; [by left |].
      right. exists q. split_and!; [| | done | done].
      + unfold Spec.firstProof in *. cbn in Hq. lia.
      + lia. }
  destruct (findProof_loop oneAndDone x) as [_ Hann]. unfold x'. rewrite Hann.
  apply Hloop.
Qed.

End MiningFacts.

Import Scenario.



End MiningFacts.
